(** * Verification of the SQL query builder (src/lib/queryBuilder.ts, src/lib/chains.ts)

    The development embeds the TypeScript query compiler shallowly:

    - JavaScript values that travel through filters, rows and bindings are the
      inductive [JsVal]; objects are association lists kept in enumeration
      order. The objects the code receives (filter groups, rows, filter
      values) are plain objects: their prototype is [Object.prototype], which
      has no enumerable member, so a [for ... in] loop visits their own keys,
      and they are read by own-property lookup, with two reads through the
      prototype modelled where the key comes from the caller: the chain table
      read by a chain id ([chainSchemaFor]) and the call of
      [value.hasOwnProperty] ([filterObjectShape]). No own property is named
      [toString]. The two loops that copy a filter group key by key (in the
      router and before the statements are built) assign with [assign]:
      under the key [__proto__] the assignment can replace the prototype of
      the copy, which the model cannot record, so the statements about the
      copies are made for groups without that key. A key that reads as an
      array index, which JavaScript enumerates before the others, is outside
      the model of the enumeration order;
    - strings are [string]s of characters below U+0100 (ASCII and the Latin-1
      supplement), one per UTF-16 code unit, with the case mapping JavaScript
      gives them; characters from U+0100 on are outside the model;
    - numbers are the integers ([Z]);
    - a thrown exception is the [Raise] outcome: [Thrown msg] for the strings
      the code throws itself, [TypeError] for the engine's own error when a
      property of [null] is read or [Object.keys] is given [undefined];
    - the SQL text is a sequence of fragments [Sql]: literal text and the
      positional placeholders the code prints with [`$${i}`]; [render] gives
      the text itself, and [text_placeholders] reads the placeholders back
      from that text;
    - the collaborators whose source is not part of the repository slice
      (./pgFormat, ./humps, ./constants) are interfaces ([PgFormat], [Humps],
      [Constants]); the general statements about the compiler hold for every
      implementation of them, the examples run on the implementation the
      specification describes. *)

From Stdlib Require Import List String Ascii ZArith Arith Bool Lia.
From Stdlib Require Import DecimalString DecimalNat Sorted Permutation.
Import ListNotations.

Set Warnings "-register-all".

Local Open Scope string_scope.
Local Open Scope list_scope.

(** ** Characters and strings *)

Definition is_lower_letter (c : ascii) : bool :=
  ((97 <=? nat_of_ascii c) && (nat_of_ascii c <=? 122))%nat.

Definition is_upper_letter (c : ascii) : bool :=
  ((65 <=? nat_of_ascii c) && (nat_of_ascii c <=? 90))%nat.

Definition is_digit (c : ascii) : bool :=
  ((48 <=? nat_of_ascii c) && (nat_of_ascii c <=? 57))%nat.

(** The letters of the Latin-1 supplement that have a counterpart of the
    other case 32 places away: uppercase U+00C0 to U+00DE and lowercase
    U+00E0 to U+00FE, without the signs U+00D7 and U+00F7. *)
Definition is_latin1_upper (c : ascii) : bool :=
  ((192 <=? nat_of_ascii c) && (nat_of_ascii c <=? 222)
   && negb (nat_of_ascii c =? 215))%nat.

Definition is_latin1_lower (c : ascii) : bool :=
  ((224 <=? nat_of_ascii c) && (nat_of_ascii c <=? 254)
   && negb (nat_of_ascii c =? 247))%nat.

(** [c.toUpperCase()] on one character, when the result is one character
    below U+0100. [None] for the three lowercase characters for which it is
    not: U+00DF (the result is the two characters SS), U+00B5 and U+00FF (the
    results are U+039C and U+0178). *)
Definition char_toUpperCase (c : ascii) : option ascii :=
  if is_lower_letter c || is_latin1_lower c
  then Some (ascii_of_nat (nat_of_ascii c - 32))
  else if ((nat_of_ascii c =? 223) || (nat_of_ascii c =? 181)
           || (nat_of_ascii c =? 255))%nat
       then None
       else Some c.

(** [c.toLowerCase()] on one character: always one character below U+0100. *)
Definition char_toLowerCase (c : ascii) : ascii :=
  if is_upper_letter c || is_latin1_upper c
  then ascii_of_nat (nat_of_ascii c + 32) else c.

(** [s.toLowerCase()]. *)
Fixpoint toLowerCase (s : string) : string :=
  match s with
  | EmptyString => EmptyString
  | String c rest => String (char_toLowerCase c) (toLowerCase rest)
  end.

(** [s.includes(c)] for a one-character needle. *)
Fixpoint includes (c : ascii) (s : string) : bool :=
  match s with
  | EmptyString => false
  | String d rest => Ascii.eqb d c || includes c rest
  end.

(** [s.split(sep)] for a one-character separator: never the empty list. *)
Fixpoint split (sep : ascii) (s : string) : list string :=
  match s with
  | EmptyString => [EmptyString]
  | String c rest =>
      if Ascii.eqb c sep then EmptyString :: split sep rest
      else match split sep rest with
           | [] => [String c EmptyString]
           | cur :: more => String c cur :: more
           end
  end.

(** [parts.join(sep)] on strings is [String.concat sep parts]. *)
Definition join (sep : string) (parts : list string) : string :=
  String.concat sep parts.

(** [!s] is false exactly for the non-empty strings. *)
Definition str_truthy (s : string) : bool :=
  match s with EmptyString => false | String _ _ => true end.

(** Decimal text of a counter, as a template literal prints a number. *)
Definition nat_to_string (n : nat) : string :=
  NilEmpty.string_of_uint (Nat.to_uint n).

Definition Z_to_string (z : Z) : string :=
  NilEmpty.string_of_int (Z.to_int z).

(** [keys.sort()]: the default order of [Array.prototype.sort] on strings
    compares code units lexicographically, which is [String.leb]. The result
    of a sort by a total order is unique, so insertion sort stands for the
    engine's algorithm. *)
Fixpoint sort_insert (k : string) (sorted : list string) : list string :=
  match sorted with
  | [] => [k]
  | x :: rest => if String.leb k x then k :: sorted else x :: sort_insert k rest
  end.

Fixpoint sort (keys : list string) : list string :=
  match keys with
  | [] => []
  | k :: rest => sort_insert k (sort rest)
  end.

(** ** JavaScript values *)

Inductive JsVal : Type :=
| VUndefined
| VNull
| VBool (b : bool)
| VNum (n : Z)
| VStr (s : string)
| VArr (items : list JsVal)
| VObj (props : list (string * JsVal)).

(** Objects with string keys, in enumeration order. *)
Definition Dict (V : Type) : Type := list (string * V).

(** [StringKeyMap] of ./types: [{ [key: string]: any }]. *)
Definition StringKeyMap : Type := Dict JsVal.

Fixpoint dict_lookup {V} (o : Dict V) (k : string) : option V :=
  match o with
  | [] => None
  | (k', v) :: rest => if String.eqb k' k then Some v else dict_lookup rest k
  end.

(** [o[k] = v]: an existing key keeps its place, a new key goes last. *)
Fixpoint dict_set {V} (o : Dict V) (k : string) (v : V) : Dict V :=
  match o with
  | [] => [(k, v)]
  | (k', v') :: rest =>
      if String.eqb k' k then (k', v) :: rest else (k', v') :: dict_set rest k v
  end.

(** [Object.keys(o)], also the keys a [for ... in] loop visits. *)
Definition Object_keys {V} (o : Dict V) : list string := map fst o.

(** [o.hasOwnProperty(k)]. *)
Definition hasOwnProperty {V} (o : Dict V) (k : string) : bool :=
  match dict_lookup o k with Some _ => true | None => false end.

(** [o[k]] on a map of values: [undefined] when the key is absent. *)
Definition obj_get (o : StringKeyMap) (k : string) : JsVal :=
  match dict_lookup o k with Some v => v | None => VUndefined end.

(** The members every plain object inherits from [Object.prototype], each
    with the text [Array.prototype.join] gives it: for a built-in function
    its source text as Node's engine prints it (the standard fixes the words,
    not the spacing), for [__proto__], which reads [Object.prototype] itself,
    the text of an object. All of them are truthy. *)
Definition Object_prototype_members : Dict string :=
  [ ("constructor", "function Object() { [native code] }");
    ("__defineGetter__", "function __defineGetter__() { [native code] }");
    ("__defineSetter__", "function __defineSetter__() { [native code] }");
    ("hasOwnProperty", "function hasOwnProperty() { [native code] }");
    ("__lookupGetter__", "function __lookupGetter__() { [native code] }");
    ("__lookupSetter__", "function __lookupSetter__() { [native code] }");
    ("isPrototypeOf", "function isPrototypeOf() { [native code] }");
    ("propertyIsEnumerable", "function propertyIsEnumerable() { [native code] }");
    ("toString", "function toString() { [native code] }");
    ("valueOf", "function valueOf() { [native code] }");
    ("__proto__", "[object Object]");
    ("toLocaleString", "function toLocaleString() { [native code] }") ].

(** [!!v]. *)
Definition truthy (v : JsVal) : bool :=
  match v with
  | VUndefined | VNull => false
  | VBool b => b
  | VNum n => negb (n =? 0)%Z
  | VStr s => str_truthy s
  | VArr _ | VObj _ => true
  end.

(** [a === b]. Arrays and objects are compared by identity; values here are
    trees without sharing, so two of them met at different places are never
    the same object. *)
Definition strict_eq (a b : JsVal) : bool :=
  match a, b with
  | VUndefined, VUndefined => true
  | VNull, VNull => true
  | VBool x, VBool y => Bool.eqb x y
  | VNum x, VNum y => (x =? y)%Z
  | VStr x, VStr y => String.eqb x y
  | _, _ => false
  end.

(** The values that [===] compares by content. *)
Definition is_primitive (v : JsVal) : bool :=
  match v with
  | VArr _ | VObj _ => false
  | _ => true
  end.

(** [v.toString()] as [String(v)] computes it; the code calls it on truthy
    values only. *)
Fixpoint js_toString (v : JsVal) : string :=
  match v with
  | VUndefined => "undefined"
  | VNull => "null"
  | VBool true => "true"
  | VBool false => "false"
  | VNum n => Z_to_string n
  | VStr s => s
  | VArr items =>
      join ","
        (map (fun x => match x with
                       | VUndefined | VNull => EmptyString
                       | _ => js_toString x
                       end) items)
  | VObj _ => "[object Object]"
  end.

(** ** Outcomes of a call *)

Inductive JsError : Type :=
| TypeError
| Thrown (message : string).

Inductive outcome (A : Type) : Type :=
| Ok (a : A)
| Raise (e : JsError).

Arguments Ok {A} a.
Arguments Raise {A} e.

(** ** SQL text with positional placeholders *)

(** [Param n v] is the placeholder [$n]; [v] records the value that was pushed
    on the bindings when the placeholder was printed. *)
Inductive frag : Type :=
| Txt (s : string)
| Param (n : nat) (v : JsVal).

Definition Sql : Type := list frag.

Definition render_frag (f : frag) : string :=
  match f with
  | Txt s => s
  | Param n _ => ("$" ++ nat_to_string n)%string
  end.

(** The SQL string itself. *)
Definition render (q : Sql) : string :=
  String.concat "" (map render_frag q).

(** [parts.join(sep)] on SQL pieces. *)
Fixpoint sql_join (sep : string) (parts : list Sql) : Sql :=
  match parts with
  | [] => []
  | [p] => p
  | p :: rest => p ++ Txt sep :: sql_join sep rest
  end.

(** [`(${s})`]. *)
Definition parens (s : Sql) : Sql := Txt "(" :: s ++ [Txt ")"].

(** The placeholders of a query in the order they occur, each with the value
    recorded for it. *)
Fixpoint placeholders (q : Sql) : list (nat * JsVal) :=
  match q with
  | [] => []
  | Txt _ :: rest => placeholders rest
  | Param n v :: rest => (n, v) :: placeholders rest
  end.

(** ** External collaborators *)

(** ./pgFormat: [ident] quotes one identifier, [literal] renders a value as
    SQL literal text. *)
Class PgFormat : Type := {
  ident : string -> string;
  literal : JsVal -> string
}.

(** ./humps: [decamelize]. *)
Class Humps : Type := {
  decamelize : string -> string
}.

(** ./constants: the reserved logical schema and the chain-id filter key. *)
Class Constants : Type := {
  SPEC_SCHEMA : string;
  CHAIN_ID_PROPERTY : string
}.

(** ./types: the [FilterOp] and [OrderByDirection] enumerations, as the
    declarations kept after package.json give them. *)
Definition FilterOp_EqualTo : string := "=".
Definition FilterOp_In : string := "in".

Definition FilterOp_values : list string :=
  ["="; "!="; ">"; ">="; "<"; "<="; "in"; "not in"].

Definition OrderByDirection_values : list string := ["asc"; "desc"].

Definition string_in (s : string) (l : list string) : bool :=
  existsb (String.eqb s) l.

(** [new Set(Object.values(FilterOp))]. *)
Definition filterOpValues : list string := FilterOp_values.

(** [filterOpValues.has(op)]: only a string can be a member; the result
    carries the operator's text for the template literal. *)
Definition filterOp_of (op : JsVal) : option string :=
  match op with
  | VStr s => if string_in s filterOpValues then Some s else None
  | _ => None
  end.

(** ** Name normalizer *)

(** [c === c.toUpperCase()]: true of every character but the lowercase
    letters that have an uppercase of their own. *)
Definition isUpperCase (c : ascii) : bool :=
  match char_toUpperCase c with
  | Some upper => Ascii.eqb c upper
  | None => false
  end.

(** The loop of [removeAcronymFromCamel] from index [i] on: [prevChar] is
    [val[i - 1]] of the input (absent at index 0), [val] is the rest of the
    input from index [i]. *)
Fixpoint removeAcronymFromCamel_from (prevChar : option ascii) (val : string)
  : string :=
  match val with
  | EmptyString => EmptyString
  | String char rest =>
      let prevCharIsUpperCase :=
        match prevChar with Some p => isUpperCase p | None => false end in
      let charIsUpperCase := isUpperCase char in
      let nextCharIsUpperCase :=
        match rest with String n _ => isUpperCase n | EmptyString => false end in
      let isLast :=
        match rest with EmptyString => true | String _ _ => false end in
      String
        (if prevCharIsUpperCase && charIsUpperCase
            && (nextCharIsUpperCase || isLast)
         then char_toLowerCase char
         else char)
        (removeAcronymFromCamel_from (Some char) rest)
  end.

Definition removeAcronymFromCamel (val : string) : string :=
  removeAcronymFromCamel_from None val.

Definition toSnakeCase `{Humps} (value : string) : string :=
  decamelize (removeAcronymFromCamel value).

(** Modelled from the spec: ./humps is missing from the sources. The spec's
    decamelization pass: a separator before each uppercase letter that follows
    a lowercase letter or a digit, then the whole string in lowercase. *)
Fixpoint separateWords_from (prevChar : option ascii) (s : string) : string :=
  match s with
  | EmptyString => EmptyString
  | String c rest =>
      let follows :=
        match prevChar with
        | Some p => is_lower_letter p || is_digit p
        | None => false
        end in
      if follows && is_upper_letter c
      then String "_" (String c (separateWords_from (Some c) rest))
      else String c (separateWords_from (Some c) rest)
  end.

Definition spec_decamelize (s : string) : string :=
  toLowerCase (separateWords_from None s).

#[export] Instance spec_humps : Humps := {| decamelize := spec_decamelize |}.

(** ** Chain table (src/lib/chains.ts) *)

Definition invert (obj1 : Dict string) : Dict string :=
  fold_left
    (fun obj2 key =>
       match dict_lookup obj1 key with
       | Some v => dict_set obj2 v key
       | None => obj2
       end)
    (Object_keys obj1) [].

Definition chainIds : Dict string :=
  [ ("ETHEREUM", "1"); ("GOERLI", "5"); ("POLYGON", "137");
    ("MUMBAI", "80001"); ("BASE", "8453"); ("OPTIMISM", "10");
    ("ARBITRUM", "42161"); ("PGN", "424"); ("CELO", "42220");
    ("LINEA", "59144"); ("SEPOLIA", "11155111") ].

Definition chainSpecificSchemas : Dict string :=
  [ ("ETHEREUM", "ethereum"); ("GOERLI", "goerli"); ("POLYGON", "polygon");
    ("MUMBAI", "mumbai"); ("BASE", "base"); ("OPTIMISM", "optimism");
    ("ARBITRUM", "arbitrum"); ("PGN", "pgn"); ("CELO", "celo");
    ("LINEA", "linea"); ("SEPOLIA", "sepolia") ].

(** [d.NAME] on one of the two constant tables above. *)
Definition member (d : Dict string) (name : string) : string :=
  match dict_lookup d name with Some v => v | None => "undefined" end.

(** The object literal with computed keys
    [[chainSpecificSchemas.X]: chainIds.X], one property per chain in the
    order written. *)
Definition chainIdForSchema : Dict string :=
  fold_left
    (fun o name => dict_set o (member chainSpecificSchemas name) (member chainIds name))
    [ "ETHEREUM"; "GOERLI"; "POLYGON"; "MUMBAI"; "BASE"; "OPTIMISM";
      "ARBITRUM"; "PGN"; "CELO"; "LINEA"; "SEPOLIA" ]
    [].

Definition schemaForChainId : Dict string := invert chainIdForSchema.

(** [schemaForChainId[id]] followed by the test [if (!chainSchema)], with
    the text the value has when it is joined into the table name.
    [schemaForChainId] is a plain object: an [id] that is not one of its own
    keys is looked up in [Object.prototype], whose members are truthy.
    [None] when nothing is found, or something falsy. *)
Definition chainSchemaFor (id : string) : option string :=
  match dict_lookup schemaForChainId id with
  | Some schema => if str_truthy schema then Some schema else None
  | None => dict_lookup Object_prototype_members id
  end.

(** ** Inputs and result of the compiler (./types) *)

Inductive OrderByColumn : Type :=
| Column (c : string)
| Columns (cs : list string).

Record OrderBy : Type := {
  column : OrderByColumn;
  direction : string
}.

(** [SelectOptions]: a field is [None] when the object has no such property. *)
Record SelectOptions : Type := {
  orderBy : option OrderBy;
  offset : option JsVal;
  limit : option JsVal;
  chainId : option string;
  blockRange : option (list JsVal)
}.

(** [Filters]: one group or an array of groups; a [None] element of the
    array is a falsy one ([null] or [undefined]). *)
Inductive Filters : Type :=
| FiltersUndefined
| FiltersNull
| FiltersMap (m : StringKeyMap)
| FiltersArray (groups : list (option StringKeyMap)).

(** [QueryPayload]; [schemaName] and [tableName] are [None] when
    [undefined]. *)
Record QueryPayload : Type := {
  schemaName : option string;
  tableName : option string;
  sql : Sql;
  bindings : list JsVal
}.

(** [data] of an upsert: an array of rows, or one row that is no array. *)
Inductive UpsertData : Type :=
| Row (r : StringKeyMap)
| Rows (rs : list StringKeyMap).

(** [returning?: string | string[]]. *)
Inductive Returning : Type :=
| ReturningOne (s : string)
| ReturningMany (cols : list string).

(** [Array.isArray(data) ? data : [data]]. *)
Definition rowsOf (data : UpsertData) : list StringKeyMap :=
  match data with Rows rs => rs | Row r => [r] end.

(** ** The binding accumulator *)

(** [values] and [bindingIndex.i], the two objects [buildAndStatement]
    mutates; the upsert loop keeps the same pair as [bindings] and [i]. *)
Record Bindings : Type := {
  values : list JsVal;
  bindingIndex : nat
}.

(** A computation that may push bindings and may throw. *)
Definition Emit (A : Type) : Type := Bindings -> outcome (A * Bindings).

Definition ret {A} (a : A) : Emit A := fun st => Ok (a, st).

Definition bind {A B} (m : Emit A) (k : A -> Emit B) : Emit B :=
  fun st =>
    match m st with
    | Ok (a, st') => k a st'
    | Raise e => Raise e
    end.

Notation "x <- m ;; k" := (bind m (fun x => k))
  (at level 61, m at next level, right associativity).

(** [placeholders.push(`$${i}`); values.push(v); i++]. *)
Definition emit (v : JsVal) : Emit frag :=
  fun st =>
    Ok (Param (bindingIndex st) v,
        {| values := values st ++ [v]; bindingIndex := S (bindingIndex st) |}).

(** A [for ... of] loop that collects one result per element. *)
Fixpoint for_each {A B} (f : A -> Emit B) (l : list A) : Emit (list B) :=
  match l with
  | [] => ret []
  | x :: rest =>
      y <- f x ;;
      ys <- for_each f rest ;;
      ret (y :: ys)
  end.

Definition lift {A} (o : outcome A) : Emit A :=
  fun st =>
    match o with
    | Ok a => Ok (a, st)
    | Raise e => Raise e
    end.

(** The entries a loop kept: those it did not [continue] past. *)
Fixpoint kept {A} (l : list (option A)) : list A :=
  match l with
  | [] => []
  | Some a :: rest => a :: kept rest
  | None :: rest => kept rest
  end.

(** ** The query builder (src/lib/queryBuilder.ts) *)

Definition emptyResponseTable : string := "ethereum.blocks".

Definition emptyResponseFilters : list StringKeyMap :=
  [ [("number", VNum (-1))] ].

Definition Array_isArray (v : JsVal) : bool :=
  match v with VArr _ => true | _ => false end.

(** [typeof v === 'object']: objects, arrays and [null]. *)
Definition typeof_object (v : JsVal) : bool :=
  match v with VNull | VArr _ | VObj _ => true | _ => false end.

(** [o[k] = v] on an object the code built from [{}]. Under the key
    [__proto__] the assignment reaches the accessor inherited from
    [Object.prototype]: a value that is neither an object nor [null] is
    ignored and no property is created. An object or [null] becomes the
    prototype of [o] instead; the model has no prototypes and keeps such a
    value as an entry, so the statements about the objects the code builds
    are made for keys other than [__proto__]. *)
Definition assign (o : StringKeyMap) (k : string) (v : JsVal) : StringKeyMap :=
  if String.eqb k "__proto__" && negb (typeof_object v) then o
  else dict_set o k v.

(** [isObject && value.op && value.hasOwnProperty('value')] for a value with
    [isObject] true. Reading [.op] of [null] is a TypeError; so is the call
    of [value.hasOwnProperty] when the object has a property of that name of
    its own, since no value of the model is callable. The call is reached
    only when [value.op] is truthy. *)
Definition filterObjectShape (value : JsVal) : outcome bool :=
  match value with
  | VObj props =>
      if truthy (obj_get props "op") then
        if hasOwnProperty props "hasOwnProperty" then Raise TypeError
        else Ok (hasOwnProperty props "value")
      else Ok false
  | VNull => Raise TypeError
  | _ => Ok false
  end.

(** The test that makes the loop [continue] past a malformed entry. *)
Definition skipEntry (value : JsVal) (isArray isObject isFilterObject : bool)
  : bool :=
  match value with
  | VNull | VUndefined => true
  | VArr items =>
      (isArray && (List.length items =? 0)%nat)
      || (isArray && existsb Array_isArray items)
  | VObj props =>
      isObject && ((List.length (Object_keys props) =? 0)%nat || negb isFilterObject)
  | _ => false
  end.

Section QueryBuilder.

Context `{PgFormat} `{Humps} `{Constants}.

Definition identPath (value : string) : string :=
  join "." (map ident (split "." value)).

(** The operator and the right-hand value of an entry that is not skipped:
    [in] for a list on a single column, the declared pair of an explicit
    filter object, [=] otherwise. *)
Definition operatorAndValue (value : JsVal)
  (isArray isMultiColComparison isFilterObject : bool) : JsVal * JsVal :=
  if isArray && negb isMultiColComparison then (VStr FilterOp_In, value)
  else if isFilterObject then
    match value with
    | VObj props => (obj_get props "op", obj_get props "value")
    | _ => (VStr FilterOp_EqualTo, value)
    end
  else (VStr FilterOp_EqualTo, value).

(** The placeholder text of a right-hand value: one placeholder per element
    of an array, in parentheses, or a single placeholder. *)
Definition valuePlaceholder (value : JsVal) : Emit Sql :=
  match value with
  | VArr items =>
      valuePlaceholders <- for_each emit items ;;
      ret (parens (sql_join ", " (map (fun p => [p]) valuePlaceholders)))
  | _ =>
      p <- emit value ;;
      ret [p]
  end.

(** The column reference of an entry. *)
Definition colEntry (colPath : string) (isMultiColComparison : bool) : string :=
  if isMultiColComparison
  then ("(" ++ join ", " (map identPath (split "," colPath)) ++ ")")%string
  else identPath colPath.

(** One turn of the [for (const colPath in filtersMap)] loop: [None] when the
    entry is skipped, else the statement pushed on [statements]. *)
Definition andEntry (filtersMap : StringKeyMap) (colPath : string)
  : Emit (option Sql) :=
  let value := obj_get filtersMap colPath in
  let isArray := Array_isArray value in
  let isObject := negb isArray && typeof_object value in
  isFilterObject <- lift (if isObject then filterObjectShape value else Ok false) ;;
  if skipEntry value isArray isObject isFilterObject then ret None
  else
    let isMultiColComparison := includes "," colPath in
    let '(op, value) :=
      operatorAndValue value isArray isMultiColComparison isFilterObject in
    match filterOp_of op with
    | None => ret None
    | Some opText =>
        placeholder <- valuePlaceholder value ;;
        ret (Some (Txt (colEntry colPath isMultiColComparison)
                     :: Txt " " :: Txt opText :: Txt " " :: placeholder))
    end.

(** [buildAndStatement(filtersMap, values, bindingIndex)]: [None] is the
    [null] result. *)
Definition buildAndStatement (filtersMap : option StringKeyMap)
  : Emit (option Sql) :=
  match filtersMap with
  | None => ret None
  | Some filtersMap =>
      let numKeys := List.length (Object_keys filtersMap) in
      if (numKeys =? 0)%nat then ret None
      else
        statements <- for_each (andEntry filtersMap) (Object_keys filtersMap) ;;
        ret (Some (sql_join " and " (kept statements)))
  end.

Definition addSelectOptionsToQuery (sql : Sql) (options : option SelectOptions)
  : Sql :=
  let orderBy := match options with Some o => orderBy o | None => None end in
  let sql :=
    match orderBy with
    | Some ob =>
        let columnTruthy :=
          match column ob with Column c => str_truthy c | Columns _ => true end in
        if columnTruthy && string_in (direction ob) OrderByDirection_values then
          let orderByColumns :=
            match column ob with Column c => [c] | Columns cs => cs end in
          sql ++ [Txt (" order by ("
                       ++ join ", " (map identPath (map toSnakeCase orderByColumns))
                       ++ ") " ++ direction ob)%string]
        else sql
    | None => sql
    end in
  let sql :=
    match options with
    | Some {| offset := Some v |} => sql ++ [Txt (" offset " ++ literal v)%string]
    | _ => sql
    end in
  let sql :=
    match options with
    | Some {| limit := Some v |} => sql ++ [Txt (" limit " ++ literal v)%string]
    | _ => sql
    end in
  sql.

(** [[chainSchema, tableName].join('.')]: an [undefined] element joins as the
    empty string. *)
Definition chainTable (chainSchema : string) (tableName : option string)
  : string :=
  join "." [chainSchema; match tableName with Some t => t | None => EmptyString end].

(** The loop that copies a group without its chain-id property. *)
Definition withoutChainId (filter : StringKeyMap) : StringKeyMap :=
  fold_left
    (fun newFilter key =>
       if String.eqb key CHAIN_ID_PROPERTY then newFilter
       else assign newFilter key (obj_get filter key))
    (Object_keys filter) [].

Definition FiltersRequired : JsError :=
  Thrown ("Filters are required when querying the " ++ SPEC_SCHEMA ++ " schema").

Definition MissingChainIdFilter : JsError :=
  Thrown ("No " ++ CHAIN_ID_PROPERTY ++ " filter included with " ++ SPEC_SCHEMA
          ++ " schema query").

Definition InconsistentChainIdAcrossFilterGroups : JsError :=
  Thrown ("All filters must have equivalent " ++ CHAIN_ID_PROPERTY ++ " properties").

(** [options?.chainId] when it is truthy. *)
Definition optionsChainId (options : option SelectOptions) : option string :=
  match options with
  | Some o =>
      match chainId o with
      | Some c => if str_truthy c then Some c else None
      | None => None
      end
  | None => None
  end.

Definition detectSpecSchemaQuery (table : string) (filters : list StringKeyMap)
  (options : option SelectOptions) : outcome (string * list StringKeyMap) :=
  let parts := split "." table in
  let schemaName := nth 0 parts EmptyString in
  let tableName := nth_error parts 1 in
  if negb (String.eqb schemaName SPEC_SCHEMA) then Ok (table, filters)
  else
    match optionsChainId options with
    | Some optChainId =>
        match chainSchemaFor optChainId with
        | None => Ok (emptyResponseTable, emptyResponseFilters)
        | Some chainSchema => Ok (chainTable chainSchema tableName, filters)
        end
    | None =>
        match filters with
        | [] => Raise FiltersRequired
        | first :: others =>
            let chainId := obj_get first CHAIN_ID_PROPERTY in
            if negb (truthy chainId) then Raise MissingChainIdFilter
            else
              match chainSchemaFor (js_toString chainId) with
              | None => Ok (emptyResponseTable, emptyResponseFilters)
              | Some chainSchema =>
                  (* [filters.every(f => f[CHAIN_ID_PROPERTY] === chainId)]:
                     the first group holds [chainId] itself, which [===]
                     accepts; the others hold values of their own. *)
                  let allFiltersHaveSameChainId :=
                    forallb
                      (fun f => strict_eq (obj_get f CHAIN_ID_PROPERTY) chainId)
                      others in
                  if negb allFiltersHaveSameChainId
                  then Raise InconsistentChainIdAcrossFilterGroups
                  else Ok (chainTable chainSchema tableName,
                           map withoutChainId filters)
              end
        end
    end.

(** The callback of [filters.map] that renames every key to snake_case. *)
Definition formatFilter (filter : StringKeyMap) : StringKeyMap :=
  fold_left
    (fun formatted propertyName =>
       assign formatted (toSnakeCase propertyName) (obj_get filter propertyName))
    (Object_keys filter) [].

(** [`block_number >= ${literal(blockRange[0])}`] and its upper bound. *)
Definition blockRangeStatement (blockRange : list JsVal) : Sql :=
  match blockRange with
  | [] => []
  | lo :: rest =>
      Txt ("block_number >= " ++ literal lo)%string
      :: match rest with
         | hi :: _ => [Txt (" and block_number <= " ++ literal hi)%string]
         | [] => []
         end
  end.

(** [options?.blockRange || []]. *)
Definition optionsBlockRange (options : option SelectOptions) : list JsVal :=
  match options with
  | Some {| blockRange := Some r |} => r
  | _ => []
  end.

(** What [if (blockRange.length) { ... whereGroups.push(blockRangeStatement) }]
    adds to [whereGroups]. *)
Definition blockRangeGroup (blockRange : list JsVal) : list Sql :=
  if (List.length blockRange =? 0)%nat then []
  else [blockRangeStatement blockRange].

(** What [if (orStatements.length) whereGroups.push(...)] adds to
    [whereGroups]: nothing, the only statement as it is, or the statements in
    parentheses joined by [or]. *)
Definition orGroup (orStatements : list Sql) : list Sql :=
  match orStatements with
  | [] => []
  | [s] => [s]
  | _ => [sql_join " or " (map parens orStatements)]
  end.

(** [whereGroups.length > 1 ? whereGroups.map(...).join(' and ') : whereGroups[0]];
    an [undefined] first element would print as such. *)
Definition whereClause (whereGroups : list Sql) : Sql :=
  match whereGroups with
  | [] => [Txt "undefined"]
  | [g] => g
  | _ => sql_join " and " (map parens whereGroups)
  end.

(** [(filtersIsArray ? filters : [filters]).filter((f) => !!f)]. *)
Definition truthyGroups (filters : Filters) : list StringKeyMap :=
  match filters with
  | FiltersArray groups => kept groups
  | FiltersMap m => [m]
  | FiltersNull | FiltersUndefined => []
  end.

Definition buildSelectQuery (table : string) (filters : Filters)
  (options : option SelectOptions) : outcome QueryPayload :=
  let blockRange := optionsBlockRange options in
  let filtersIsArray :=
    match filters with FiltersArray _ => true | _ => false end in
  let filtersIsObject :=
    negb filtersIsArray
    && match filters with FiltersNull | FiltersMap _ => true | _ => false end in
  let filters := truthyGroups filters in
  match detectSpecSchemaQuery table filters options with
  | Raise e => Raise e
  | Ok (table, filters) =>
      let parts := split "." table in
      let schemaName := nth_error parts 0 in
      let tableName := nth_error parts 1 in
      let select := [Txt ("select * from " ++ identPath table)%string] in
      (* [!filters] is false: [filters] is an array by now, and
         [Object.keys] of an array has one key per element. *)
      let filtersIsEmpty :=
        (filtersIsArray && (List.length filters =? 0)%nat)
        || (filtersIsObject && (List.length filters =? 0)%nat) in
      if filtersIsEmpty && (List.length blockRange =? 0)%nat then
        Ok {| schemaName := schemaName; tableName := tableName;
              sql := addSelectOptionsToQuery select options; bindings := [] |}
      else
        let filters := map formatFilter filters in
        match for_each (fun inclusiveFilters => buildAndStatement (Some inclusiveFilters))
                filters {| values := []; bindingIndex := 1 |} with
        | Raise e => Raise e
        | Ok (andStatements, st) =>
            let orStatements :=
              filter (fun s => negb (String.length (render s) =? 0)%nat)
                (kept andStatements) in
            if (List.length orStatements =? 0)%nat && (List.length blockRange =? 0)%nat then
              Ok {| schemaName := schemaName; tableName := tableName;
                    sql := addSelectOptionsToQuery select options; bindings := [] |}
            else
              let whereGroups :=
                blockRangeGroup blockRange ++ orGroup orStatements in
              let sql := select ++ Txt " where " :: whereClause whereGroups in
              Ok {| schemaName := schemaName; tableName := tableName;
                    sql := addSelectOptionsToQuery sql options;
                    bindings := values st |}
        end
  end.

(** The row loop of the upsert: one parenthesised group of placeholders per
    entry, one placeholder and one binding per insert column. *)
Definition entryPlaceholders (insertColNames : list string) (entry : StringKeyMap)
  : Emit Sql :=
  ps <- for_each (fun colName => emit (obj_get entry colName)) insertColNames ;;
  ret (parens (sql_join ", " (map (fun p => [p]) ps))).

(** The pieces [buildUpsertQuery] appends to [sql], one definition per
    [sql += ...] of the source. *)
Definition insertClause (table : string) (insertColNames : list string) : Sql :=
  [Txt ("insert into " ++ identPath table ++ " ("
        ++ join ", " (map ident (map toSnakeCase insertColNames))
        ++ ")")%string].

Definition conflictClause (conflictColumns : list string) : Sql :=
  [Txt (" on conflict ("
        ++ join ", " (map ident (map toSnakeCase conflictColumns))
        ++ ")")%string].

(** [`${ident(c)} = excluded.${ident(c)}`]. *)
Definition updateAssignment (updateColName : string) : string :=
  (ident updateColName ++ " = excluded." ++ ident updateColName)%string.

Definition updateClause (updateColumns : list string) : Sql :=
  let updateColumns := map toSnakeCase updateColumns in
  let updates := map updateAssignment updateColumns in
  [Txt (" do update set " ++ join ", " updates)%string].

(** [if (primaryTimestampColumn) sql += ...]; [guardOp] is the comparison
    the variant at hand prints. *)
Definition guardClause (guardOp : string) (table : string)
  (primaryTimestampColumn : option string) : Sql :=
  match primaryTimestampColumn with
  | Some c =>
      if str_truthy c then
        [Txt (" where " ++ identPath (join "." [table; c])
              ++ " " ++ guardOp ++ " excluded." ++ ident c)%string]
      else []
  | None => []
  end.

(** [if (returning) sql += ...]. *)
Definition returningClause (returning : option Returning) : Sql :=
  match returning with
  | Some r =>
      let returningTruthy :=
        match r with ReturningOne s => str_truthy s | ReturningMany _ => true end in
      if returningTruthy then
        let isAll :=
          match r with ReturningOne s => String.eqb s "*" | ReturningMany _ => false end in
        let cols :=
          match r with ReturningOne s => [s] | ReturningMany cs => cs end in
        [Txt (" returning "
              ++ (if isAll then "*"
                  else join ", " (map ident (map toSnakeCase cols))))%string]
      else []
  | None => []
  end.

(** The statement and the bindings of [buildUpsertQuery]. The repository
    holds two variants of the function that differ in the operator of the
    timestamp guard only; [guardOp] is that operator. *)
Definition upsertStatement (guardOp : string) (table : string) (data : UpsertData)
  (conflictColumns updateColumns : list string)
  (primaryTimestampColumn : option string) (returning : option Returning)
  : outcome (Sql * list JsVal) :=
  let data := rowsOf data in
  match data with
  | [] => Raise TypeError
  | first :: _ =>
      let insertColNames := sort (Object_keys first) in
      if (List.length insertColNames =? 0)%nat then Raise (Thrown "No values to upsert")
      else
        let sql := insertClause table insertColNames in
        match for_each (entryPlaceholders insertColNames) data
                {| values := []; bindingIndex := 1 |} with
        | Raise e => Raise e
        | Ok (placeholders, st) =>
            let bindings := values st in
            let sql :=
              sql ++ Txt " values " :: sql_join ", " placeholders
                  ++ conflictClause conflictColumns in
            if (List.length updateColumns =? 0)%nat then
              Ok (sql ++ [Txt " do nothing"], bindings)
            else
              let sql := sql ++ updateClause updateColumns in
              let sql := sql ++ guardClause guardOp table primaryTimestampColumn in
              let sql := sql ++ returningClause returning in
              Ok (sql, bindings)
        end
  end.

(** [buildUpsertQuery] as the module exports it: the guard is [<=]. *)
Definition buildUpsertQuery (table : string) (data : UpsertData)
  (conflictColumns updateColumns : list string)
  (primaryTimestampColumn : option string) (returning : option Returning)
  : outcome QueryPayload :=
  match upsertStatement "<=" table data conflictColumns updateColumns
          primaryTimestampColumn returning with
  | Raise e => Raise e
  | Ok (sql, bindings) =>
      let parts := split "." table in
      Ok {| schemaName := nth_error parts 0; tableName := nth_error parts 1;
            sql := sql; bindings := bindings |}
  end.

(** The superseded duplicate kept in the repository: the guard is [>=] and
    the payload has no [schemaName] nor [tableName]. *)
Definition buildUpsertQuery_superseded (table : string) (data : UpsertData)
  (conflictColumns updateColumns : list string)
  (primaryTimestampColumn : option string) (returning : option Returning)
  : outcome QueryPayload :=
  match upsertStatement ">=" table data conflictColumns updateColumns
          primaryTimestampColumn returning with
  | Raise e => Raise e
  | Ok (sql, bindings) =>
      Ok {| schemaName := None; tableName := None; sql := sql; bindings := bindings |}
  end.

End QueryBuilder.

(** ** An implementation of the collaborators, for running the compiler *)

Definition double_quote : string := String (ascii_of_nat 34) EmptyString.
Definition single_quote : string := String (ascii_of_nat 39) EmptyString.

(** Doubles every occurrence of the quote character [q] in [s]. *)
Fixpoint escape_quote (q : ascii) (s : string) : string :=
  match s with
  | EmptyString => EmptyString
  | String c rest =>
      if Ascii.eqb c q then String c (String c (escape_quote q rest))
      else String c (escape_quote q rest)
  end.

(** Modelled from the spec: ./pgFormat is missing from the sources. [ident]
    quotes one identifier; [literal] leaves numbers unquoted, quotes strings
    and renders [null] as the dialect's null. *)
Definition quote_ident (name : string) : string :=
  (double_quote ++ escape_quote (ascii_of_nat 34) name ++ double_quote)%string.

Definition quote_literal (v : JsVal) : string :=
  match v with
  | VUndefined | VNull => "NULL"
  | VNum n => Z_to_string n
  | VBool true => (single_quote ++ "t" ++ single_quote)%string
  | VBool false => (single_quote ++ "f" ++ single_quote)%string
  | _ => (single_quote ++ escape_quote (ascii_of_nat 39) (js_toString v)
            ++ single_quote)%string
  end.

#[export] Instance spec_pgFormat : PgFormat :=
  {| ident := quote_ident; literal := quote_literal |}.

(** Modelled from the spec: ./constants is missing from the sources and the
    spec fixes no values; these two serve the examples only. *)
#[export] Instance spec_constants : Constants :=
  {| SPEC_SCHEMA := "spec"; CHAIN_ID_PROPERTY := "chainId" |}.

(** The text and the bindings of a compiled query, [None] when the
    compilation threw. *)
Definition compiled (r : outcome QueryPayload) : option (string * list JsVal) :=
  match r with
  | Ok p => Some (render (sql p), bindings p)
  | Raise _ => None
  end.

(** ** Vocabulary of the statements *)

(** Between [st] and [st'] the values [vs] were pushed, and [ps] lists the
    placeholders printed for them: consecutive numbers from the counter of
    [st], each with its value. *)
Definition emitted (st st' : Bindings) (ps : list (nat * JsVal)) : Prop :=
  exists vs,
    values st' = values st ++ vs
    /\ bindingIndex st' = bindingIndex st + List.length vs
    /\ ps = combine (seq (bindingIndex st) (List.length vs)) vs.

(** The bindings of one upsert row: its value at each insert column. *)
Definition rowBindings (cols : list string) (row : StringKeyMap) : list JsVal :=
  map (obj_get row) cols.

(** The group of placeholders of one row when the counter stands at
    [start]: column [j] of the row gets the number [start + j]. *)
Definition rowPlaceholders (cols : list string) (start : nat) (row : StringKeyMap)
  : Sql :=
  parens
    (sql_join ", "
       (map (fun nv => [Param (fst nv) (snd nv)])
          (combine (seq start (List.length cols)) (rowBindings cols row)))).

(** The groups of consecutive rows, the first one printed from [start]. *)
Fixpoint rowsFrom (cols : list string) (start : nat) (rows : list StringKeyMap)
  : list Sql :=
  match rows with
  | [] => []
  | row :: rest =>
      rowPlaceholders cols start row :: rowsFrom cols (start + List.length cols) rest
  end.

(** The operator the spec gives an entry that is kept: the declared operator
    of an explicit filter object when it is one of the enumerated operators,
    [in] for a list on a path without a comma, [=] in every other case, among
    them a list on a comma-separated path. [None]: no operator, the entry is
    dropped. *)
Definition spec_operator (colPath : string) (value : JsVal) : option string :=
  match value with
  | VObj props =>
      match obj_get props "op" with
      | VStr op => if string_in op FilterOp_values then Some op else None
      | _ => None
      end
  | VArr _ => if includes "," colPath then Some "=" else Some "in"
  | _ => Some "="
  end.

(** The explicit filter of the spec: an operator drawn from the enumerated
    set and a [value] key that is present. *)
Definition spec_explicit (props : StringKeyMap) : bool :=
  match obj_get props "op" with
  | VStr op => string_in op FilterOp_values
  | _ => false
  end
  && hasOwnProperty props "value".

(** The entries the spec skips: a value that is [null] or [undefined], an
    empty array, an array that holds an array, an object without keys or
    without the explicit-filter shape. *)
Definition spec_skipped (value : JsVal) : bool :=
  match value with
  | VNull | VUndefined => true
  | VArr items => (List.length items =? 0)%nat || existsb Array_isArray items
  | VObj props =>
      (List.length (Object_keys props) =? 0)%nat || negb (spec_explicit props)
  | _ => false
  end.

(** The value the spec compares with: the [value] of an explicit filter, the
    entry's value itself otherwise. *)
Definition spec_compared (value : JsVal) : JsVal :=
  match value with
  | VObj props => obj_get props "value"
  | _ => value
  end.

(** The values the spec binds for a compared value: the elements of a list
    one by one, a scalar itself. *)
Definition spec_bound (compared : JsVal) : list JsVal :=
  match compared with
  | VArr items => items
  | _ => [compared]
  end.

(** The right-hand side of the spec when the counter stands at [start]: one
    parenthesised group of placeholders for a list, one placeholder for a
    scalar. *)
Definition spec_rhs (start : nat) (compared : JsVal) : Sql :=
  match compared with
  | VArr items =>
      parens
        (sql_join ", "
           (map (fun nv => [Param (fst nv) (snd nv)])
              (combine (seq start (List.length items)) items)))
  | _ => [Param start compared]
  end.

(** The column reference of the spec: the parenthesised tuple of the quoted
    columns of a comma-separated path, the quoted path otherwise. *)
Definition spec_colref `{PgFormat} (colPath : string) : string :=
  if includes "," colPath
  then ("(" ++ join ", " (map identPath (split "," colPath)) ++ ")")%string
  else identPath colPath.

(** What the spec makes of one entry when the counter stands at [start]:
    nothing for an entry it skips or whose operator is not enumerated, else
    the statement [<colref> <op> <placeholder>] and the values it binds. *)
Definition spec_entry `{PgFormat} (colPath : string) (value : JsVal) (start : nat)
  : option (Sql * list JsVal) :=
  if spec_skipped value then None
  else
    match spec_operator colPath value with
    | None => None
    | Some op =>
        Some (Txt (spec_colref colPath) :: Txt " " :: Txt op :: Txt " "
                :: spec_rhs start (spec_compared value),
              spec_bound (spec_compared value))
    end.

(** The values on which a loop turn of [buildAndStatement] throws a
    TypeError: [null], whose [.op] is read, and an object that declares a
    truthy [op] and has a property [hasOwnProperty] of its own, which is
    called. *)
Definition entryThrows (value : JsVal) : bool :=
  match value with
  | VNull => true
  | VObj props =>
      truthy (obj_get props "op") && hasOwnProperty props "hasOwnProperty"
  | _ => false
  end.

(** The malformed values the loop of [buildAndStatement] passes over without
    an error: [undefined], an empty array, an array that holds an array, an
    object without keys, an object without the explicit-filter shape, an
    explicit filter whose operator is not enumerated. The values on which
    the loop throws are not among them. *)
Definition droppable (value : JsVal) : bool :=
  match value with
  | VUndefined => true
  | VArr items => (List.length items =? 0)%nat || existsb Array_isArray items
  | VObj props =>
      negb (entryThrows value)
      && ((List.length (Object_keys props) =? 0)%nat
          || negb (truthy (obj_get props "op"))
          || negb (hasOwnProperty props "value")
          || match filterOp_of (obj_get props "op") with
             | None => true
             | Some _ => false
             end)
  | _ => false
  end.

(** No key of the group is renamed to [__proto__]: every assignment of the
    renaming loop creates a property. *)
Definition ordinaryColumns `{Humps} (filter : StringKeyMap) : Prop :=
  forall k, In k (Object_keys filter) -> toSnakeCase k <> "__proto__".

(** The predicate the sentinel filter [{ number: -1 }] compiles to, at
    placeholder 1. *)
Definition sentinelPredicate `{PgFormat} `{Humps} : Sql :=
  [ Txt (colEntry (toSnakeCase "number") (includes "," (toSnakeCase "number")));
    Txt " "; Txt "="; Txt " "; Param 1 (VNum (-1)) ].

(** What follows the conflict target of an upsert. *)
Definition afterConflict `{PgFormat} `{Humps} (guardOp table : string)
  (updateColumns : list string) (primaryTimestampColumn : option string)
  (returning : option Returning) : Sql :=
  if (List.length updateColumns =? 0)%nat then [Txt " do nothing"]
  else updateClause updateColumns
       ++ guardClause guardOp table primaryTimestampColumn
       ++ returningClause returning.


(** The placeholders of what one loop turn produced. *)
Definition placeholders_of (r : option Sql) : list (nat * JsVal) :=
  match r with Some s => placeholders s | None => [] end.

(** ** Reading the placeholders back from the SQL text *)

(** A scanner of SQL text: outside quotes, inside a double-quoted identifier,
    inside a single-quoted literal, or reading the digits of a placeholder
    after its [$]. A doubled quote inside a quoted token closes and reopens
    it, which leaves the scanner inside. *)
Inductive lexer : Type :=
| Outside
| InIdentifier
| InLiteral
| InParam (digits : string).

(** The number of a placeholder whose digits were read; a lone [$] is no
    placeholder. *)
Definition param_number (digits : string) : list nat :=
  match digits with
  | EmptyString => []
  | String _ _ =>
      match NilEmpty.uint_of_string digits with
      | Some d => [Nat.of_uint d]
      | None => []
      end
  end.

Definition outside_step (c : ascii) : lexer :=
  if Ascii.eqb c (ascii_of_nat 34) then InIdentifier
  else if Ascii.eqb c (ascii_of_nat 39) then InLiteral
  else if Ascii.eqb c "$"%char then InParam EmptyString
  else Outside.

(** One character: the next state and the placeholder completed, if any. *)
Definition lex_step (st : lexer) (c : ascii) : lexer * list nat :=
  match st with
  | Outside => (outside_step c, [])
  | InIdentifier =>
      (if Ascii.eqb c (ascii_of_nat 34) then Outside else InIdentifier, [])
  | InLiteral =>
      (if Ascii.eqb c (ascii_of_nat 39) then Outside else InLiteral, [])
  | InParam digits =>
      if is_digit c then (InParam (digits ++ String c EmptyString), [])
      else (outside_step c, param_number digits)
  end.

Fixpoint lex_run (st : lexer) (s : string) : lexer * list nat :=
  match s with
  | EmptyString => (st, [])
  | String c rest =>
      let (st1, out1) := lex_step st c in
      let (st2, out2) := lex_run st1 rest in
      (st2, out1 ++ out2)
  end.

(** The placeholder pending when the text ends. *)
Definition lex_finish (st : lexer) : list nat :=
  match st with
  | InParam digits => param_number digits
  | _ => []
  end.

Definition lex_all (st : lexer) (s : string) : list nat :=
  let (st', out) := lex_run st s in out ++ lex_finish st'.

(** The numbers of the placeholders [$n] that occur in a SQL text outside
    quoted identifiers and literals, in their order. *)
Definition text_placeholders (s : string) : list nat := lex_all Outside s.

(** A piece of text that holds no placeholder and closes every quote it
    opens. *)
Definition neutral (t : string) : Prop := lex_run Outside t = (Outside, []).

(** A neutral piece that can follow a placeholder: its first character is
    neither a digit nor a quote nor a [$]. *)
Definition separator (t : string) : Prop :=
  match t with
  | EmptyString => False
  | String c rest =>
      is_digit c = false /\ outside_step c = Outside /\ neutral rest
  end.

(** A query whose text pieces are neutral and whose placeholders are each
    followed by a separator or by the end; [afterParam] tells whether a
    placeholder stands right before the query. *)
Fixpoint well_separated (afterParam : bool) (q : Sql) : Prop :=
  match q with
  | [] => True
  | Txt t :: rest =>
      (if afterParam then separator t else neutral t)
      /\ well_separated false rest
  | Param _ _ :: rest => afterParam = false /\ well_separated true rest
  end.

(** ** The superseded select (second copy of queryBuilder.ts) *)

Section Superseded.

Context `{PgFormat} `{Humps}.

(** The callback of [filters.map] on an element of the array that may be
    [null] or [undefined]: a [for ... in] loop over such a value runs no
    turn, so the formatted object is empty. *)
Definition formatGroup (filter : option StringKeyMap) : StringKeyMap :=
  match filter with
  | Some m => formatFilter m
  | None => []
  end.

(** [orStatements.length > 1 ? orStatements.map(...).join(' or ') : orStatements[0]]. *)
Definition orClause (orStatements : list Sql) : Sql :=
  match orStatements with
  | [] => [Txt "undefined"]
  | [s] => s
  | _ => sql_join " or " (map parens orStatements)
  end.

(** [buildSelectQuery] of the superseded copy: no router, no block range,
    no [schemaName] nor [tableName]; falsy groups are not filtered out. *)
Definition buildSelectQuery_superseded (table : string) (filters : Filters)
  (options : option SelectOptions) : outcome QueryPayload :=
  let select := [Txt ("select * from " ++ identPath table)%string] in
  let unfiltered :=
    Ok {| schemaName := None; tableName := None;
          sql := addSelectOptionsToQuery select options; bindings := [] |} in
  let filtersIsEmpty :=
    match filters with
    | FiltersUndefined | FiltersNull => true
    | FiltersArray groups => (List.length groups =? 0)%nat
    | FiltersMap m => (List.length (Object_keys m) =? 0)%nat
    end in
  if filtersIsEmpty then unfiltered
  else
    let filters :=
      match filters with
      | FiltersArray groups => groups
      | FiltersMap m => [Some m]
      | FiltersNull | FiltersUndefined => []
      end in
    let filters := map formatGroup filters in
    match for_each (fun inclusiveFilters => buildAndStatement (Some inclusiveFilters))
            filters {| values := []; bindingIndex := 1 |} with
    | Raise e => Raise e
    | Ok (andStatements, st) =>
        let orStatements :=
          filter (fun s => negb (String.length (render s) =? 0)%nat)
            (kept andStatements) in
        if (List.length orStatements =? 0)%nat then unfiltered
        else
          let sql := select ++ Txt " where " :: orClause orStatements in
          Ok {| schemaName := None; tableName := None;
                sql := addSelectOptionsToQuery sql options;
                bindings := values st |}
    end.

End Superseded.

(** ** Vocabulary of the further properties *)

(** What [buildSelectQuery] does once the router has answered with [table]
    and [groups]. *)
Definition selectAfterRouting `{PgFormat} `{Humps} (table : string)
  (groups : list StringKeyMap) (options : option SelectOptions)
  : outcome QueryPayload :=
  let blockRange := optionsBlockRange options in
  let select := [Txt ("select * from " ++ identPath table)%string] in
  match for_each (fun inclusiveFilters => buildAndStatement (Some inclusiveFilters))
          (map formatFilter groups) {| values := []; bindingIndex := 1 |} with
  | Raise e => Raise e
  | Ok (andStatements, st) =>
      let orStatements :=
        filter (fun s => negb (String.length (render s) =? 0)%nat)
          (kept andStatements) in
      if (List.length orStatements =? 0)%nat && (List.length blockRange =? 0)%nat then
        Ok {| schemaName := nth_error (split "." table) 0;
              tableName := nth_error (split "." table) 1;
              sql := addSelectOptionsToQuery select options; bindings := [] |}
      else
        Ok {| schemaName := nth_error (split "." table) 0;
              tableName := nth_error (split "." table) 1;
              sql := addSelectOptionsToQuery
                       (select ++ Txt " where "
                          :: whereClause (blockRangeGroup blockRange
                                          ++ orGroup orStatements))
                       options;
              bindings := values st |}
  end.

(** Options without [orderBy], [offset] and [limit]. *)
Definition withoutPaging (o : SelectOptions) : SelectOptions :=
  {| orderBy := None; offset := None; limit := None;
     chainId := chainId o; blockRange := blockRange o |}.

(** Options without [blockRange]. *)
Definition withoutBlockRange (o : SelectOptions) : SelectOptions :=
  {| orderBy := orderBy o; offset := offset o; limit := limit o;
     chainId := chainId o; blockRange := None |}.

(** Options without [orderBy]. *)
Definition withoutOrderBy (o : SelectOptions) : SelectOptions :=
  {| orderBy := None; offset := offset o; limit := limit o;
     chainId := chainId o; blockRange := blockRange o |}.

(** Options with another [chainId]. *)
Definition withChainId (o : SelectOptions) (c : option string) : SelectOptions :=
  {| orderBy := orderBy o; offset := offset o; limit := limit o;
     chainId := c; blockRange := blockRange o |}.

(** A payload with other sql. *)
Definition withSql (p : QueryPayload) (q : Sql) : QueryPayload :=
  {| schemaName := schemaName p; tableName := tableName p;
     sql := q; bindings := bindings p |}.


(** A boolean, a number or a string. *)
Definition scalar (v : JsVal) : bool :=
  match v with
  | VBool _ | VNum _ | VStr _ => true
  | _ => false
  end.

(** A group with its keys normalized in place. *)
Definition renamed `{Humps} (filter : StringKeyMap) : StringKeyMap :=
  map (fun kv => (toSnakeCase (fst kv), snd kv)) filter.

(** One equality per entry, [<column> = $n], numbered from [start] in the
    order of the entries. *)
Definition equalityPredicates `{PgFormat} (start : nat) (entries : StringKeyMap)
  : list Sql :=
  map (fun nkv =>
         [ Txt (colEntry (fst (snd nkv)) (includes "," (fst (snd nkv))));
           Txt " "; Txt "="; Txt " "; Param (fst nkv) (snd (snd nkv)) ])
    (combine (seq start (List.length entries)) entries).

(** [isUpperCase] of every character of [s]: no lowercase letter in it. *)
Fixpoint everyUpperCase (s : string) : bool :=
  match s with
  | EmptyString => true
  | String c rest => isUpperCase c && everyUpperCase rest
  end.

(** Some character of [val] and the one before it (for the first one,
    [prevChar]) both pass [isUpperCase]. *)
Fixpoint adjacentUpperCase (prevChar : option ascii) (val : string) : bool :=
  match val with
  | EmptyString => false
  | String char rest =>
      match prevChar with
      | Some p => isUpperCase p && isUpperCase char
      | None => false
      end
      || adjacentUpperCase (Some char) rest
  end.

(** The strings of a concrete list are pairwise distinct. *)
Ltac distinct_strings :=
  repeat (constructor; [cbn [In]; intuition discriminate|]); constructor.

(** No key of a concrete group is renamed to [__proto__]. *)
Ltac ordinary_columns :=
  let k := fresh "k" in
  let Hin := fresh "Hin" in
  intros k Hin; cbn [Object_keys map fst In] in Hin;
  repeat (destruct Hin as [<-|Hin]; [vm_compute; discriminate|]);
  contradiction.

(** * Properties *)

(** ** Characters and strings *)

Lemma char_toLowerCase_idem (c : ascii) :
  char_toLowerCase (char_toLowerCase c) = char_toLowerCase c.
Proof.
  destruct c as [[] [] [] [] [] [] [] []]; vm_compute; reflexivity.
Qed.

Lemma lowercase_not_upper_letter (c : ascii) :
  char_toLowerCase c = c -> is_upper_letter c = false.
Proof.
  destruct c as [[] [] [] [] [] [] [] []]; vm_compute; congruence.
Qed.

Lemma toLowerCase_idem (s : string) : toLowerCase (toLowerCase s) = toLowerCase s.
Proof.
  induction s as [|c s IH]; simpl; [reflexivity|].
  now rewrite char_toLowerCase_idem, IH.
Qed.

(** ** Name normalizer *)

(** A string without uppercase letters is left alone by the de-acronym
    pass, whatever stood before it. *)
Lemma removeAcronymFromCamel_from_lowercase (s : string) :
  toLowerCase s = s ->
  forall prevChar, removeAcronymFromCamel_from prevChar s = s.
Proof.
  induction s as [|c s IH]; intros Hlow prevChar; simpl; [reflexivity|].
  simpl in Hlow. injection Hlow as Hc Hs.
  rewrite (IH Hs), Hc.
  now destruct (_ && _ && _).
Qed.

Lemma separateWords_from_lowercase (s : string) :
  toLowerCase s = s ->
  forall prevChar, separateWords_from prevChar s = s.
Proof.
  induction s as [|c s IH]; intros Hlow prevChar; simpl; [reflexivity|].
  simpl in Hlow. injection Hlow as Hc Hs.
  rewrite (lowercase_not_upper_letter c Hc), andb_false_r.
  now rewrite (IH Hs).
Qed.

Lemma spec_decamelize_lowercase (s : string) :
  toLowerCase (spec_decamelize s) = spec_decamelize s.
Proof. unfold spec_decamelize. apply toLowerCase_idem. Qed.

Lemma spec_decamelize_fixes_lowercase (s : string) :
  toLowerCase s = s -> spec_decamelize s = s.
Proof.
  intros Hlow. unfold spec_decamelize.
  now rewrite (separateWords_from_lowercase s Hlow None).
Qed.

Section Idempotence.

(** Any decamelizer that answers in lowercase and leaves lowercase strings
    alone makes the normalizer idempotent. *)
Context `{Humps}.
Hypothesis decamelize_lowercase :
  forall s, toLowerCase (decamelize s) = decamelize s.
Hypothesis decamelize_fixes_lowercase :
  forall s, toLowerCase s = s -> decamelize s = s.

Lemma toSnakeCase_idem_for (x : string) :
  toSnakeCase (toSnakeCase x) = toSnakeCase x.
Proof.
  unfold toSnakeCase, removeAcronymFromCamel.
  set (y := decamelize (removeAcronymFromCamel_from None x)).
  assert (Hy : toLowerCase y = y) by apply decamelize_lowercase.
  rewrite (removeAcronymFromCamel_from_lowercase y Hy None).
  now apply decamelize_fixes_lowercase.
Qed.

End Idempotence.

(** C9: the name normalizer [toSnakeCase] (the de-acronym pass followed by the
    decamelization of the spec) is idempotent: normalizing twice gives the
    same string as normalizing once, for every input. *)
Theorem toSnakeCase_idempotent (x : string) :
  @toSnakeCase spec_humps (@toSnakeCase spec_humps x) = @toSnakeCase spec_humps x.
Proof.
  apply (@toSnakeCase_idem_for spec_humps).
  - exact spec_decamelize_lowercase.
  - exact spec_decamelize_fixes_lowercase.
Qed.

Lemma Ok_pair_inj {A B} (a a' : A) (b b' : B) :
  Ok (a, b) = Ok (a', b') -> a = a' /\ b = b'.
Proof. intros Heq. injection Heq as -> ->. auto. Qed.

(** ** Placeholders of composed SQL *)

Lemma placeholders_app (a b : Sql) :
  placeholders (a ++ b) = placeholders a ++ placeholders b.
Proof.
  induction a as [|[s|n v] a IH]; simpl; [reflexivity|assumption|now rewrite IH].
Qed.

Lemma placeholders_Txt (s : string) (q : Sql) :
  placeholders (Txt s :: q) = placeholders q.
Proof. reflexivity. Qed.

Lemma placeholders_parens (s : Sql) : placeholders (parens s) = placeholders s.
Proof.
  unfold parens. simpl. rewrite placeholders_app. simpl. apply app_nil_r.
Qed.

Lemma placeholders_sql_join (sep : string) (parts : list Sql) :
  placeholders (sql_join sep parts) = flat_map placeholders parts.
Proof.
  induction parts as [|p [|q rest] IH]; simpl in *.
  - reflexivity.
  - now rewrite app_nil_r.
  - rewrite placeholders_app. simpl. now rewrite IH.
Qed.

Lemma flat_map_parens (parts : list Sql) :
  flat_map placeholders (map parens parts) = flat_map placeholders parts.
Proof.
  induction parts as [|p rest IH]; cbn [map flat_map]; [reflexivity|].
  now rewrite placeholders_parens, IH.
Qed.

Lemma placeholders_singletons (ps : list frag) :
  flat_map placeholders (map (fun p => [p]) ps) = placeholders ps.
Proof.
  induction ps as [|[s|n v] ps IH]; simpl; [reflexivity|assumption|now rewrite IH].
Qed.

Lemma length_append (a b : string) :
  String.length (a ++ b) = String.length a + String.length b.
Proof. induction a as [|c a IH]; simpl; [reflexivity|now rewrite IH]. Qed.

Lemma append_empty_r (a : string) : (a ++ "")%string = a.
Proof. induction a as [|c a IH]; simpl; [reflexivity|now rewrite IH]. Qed.

Lemma string_append_assoc (a b c : string) :
  ((a ++ b) ++ c)%string = (a ++ (b ++ c))%string.
Proof. induction a as [|x a IH]; simpl; [reflexivity|now rewrite IH]. Qed.

Lemma render_cons (f : frag) (q : Sql) :
  render (f :: q) = (render_frag f ++ render q)%string.
Proof.
  unfold render. simpl. destruct (map render_frag q); simpl.
  - now rewrite append_empty_r.
  - reflexivity.
Qed.

(** A query whose text is empty holds no placeholder: a placeholder prints
    at least its [$]. *)
Lemma empty_text_no_placeholders (q : Sql) :
  String.length (render q) = 0 -> placeholders q = [].
Proof.
  induction q as [|[s|n v] q IH]; intros Hlen; [reflexivity| |];
    rewrite render_cons, length_append in Hlen; simpl in *.
  - apply IH. lia.
  - discriminate.
Qed.

Lemma placeholders_nonempty_text (qs : list Sql) :
  flat_map placeholders
    (filter (fun s => negb (String.length (render s) =? 0)%nat) qs)
  = flat_map placeholders qs.
Proof.
  induction qs as [|q qs IH]; simpl; [reflexivity|].
  destruct (String.length (render q) =? 0)%nat eqn:E; simpl.
  - apply Nat.eqb_eq in E. now rewrite (empty_text_no_placeholders q E).
  - now rewrite IH.
Qed.

(** ** The binding accumulator *)

Lemma combine_app_same {A B} (l1 : list A) (l1' : list B) l2 l2' :
  List.length l1 = List.length l1' ->
  combine (l1 ++ l2) (l1' ++ l2') = combine l1 l1' ++ combine l2 l2'.
Proof.
  revert l1'. induction l1 as [|a l1 IH]; intros [|b l1'] Hlen; simpl in *;
    try discriminate; [reflexivity|].
  f_equal. apply IH. now injection Hlen.
Qed.

Lemma emitted_refl (st : Bindings) : emitted st st [].
Proof.
  exists []. simpl. rewrite app_nil_r, Nat.add_0_r. auto.
Qed.

Lemma emitted_trans (st st' st'' : Bindings) ps qs :
  emitted st st' ps -> emitted st' st'' qs -> emitted st st'' (ps ++ qs).
Proof.
  intros (vs & Hv & Hi & Hp) (ws & Hv' & Hi' & Hq).
  subst ps qs. exists (vs ++ ws). rewrite Hv', Hv, Hi', Hi, length_app.
  repeat split.
  - now rewrite app_assoc.
  - lia.
  - rewrite seq_app. symmetry. apply combine_app_same. now rewrite length_seq.
Qed.

Lemma emitted_emit (v : JsVal) (st st' : Bindings) (p : frag) :
  emit v st = Ok (p, st') -> emitted st st' (placeholders [p]).
Proof.
  unfold emit. intros Heq. injection Heq as <- <-.
  exists [v]. simpl. repeat split. lia.
Qed.

Lemma for_each_emitted {A B} (f : A -> Emit B) (ph : B -> list (nat * JsVal))
  (l : list A) :
  (forall x st b st', f x st = Ok (b, st') -> emitted st st' (ph b)) ->
  forall st bs st',
    for_each f l st = Ok (bs, st') -> emitted st st' (flat_map ph bs).
Proof.
  intros Hf. induction l as [|x l IH]; simpl; intros st bs st' Hrun.
  - injection Hrun as <- <-. apply emitted_refl.
  - unfold bind in Hrun.
    destruct (f x st) as [[b st1]|e] eqn:Hx; [|discriminate].
    destruct (for_each f l st1) as [[bs' st2]|e] eqn:Hl; [|discriminate].
    injection Hrun as <- <-. simpl.
    eapply emitted_trans; eauto.
Qed.

Lemma map_fst_combine_same {A B} (l : list A) (l' : list B) :
  List.length l = List.length l' -> map fst (combine l l') = l.
Proof.
  revert l'. induction l as [|a l IH]; intros [|b l'] Hlen; simpl in *;
    try discriminate; [reflexivity|].
  f_equal. apply IH. now injection Hlen.
Qed.

Lemma map_snd_combine_same {A B} (l : list A) (l' : list B) :
  List.length l = List.length l' -> map snd (combine l l') = l'.
Proof.
  revert l'. induction l as [|a l IH]; intros [|b l'] Hlen; simpl in *;
    try discriminate; [reflexivity|].
  f_equal. apply IH. now injection Hlen.
Qed.

(** From the fresh accumulator the placeholders are numbered from 1 and
    paired with the whole bindings list. *)
Lemma emitted_from_start (st' : Bindings) ps :
  emitted {| values := []; bindingIndex := 1 |} st' ps ->
  map fst ps = seq 1 (List.length (values st')) /\ map snd ps = values st'.
Proof.
  intros (vs & Hv & _ & Hp). simpl in *. subst.
  split.
  - apply map_fst_combine_same, length_seq.
  - apply map_snd_combine_same, length_seq.
Qed.

(** ** Placeholders and bindings of a select *)

Section Accounting.

Context `{PgFormat} `{Humps} `{Constants}.

Lemma flat_map_placeholders_single (ps : list frag) :
  flat_map (fun p => placeholders [p]) ps = placeholders ps.
Proof.
  induction ps as [|[s|n v] ps IH]; simpl; [reflexivity|exact IH|f_equal; exact IH].
Qed.

Lemma emit_values_emitted (items : list JsVal) st ps st' :
  for_each emit items st = Ok (ps, st') -> emitted st st' (placeholders ps).
Proof.
  rewrite <- flat_map_placeholders_single.
  apply for_each_emitted. intros x st0 p st1. apply emitted_emit.
Qed.

Lemma valuePlaceholder_emitted (value : JsVal) st q st' :
  valuePlaceholder value st = Ok (q, st') -> emitted st st' (placeholders q).
Proof.
  unfold valuePlaceholder, bind, ret.
  destruct value as [| | b | n | s | items | props].
  6:{ destruct (for_each emit items st) as [[ps st1]|e] eqn:Hrun; [|discriminate].
      intros Heq. injection Heq as <- <-.
      rewrite placeholders_parens, placeholders_sql_join, placeholders_singletons.
      eapply emit_values_emitted; exact Hrun. }
  all: unfold emit; intros Heq; injection Heq as <- <-; simpl;
    eexists [_]; simpl; repeat split; lia.
Qed.

Lemma andEntry_emitted (filtersMap : StringKeyMap) (colPath : string) st r st' :
  andEntry filtersMap colPath st = Ok (r, st') ->
  emitted st st' (placeholders_of r).
Proof.
  unfold andEntry, bind, lift.
  match goal with
  | |- context [if ?c then filterObjectShape ?v else ?d] =>
      destruct (if c then filterObjectShape v else d) as [isFilterObject|e]
  end; [|discriminate].
  destruct (skipEntry _ _ _ _).
  { intros Heq. injection Heq as <- <-. apply emitted_refl. }
  destruct (operatorAndValue _ _ _ _) as [op value].
  destruct (filterOp_of op) as [opText|].
  2:{ intros Heq. injection Heq as <- <-. apply emitted_refl. }
  destruct (valuePlaceholder value st) as [[q st1]|e] eqn:Hrun; [|discriminate].
  intros Heq. injection Heq as <- <-. simpl.
  now apply valuePlaceholder_emitted in Hrun.
Qed.

Lemma flat_map_placeholders_kept (rs : list (option Sql)) :
  flat_map placeholders (kept rs) = flat_map placeholders_of rs.
Proof.
  induction rs as [|[s|] rs IH]; simpl; [reflexivity|now rewrite IH|assumption].
Qed.

Lemma buildAndStatement_emitted (filtersMap : option StringKeyMap) st r st' :
  buildAndStatement filtersMap st = Ok (r, st') ->
  emitted st st' (placeholders_of r).
Proof.
  unfold buildAndStatement.
  destruct filtersMap as [m|].
  2:{ intros Heq. injection Heq as <- <-. apply emitted_refl. }
  destruct (_ =? 0)%nat.
  { intros Heq. injection Heq as <- <-. apply emitted_refl. }
  unfold bind, ret.
  destruct (for_each (andEntry m) (Object_keys m) st) as [[stmts st1]|e] eqn:Hrun;
    [|discriminate].
  intros Heq. injection Heq as <- <-. simpl.
  rewrite placeholders_sql_join, flat_map_placeholders_kept.
  revert Hrun. apply for_each_emitted. intros x. apply andEntry_emitted.
Qed.

Lemma placeholders_addSelectOptionsToQuery (q : Sql) (options : option SelectOptions) :
  placeholders (addSelectOptionsToQuery q options) = placeholders q.
Proof.
  unfold addSelectOptionsToQuery.
  repeat match goal with
         | |- context [match ?x with _ => _ end] => destruct x
         end;
    repeat (rewrite placeholders_app; simpl; rewrite ?app_nil_r); reflexivity.
Qed.

Lemma placeholders_blockRangeStatement (blockRange : list JsVal) :
  placeholders (blockRangeStatement blockRange) = [].
Proof. destruct blockRange as [|lo [|hi rest]]; reflexivity. Qed.

Lemma placeholders_blockRangeGroup (blockRange : list JsVal) :
  flat_map placeholders (blockRangeGroup blockRange) = [].
Proof.
  unfold blockRangeGroup. destruct (_ =? _)%nat; simpl; [reflexivity|].
  now rewrite placeholders_blockRangeStatement.
Qed.

End Accounting.

Section SelectPlaceholders.

Context `{PgFormat} `{Humps} `{Constants}.

Lemma placeholders_orGroup (orStatements : list Sql) :
  flat_map placeholders (orGroup orStatements) = flat_map placeholders orStatements.
Proof.
  destruct orStatements as [|s [|s' rest]]; try reflexivity.
  unfold orGroup. cbn [flat_map].
  now rewrite app_nil_r, placeholders_sql_join, flat_map_parens.
Qed.

Lemma placeholders_whereClause (whereGroups : list Sql) :
  placeholders (whereClause whereGroups) = flat_map placeholders whereGroups.
Proof.
  destruct whereGroups as [|g [|g' rest]]; try reflexivity.
  - simpl. now rewrite app_nil_r.
  - unfold whereClause. now rewrite placeholders_sql_join, flat_map_parens.
Qed.

Lemma buildSelectQuery_placeholders (table : string) (filters : Filters)
  (options : option SelectOptions) (p : QueryPayload) :
  buildSelectQuery table filters options = Ok p ->
  map fst (placeholders (sql p)) = seq 1 (List.length (bindings p))
  /\ map snd (placeholders (sql p)) = bindings p.
Proof.
  unfold buildSelectQuery. cbv zeta.
  match goal with
  | |- context [detectSpecSchemaQuery ?a ?b ?c] =>
      destruct (detectSpecSchemaQuery a b c) as [[table' filters']|e]
  end; [|discriminate].
  match goal with |- (if ?c then _ else _) = _ -> _ => destruct c end.
  { intros Heq. injection Heq as <-. simpl.
    rewrite placeholders_addSelectOptionsToQuery. simpl. auto. }
  match goal with
  | |- context [for_each ?f ?l ?s] =>
      destruct (for_each f l s) as [[andStatements st]|e] eqn:Hrun
  end; [|discriminate].
  match goal with |- (if ?c then _ else _) = _ -> _ => destruct c end.
  { intros Heq. injection Heq as <-. simpl.
    rewrite placeholders_addSelectOptionsToQuery. simpl. auto. }
  intros Heq. injection Heq as <-. simpl.
  apply emitted_from_start.
  rewrite placeholders_addSelectOptionsToQuery. simpl.
  rewrite placeholders_whereClause, flat_map_app, placeholders_orGroup,
    placeholders_nonempty_text, flat_map_placeholders_kept.
  rewrite placeholders_blockRangeGroup.
  simpl. revert Hrun. apply for_each_emitted.
  intros x. apply buildAndStatement_emitted.
Qed.

End SelectPlaceholders.

(** ** The insert columns: sorted keys of the first row *)

Lemma sort_insert_perm (k : string) (l : list string) :
  Permutation (k :: l) (sort_insert k l).
Proof.
  induction l as [|x l IH]; simpl; [reflexivity|].
  destruct (String.leb k x); [reflexivity|].
  rewrite perm_swap. now apply perm_skip.
Qed.

Lemma sort_perm (l : list string) : Permutation l (sort l).
Proof.
  induction l as [|k l IH]; simpl; [constructor|].
  rewrite <- sort_insert_perm. now apply perm_skip.
Qed.

Lemma sort_length (l : list string) : List.length (sort l) = List.length l.
Proof. symmetry. apply Permutation_length, sort_perm. Qed.




(** ** The row loop of the upsert *)

Lemma emit_columns (row : StringKeyMap) (cols : list string) (st : Bindings) :
  for_each (fun colName => emit (obj_get row colName)) cols st
  = Ok (map (fun nv => Param (fst nv) (snd nv))
          (combine (seq (bindingIndex st) (List.length cols)) (rowBindings cols row)),
        {| values := values st ++ rowBindings cols row;
           bindingIndex := bindingIndex st + List.length cols |}).
Proof.
  revert st. induction cols as [|c cols IH]; intros st; simpl.
  - unfold ret. rewrite app_nil_r, Nat.add_0_r. now destruct st.
  - unfold bind at 1. unfold emit at 1. unfold bind at 1.
    rewrite IH. unfold ret. simpl.
    rewrite <- app_assoc. simpl.
    now rewrite Nat.add_succ_r.
Qed.

Section UpsertRows.

Context `{PgFormat} `{Humps} `{Constants}.

Lemma entryPlaceholders_run (cols : list string) (row : StringKeyMap) (st : Bindings) :
  entryPlaceholders cols row st
  = Ok (rowPlaceholders cols (bindingIndex st) row,
        {| values := values st ++ rowBindings cols row;
           bindingIndex := bindingIndex st + List.length cols |}).
Proof.
  unfold entryPlaceholders, bind. rewrite emit_columns. unfold ret.
  unfold rowPlaceholders. now rewrite map_map.
Qed.

Lemma rows_run (cols : list string) (rows : list StringKeyMap) (st : Bindings) :
  for_each (entryPlaceholders cols) rows st
  = Ok (rowsFrom cols (bindingIndex st) rows,
        {| values := values st ++ flat_map (rowBindings cols) rows;
           bindingIndex := bindingIndex st + List.length rows * List.length cols |}).
Proof.
  revert st. induction rows as [|row rows IH]; intros st; simpl.
  - unfold ret. rewrite app_nil_r, Nat.add_0_r. now destruct st.
  - unfold bind at 1. rewrite entryPlaceholders_run. unfold bind at 1.
    rewrite IH. unfold ret. simpl.
    rewrite <- app_assoc. do 3 f_equal. lia.
Qed.

End UpsertRows.

(** ** The upsert statement as a whole *)

Section UpsertStatement.

Context `{PgFormat} `{Humps} `{Constants}.

(** With a first row that has a key, the upsert returns, and this is what it
    returns. *)
Lemma upsertStatement_run (guardOp table : string) (data : UpsertData)
  (conflictColumns updateColumns : list string)
  (primaryTimestampColumn : option string) (returning : option Returning)
  (first : StringKeyMap) (rest : list StringKeyMap) :
  rowsOf data = first :: rest ->
  Object_keys first <> [] ->
  let cols := sort (Object_keys first) in
  upsertStatement guardOp table data conflictColumns updateColumns
    primaryTimestampColumn returning
  = Ok (insertClause table cols
          ++ Txt " values " :: sql_join ", " (rowsFrom cols 1 (first :: rest))
          ++ conflictClause conflictColumns
          ++ afterConflict guardOp table updateColumns primaryTimestampColumn returning,
        flat_map (rowBindings cols) (first :: rest)).
Proof.
  intros Hrows Hkeys cols. unfold upsertStatement. cbv zeta. rewrite Hrows.
  fold cols.
  assert (Hlen : (List.length cols =? 0)%nat = false).
  { apply Nat.eqb_neq. unfold cols. rewrite sort_length.
    destruct (Object_keys first); [congruence|discriminate]. }
  rewrite Hlen, rows_run. cbn [values bindingIndex app].
  unfold afterConflict.
  destruct (List.length updateColumns =? 0)%nat;
    repeat (rewrite <- app_assoc || rewrite <- app_comm_cons); reflexivity.
Qed.

(** The upsert fails only on an empty [data] array or on a first row without
    keys. *)
Lemma upsertStatement_ok_inv (guardOp table : string) (data : UpsertData)
  (conflictColumns updateColumns : list string)
  (primaryTimestampColumn : option string) (returning : option Returning) r :
  upsertStatement guardOp table data conflictColumns updateColumns
    primaryTimestampColumn returning = Ok r ->
  exists first rest, rowsOf data = first :: rest /\ Object_keys first <> [].
Proof.
  unfold upsertStatement. cbv zeta.
  destruct (rowsOf data) as [|first rest]; [discriminate|].
  destruct (Object_keys first) as [|k ks] eqn:Hkeys; [discriminate|].
  intros _. exists first, rest. split; [reflexivity|]. rewrite Hkeys. discriminate.
Qed.

Lemma placeholders_rowPlaceholders (cols : list string) (start : nat)
  (row : StringKeyMap) :
  placeholders (rowPlaceholders cols start row)
  = combine (seq start (List.length cols)) (rowBindings cols row).
Proof.
  unfold rowPlaceholders.
  rewrite placeholders_parens, placeholders_sql_join.
  induction (combine _ _) as [|[n v] l IH]; simpl; [reflexivity|now rewrite IH].
Qed.

Lemma placeholders_afterConflict (guardOp table : string)
  (updateColumns : list string) (primaryTimestampColumn : option string)
  (returning : option Returning) :
  placeholders
    (afterConflict guardOp table updateColumns primaryTimestampColumn returning) = [].
Proof.
  unfold afterConflict, updateClause, guardClause, returningClause.
  repeat match goal with
         | |- context [match ?x with _ => _ end] => destruct x
         end; reflexivity.
Qed.

Lemma upsertStatement_placeholders (guardOp table : string) (data : UpsertData)
  (conflictColumns updateColumns : list string)
  (primaryTimestampColumn : option string) (returning : option Returning)
  (q : Sql) (bs : list JsVal) :
  upsertStatement guardOp table data conflictColumns updateColumns
    primaryTimestampColumn returning = Ok (q, bs) ->
  map fst (placeholders q) = seq 1 (List.length bs)
  /\ map snd (placeholders q) = bs.
Proof.
  intros Hrun.
  destruct (upsertStatement_ok_inv _ _ _ _ _ _ _ _ Hrun)
    as (first & rest & Hrows & Hkeys).
  rewrite (upsertStatement_run _ _ _ _ _ _ _ first rest Hrows Hkeys) in Hrun.
  apply Ok_pair_inj in Hrun as [<- <-].
  set (cols := sort (Object_keys first)).
  apply (emitted_from_start
           {| values := flat_map (rowBindings cols) (first :: rest);
              bindingIndex := 1 + List.length (first :: rest) * List.length cols |}).
  unfold insertClause, conflictClause. cbn [app].
  rewrite !placeholders_Txt, !placeholders_app, !placeholders_Txt.
  rewrite placeholders_afterConflict, !app_nil_r, placeholders_sql_join.
  pose proof (rows_run cols (first :: rest) {| values := []; bindingIndex := 1 |})
    as Hrows_run.
  cbn [values bindingIndex app] in Hrows_run.
  revert Hrows_run. apply for_each_emitted.
  intros row st b st'. rewrite entryPlaceholders_run.
  intros Heq. injection Heq as <- <-.
  rewrite placeholders_rowPlaceholders.
  exists (rowBindings cols row). cbn [values bindingIndex].
  unfold rowBindings. rewrite length_map. auto.
Qed.

End UpsertStatement.

(** ** Row-major layout of the upsert *)





Section UpsertClaims.

Context `{PgFormat} `{Humps} `{Constants}.

Lemma buildUpsertQuery_inv (table : string) (data : UpsertData)
  (conflictColumns updateColumns : list string)
  (primaryTimestampColumn : option string) (returning : option Returning)
  (p : QueryPayload) :
  buildUpsertQuery table data conflictColumns updateColumns
    primaryTimestampColumn returning = Ok p ->
  exists first rest,
    rowsOf data = first :: rest /\ Object_keys first <> []
    /\ sql p = insertClause table (sort (Object_keys first))
               ++ Txt " values "
                  :: sql_join ", " (rowsFrom (sort (Object_keys first)) 1 (first :: rest))
               ++ conflictClause conflictColumns
               ++ afterConflict "<=" table updateColumns primaryTimestampColumn returning
    /\ bindings p = flat_map (rowBindings (sort (Object_keys first))) (first :: rest).
Proof.
  unfold buildUpsertQuery. intros Hrun.
  destruct (upsertStatement _ _ _ _ _ _ _) as [[q bs]|e] eqn:Hstmt; [|discriminate].
  destruct (upsertStatement_ok_inv _ _ _ _ _ _ _ _ Hstmt)
    as (first & rest & Hrows & Hkeys).
  rewrite (upsertStatement_run _ _ _ _ _ _ _ first rest Hrows Hkeys) in Hstmt.
  apply Ok_pair_inj in Hstmt as [<- <-].
  exists first, rest. injection Hrun as <-. auto.
Qed.

Lemma buildUpsertQuery_superseded_inv (table : string) (data : UpsertData)
  (conflictColumns updateColumns : list string)
  (primaryTimestampColumn : option string) (returning : option Returning)
  (p : QueryPayload) :
  buildUpsertQuery_superseded table data conflictColumns updateColumns
    primaryTimestampColumn returning = Ok p ->
  exists first rest,
    rowsOf data = first :: rest /\ Object_keys first <> []
    /\ sql p = insertClause table (sort (Object_keys first))
               ++ Txt " values "
                  :: sql_join ", " (rowsFrom (sort (Object_keys first)) 1 (first :: rest))
               ++ conflictClause conflictColumns
               ++ afterConflict ">=" table updateColumns primaryTimestampColumn returning
    /\ bindings p = flat_map (rowBindings (sort (Object_keys first))) (first :: rest).
Proof.
  unfold buildUpsertQuery_superseded. intros Hrun.
  destruct (upsertStatement _ _ _ _ _ _ _) as [[q bs]|e] eqn:Hstmt; [|discriminate].
  destruct (upsertStatement_ok_inv _ _ _ _ _ _ _ _ Hstmt)
    as (first & rest & Hrows & Hkeys).
  rewrite (upsertStatement_run _ _ _ _ _ _ _ first rest Hrows Hkeys) in Hstmt.
  apply Ok_pair_inj in Hstmt as [<- <-].
  exists first, rest. injection Hrun as <-. auto.
Qed.

End UpsertClaims.



(** C6: an upsert with update columns and a primary timestamp column (a
    non-empty name) prints, right after its [do update set] clause, a [where]
    guard that compares the column qualified by the table with
    [excluded.<column>]; only a [returning] clause may follow. The exported
    function compares with [<=], the superseded duplicate with [>=]. *)
Theorem upsert_timestamp_guard `{PgFormat} `{Humps}
  (table : string) (data : UpsertData)
  (conflictColumns updateColumns : list string) (column : string)
  (returning : option Returning) :
  updateColumns <> [] ->
  column <> EmptyString ->
  (forall p,
      buildUpsertQuery table data conflictColumns updateColumns
        (Some column) returning = Ok p ->
      exists before,
        sql p = before
                ++ [Txt (" do update set "
                         ++ join ", " (map updateAssignment
                                         (map toSnakeCase updateColumns)))%string;
                    Txt (" where " ++ identPath (table ++ "." ++ column)
                         ++ " <= excluded." ++ ident column)%string]
                ++ returningClause returning)
  /\ (forall p,
        buildUpsertQuery_superseded table data conflictColumns updateColumns
          (Some column) returning = Ok p ->
        exists before,
          sql p = before
                  ++ [Txt (" do update set "
                           ++ join ", " (map updateAssignment
                                           (map toSnakeCase updateColumns)))%string;
                      Txt (" where " ++ identPath (table ++ "." ++ column)
                           ++ " >= excluded." ++ ident column)%string]
                  ++ returningClause returning).
Proof.
  intros Hupd Hcol.
  assert (Hlen : (List.length updateColumns =? 0)%nat = false)
    by (destruct updateColumns; [congruence|reflexivity]).
  assert (Htruthy : str_truthy column = true)
    by (destruct column; [congruence|reflexivity]).
  split; intros p Hrun.
  - destruct (buildUpsertQuery_inv _ _ _ _ _ _ _ Hrun)
      as (first & rest & _ & _ & Hsql & _).
    exists (insertClause table (sort (Object_keys first))
            ++ Txt " values "
               :: sql_join ", " (rowsFrom (sort (Object_keys first)) 1 (first :: rest))
            ++ conflictClause conflictColumns).
    rewrite Hsql. unfold afterConflict, guardClause, updateClause.
    rewrite Hlen, Htruthy. cbn [join String.concat].
    repeat (rewrite <- app_assoc || rewrite <- app_comm_cons). reflexivity.
  - destruct (buildUpsertQuery_superseded_inv _ _ _ _ _ _ _ Hrun)
      as (first & rest & _ & _ & Hsql & _).
    exists (insertClause table (sort (Object_keys first))
            ++ Txt " values "
               :: sql_join ", " (rowsFrom (sort (Object_keys first)) 1 (first :: rest))
            ++ conflictClause conflictColumns).
    rewrite Hsql. unfold afterConflict, guardClause, updateClause.
    rewrite Hlen, Htruthy. cbn [join String.concat].
    repeat (rewrite <- app_assoc || rewrite <- app_comm_cons). reflexivity.
Qed.

Lemma upsert_timestamp_guard_witness :
  exists p,
    @buildUpsertQuery spec_pgFormat spec_humps "public.users"
      (Row [("id", VNum 1); ("fullName", VStr "A")])
      ["id"] ["fullName"] (Some "updatedAt") None = Ok p
    /\ exists before,
         sql p = before
                 ++ [Txt (" do update set "
                          ++ join ", " (map (@updateAssignment spec_pgFormat)
                                          (map (@toSnakeCase spec_humps) ["fullName"])))%string;
                     Txt (" where " ++ @identPath spec_pgFormat ("public.users" ++ "." ++ "updatedAt")
                          ++ " <= excluded." ++ quote_ident "updatedAt")%string]
                 ++ @returningClause spec_pgFormat spec_humps None.
Proof.
  destruct (@upsert_timestamp_guard spec_pgFormat spec_humps "public.users"
              (Row [("id", VNum 1); ("fullName", VStr "A")])
              ["id"] ["fullName"] "updatedAt" None
              ltac:(discriminate) ltac:(discriminate)) as [Hcurrent _].
  eexists. split; [vm_compute; reflexivity|].
  apply Hcurrent. vm_compute. reflexivity.
Defined.

(** ** Rows after the first *)






(** ** The operator of a filter entry *)

Lemma emit_items (items : list JsVal) (st : Bindings) :
  for_each emit items st
  = Ok (map (fun nv => Param (fst nv) (snd nv))
          (combine (seq (bindingIndex st) (List.length items)) items),
        {| values := values st ++ items;
           bindingIndex := bindingIndex st + List.length items |}).
Proof.
  revert st. induction items as [|v items IH]; intros st; simpl.
  - unfold ret. rewrite app_nil_r, Nat.add_0_r. now destruct st.
  - unfold bind at 1. unfold emit at 1. unfold bind at 1.
    rewrite IH. unfold ret. simpl.
    rewrite <- app_assoc. simpl.
    now rewrite Nat.add_succ_r.
Qed.

Lemma filterOp_of_Some (op : JsVal) (opText : string) :
  filterOp_of op = Some opText ->
  op = VStr opText /\ In opText FilterOp_values.
Proof.
  destruct op as [| | b | n | s | items | props]; cbn [filterOp_of];
    try discriminate.
  unfold filterOpValues.
  destruct (string_in s FilterOp_values) eqn:Hin; [|discriminate].
  intros Heq. injection Heq as <-. split; [reflexivity|].
  unfold string_in in Hin. apply existsb_exists in Hin as (x & Hx & Heq).
  apply String.eqb_eq in Heq. now subst.
Qed.

Lemma valuePlaceholder_shape (value : JsVal) st rhs st' :
  valuePlaceholder value st = Ok (rhs, st') ->
  match value with
  | VArr items =>
      rhs = parens
              (sql_join ", "
                 (map (fun nv => [Param (fst nv) (snd nv)])
                    (combine (seq (bindingIndex st) (List.length items)) items)))
  | _ => rhs = [Param (bindingIndex st) value]
  end.
Proof.
  unfold valuePlaceholder, bind, ret.
  destruct value as [| | b | n | s | items | props];
    try (unfold emit; intros Heq; injection Heq as <- _; reflexivity).
  rewrite emit_items. intros Heq. injection Heq as <- _.
  now rewrite map_map.
Qed.

(** The shape of the statement of a kept entry. *)
Lemma andEntry_kept `{PgFormat} (filtersMap : StringKeyMap)
  (colPath : string) (st : Bindings) (stmt : Sql) (st' : Bindings) :
  andEntry filtersMap colPath st = Ok (Some stmt, st') ->
  exists op rhs,
    spec_operator colPath (obj_get filtersMap colPath) = Some op
    /\ In op FilterOp_values
    /\ stmt = Txt (if includes "," colPath
                   then ("(" ++ join ", " (map identPath (split "," colPath))
                         ++ ")")%string
                   else identPath colPath)
              :: Txt " " :: Txt op :: Txt " " :: rhs
    /\ valuePlaceholder
         (match obj_get filtersMap colPath with
          | VObj props => obj_get props "value"
          | value => value
          end) st = Ok (rhs, st').
Proof.
  unfold andEntry, bind, lift, colEntry, operatorAndValue,
    FilterOp_EqualTo, FilterOp_In, spec_operator.
  destruct (obj_get filtersMap colPath) as [| | b | n | s | items | props] eqn:Hv;
    cbn [Array_isArray typeof_object negb andb filterObjectShape skipEntry ret];
    try discriminate.
  - (* boolean *)
    change (filterOp_of (VStr "=")) with (Some "="). cbv beta iota.
    destruct (valuePlaceholder (VBool b) st) as [[rhs st1]|e] eqn:Hrun; [|discriminate].
    intros Heq. injection Heq as <- <-.
    exists "=", rhs. repeat split; simpl; auto.
  - (* number *)
    change (filterOp_of (VStr "=")) with (Some "="). cbv beta iota.
    destruct (valuePlaceholder (VNum n) st) as [[rhs st1]|e] eqn:Hrun; [|discriminate].
    intros Heq. injection Heq as <- <-.
    exists "=", rhs. repeat split; simpl; auto.
  - (* string *)
    change (filterOp_of (VStr "=")) with (Some "="). cbv beta iota.
    destruct (valuePlaceholder (VStr s) st) as [[rhs st1]|e] eqn:Hrun; [|discriminate].
    intros Heq. injection Heq as <- <-.
    exists "=", rhs. repeat split; simpl; auto.
  - (* list *)
    destruct (_ || _); [discriminate|].
    destruct (includes "," colPath); cbn [negb andb].
    + change (filterOp_of (VStr "=")) with (Some "="). cbv beta iota.
      destruct (valuePlaceholder (VArr items) st) as [[rhs st1]|e] eqn:Hrun;
        [|discriminate].
      intros Heq. injection Heq as <- <-.
      exists "=", rhs. repeat split; simpl; auto.
    + change (filterOp_of (VStr "in")) with (Some "in"). cbv beta iota.
      destruct (valuePlaceholder (VArr items) st) as [[rhs st1]|e] eqn:Hrun;
        [|discriminate].
      intros Heq. injection Heq as <- <-.
      exists "in", rhs. repeat split; simpl; auto 10.
  - (* object *)
    destruct (truthy (obj_get props "op")) eqn:Hop.
    2:{ cbn [negb orb andb]. rewrite orb_true_r. discriminate. }
    destruct (hasOwnProperty props "hasOwnProperty"); [discriminate|].
    destruct (hasOwnProperty props "value").
    2:{ cbn [negb orb andb]. rewrite orb_true_r. discriminate. }
    cbn [negb]. rewrite orb_false_r.
    destruct (List.length (Object_keys props) =? 0)%nat; [discriminate|].
    destruct (filterOp_of (obj_get props "op")) as [opText|] eqn:Hfop;
      [|discriminate].
    apply filterOp_of_Some in Hfop as [Hdecl Hin].
    destruct (valuePlaceholder (obj_get props "value") st) as [[rhs st1]|e] eqn:Hrun;
      [|discriminate].
    intros Heq. injection Heq as <- <-.
    exists opText, rhs. repeat split; auto.
    rewrite Hdecl.
    replace (string_in opText FilterOp_values) with true; [reflexivity|].
    symmetry. apply existsb_exists. exists opText. split; [assumption|].
    apply String.eqb_refl.
Qed.

(** What [valuePlaceholder] prints and pushes. *)
Lemma valuePlaceholder_run (value : JsVal) (st : Bindings) :
  valuePlaceholder value st
  = Ok (spec_rhs (bindingIndex st) value,
        {| values := values st ++ spec_bound value;
           bindingIndex := bindingIndex st + List.length (spec_bound value) |}).
Proof.
  unfold valuePlaceholder, bind, ret.
  destruct value as [| | b | n | s | items | props];
    try (unfold emit; cbn [spec_rhs spec_bound List.length];
         now rewrite Nat.add_1_r).
  rewrite emit_items. cbn [spec_rhs spec_bound]. now rewrite map_map.
Qed.

(** C2: one turn of the loop of [buildAndStatement] does to an entry what
    the spec says ([spec_entry], written from its words), on every value on
    which it does not throw. An entry the spec skips gives no statement and
    leaves the accumulator alone; so does an explicit filter whose operator
    is not enumerated. Every other entry is retained as
    [<colref> <op> <rhs>]: the operator is the declared one of an explicit
    filter, [in] for a list on a path without a comma, [=] for everything
    else, a list on a comma-separated path included; the column reference of
    a comma-separated path is the parenthesised tuple of its quoted columns;
    the right-hand side is one placeholder bound to the compared value, or
    for a list one parenthesised group of placeholders bound to its elements
    in order, numbered from the counter. The loop throws on [null] and on an
    object with a truthy [op] and a property [hasOwnProperty] of its own. *)
Theorem filter_entry_operator `{PgFormat} (filtersMap : StringKeyMap)
  (colPath : string) (st : Bindings) :
  andEntry filtersMap colPath st
  = if entryThrows (obj_get filtersMap colPath) then Raise TypeError
    else
      match spec_entry colPath (obj_get filtersMap colPath) (bindingIndex st) with
      | None => Ok (None, st)
      | Some (stmt, bound) =>
          Ok (Some stmt,
              {| values := values st ++ bound;
                 bindingIndex := bindingIndex st + List.length bound |})
      end.
Proof.
  unfold andEntry, bind, lift, operatorAndValue, spec_entry, spec_colref,
    colEntry, FilterOp_EqualTo, FilterOp_In.
  destruct (obj_get filtersMap colPath) as [| | b | n | s | items | props];
    cbn [Array_isArray typeof_object negb andb filterObjectShape skipEntry
         entryThrows spec_skipped spec_operator spec_compared ret];
    try reflexivity.
  - (* boolean *)
    change (filterOp_of (VStr "=")) with (Some "="). cbv beta iota.
    now rewrite valuePlaceholder_run.
  - (* number *)
    change (filterOp_of (VStr "=")) with (Some "="). cbv beta iota.
    now rewrite valuePlaceholder_run.
  - (* string *)
    change (filterOp_of (VStr "=")) with (Some "="). cbv beta iota.
    now rewrite valuePlaceholder_run.
  - (* list *)
    destruct (_ || _); [reflexivity|].
    destruct (includes "," colPath); cbn [negb andb].
    + change (filterOp_of (VStr "=")) with (Some "="). cbv beta iota.
      now rewrite valuePlaceholder_run.
    + change (filterOp_of (VStr "in")) with (Some "in"). cbv beta iota.
      now rewrite valuePlaceholder_run.
  - (* object *)
    unfold spec_explicit.
    destruct (List.length (Object_keys props) =? 0)%nat eqn:Hkeys.
    { destruct props; [|discriminate]. reflexivity. }
    cbn [orb].
    destruct (truthy (obj_get props "op")) eqn:Hop; cbn [andb].
    2:{ destruct (obj_get props "op") as [| | | | op | |]; try reflexivity.
        assert (Hout : string_in op FilterOp_values = false).
        { destruct op; [reflexivity|discriminate Hop]. }
        now rewrite Hout. }
    destruct (hasOwnProperty props "hasOwnProperty"); [reflexivity|].
    destruct (hasOwnProperty props "value"); cbn [negb orb andb].
    2:{ now rewrite andb_false_r. }
    rewrite andb_true_r.
    unfold filterOp_of, filterOpValues.
    destruct (obj_get props "op") as [| | | | op | |]; try reflexivity.
    destruct (string_in op FilterOp_values); [|reflexivity].
    cbn [negb]. now rewrite valuePlaceholder_run.
Qed.

Lemma filter_entry_operator_witness :
  (* an explicit filter keeps its declared operator and binds its value *)
  @andEntry spec_pgFormat
    [("age", VObj [("op", VStr ">="); ("value", VNum 18)])]
    "age" {| values := [VStr "x"]; bindingIndex := 2 |}
  = Ok (Some [ Txt (quote_ident "age"); Txt " "; Txt ">="; Txt " ";
               Param 2 (VNum 18) ],
        {| values := [VStr "x"; VNum 18]; bindingIndex := 3 |})
  (* a list on a comma-separated path is compared with [=] *)
  /\ @andEntry spec_pgFormat [("a,b", VArr [VNum 1; VNum 2])]
       "a,b" {| values := []; bindingIndex := 1 |}
     = Ok (Some [ Txt ("(" ++ quote_ident "a" ++ ", " ++ quote_ident "b" ++ ")");
                  Txt " "; Txt "="; Txt " ";
                  Txt "("; Param 1 (VNum 1); Txt ", "; Param 2 (VNum 2);
                  Txt ")" ],
           {| values := [VNum 1; VNum 2]; bindingIndex := 3 |})
  (* an operator that is not enumerated drops the entry *)
  /\ @andEntry spec_pgFormat
       [("c", VObj [("op", VStr "~"); ("value", VNum 1)])]
       "c" {| values := []; bindingIndex := 1 |}
     = Ok (None, {| values := []; bindingIndex := 1 |}).
Proof.
  split; [|split].
  - exact (@filter_entry_operator spec_pgFormat
             [("age", VObj [("op", VStr ">="); ("value", VNum 18)])]
             "age" {| values := [VStr "x"]; bindingIndex := 2 |}).
  - exact (@filter_entry_operator spec_pgFormat
             [("a,b", VArr [VNum 1; VNum 2])]
             "a,b" {| values := []; bindingIndex := 1 |}).
  - exact (@filter_entry_operator spec_pgFormat
             [("c", VObj [("op", VStr "~"); ("value", VNum 1)])]
             "c" {| values := []; bindingIndex := 1 |}).
Defined.

(** ** Objects *)

Lemma dict_lookup_set {V} (o : Dict V) (k k' : string) (v : V) :
  dict_lookup (dict_set o k v) k'
  = if String.eqb k k' then Some v else dict_lookup o k'.
Proof.
  induction o as [|[k0 v0] o IH]; simpl.
  - reflexivity.
  - destruct (String.eqb k0 k) eqn:Hk0; simpl.
    + apply String.eqb_eq in Hk0. subst k0.
      now destruct (String.eqb k k').
    + rewrite IH. destruct (String.eqb k k') eqn:Hkk'; [|reflexivity].
      apply String.eqb_eq in Hkk'. subst k'. now rewrite Hk0.
Qed.

Lemma dict_lookup_in_keys {V} (o : Dict V) (k : string) :
  In k (Object_keys o) <-> dict_lookup o k <> None.
Proof.
  induction o as [|[k0 v0] o IH]; simpl.
  - split; [intros []|congruence].
  - destruct (String.eqb k0 k) eqn:Hk.
    + apply String.eqb_eq in Hk. split; [discriminate|auto].
    + apply String.eqb_neq in Hk. rewrite <- IH. split; [intros [|]|]; tauto.
Qed.

Lemma dict_set_fresh {V} (o : Dict V) (k : string) (v : V) :
  ~ In k (Object_keys o) -> dict_set o k v = o ++ [(k, v)].
Proof.
  induction o as [|[k0 v0] o IH]; simpl; intros Hfresh; [reflexivity|].
  destruct (String.eqb k0 k) eqn:Hk.
  - apply String.eqb_eq in Hk. tauto.
  - rewrite IH; tauto.
Qed.

(** An assignment under another key than [__proto__] creates or updates the
    property. *)
Lemma assign_ordinary (o : StringKeyMap) (k : string) (v : JsVal) :
  k <> "__proto__" -> assign o k v = dict_set o k v.
Proof.
  intros Hk. apply String.eqb_neq in Hk. unfold assign. now rewrite Hk.
Qed.


Lemma dict_lookup_assign (o : StringKeyMap) (k k' : string) (v : JsVal) :
  k' <> "__proto__" ->
  dict_lookup (assign o k v) k'
  = if String.eqb k k' then Some v else dict_lookup o k'.
Proof.
  intros Hk'. unfold assign.
  destruct (String.eqb k "__proto__" && negb (typeof_object v)) eqn:Hskip.
  - apply andb_true_iff in Hskip as [Hk _]. apply String.eqb_eq in Hk. subst k.
    apply not_eq_sym in Hk'. apply String.eqb_neq in Hk'. now rewrite Hk'.
  - apply dict_lookup_set.
Qed.

Section Router.

Context `{Constants}.

(** What the copy loop has built after visiting [keys], from [acc]. *)
Lemma withoutChainId_fold_lookup (filter : StringKeyMap) (keys : list string) :
  forall (acc : StringKeyMap) (k : string),
    k <> "__proto__" ->
    dict_lookup
      (fold_left
         (fun newFilter key =>
            if String.eqb key CHAIN_ID_PROPERTY then newFilter
            else assign newFilter key (obj_get filter key))
         keys acc) k
    = if String.eqb k CHAIN_ID_PROPERTY then dict_lookup acc k
      else if existsb (String.eqb k) keys then Some (obj_get filter k)
           else dict_lookup acc k.
Proof.
  induction keys as [|key keys IH]; intros acc k Hk; simpl.
  - now destruct (String.eqb k CHAIN_ID_PROPERTY).
  - rewrite IH by assumption.
    destruct (String.eqb k CHAIN_ID_PROPERTY) eqn:Hchain.
    + destruct (String.eqb key CHAIN_ID_PROPERTY) eqn:Hkey; [reflexivity|].
      rewrite dict_lookup_assign by assumption.
      destruct (String.eqb key k) eqn:Hkk; [|reflexivity].
      apply String.eqb_eq in Hkk. congruence.
    + destruct (existsb (String.eqb k) keys) eqn:Hin.
      * now rewrite orb_true_r.
      * rewrite orb_false_r.
        destruct (String.eqb key CHAIN_ID_PROPERTY) eqn:Hkey.
        -- destruct (String.eqb k key) eqn:Hkk; [|reflexivity].
           apply String.eqb_eq in Hkk. congruence.
        -- rewrite dict_lookup_assign, (String.eqb_sym key k) by assumption.
           destruct (String.eqb k key) eqn:Hkk; [|reflexivity].
           apply String.eqb_eq in Hkk. now subst.
Qed.

(** The copy of a group has every property of the group but the chain id
    and [__proto__], with the same value. *)
Lemma withoutChainId_lookup (filter : StringKeyMap) (k : string) :
  k <> "__proto__" ->
  dict_lookup (withoutChainId filter) k
  = if String.eqb k CHAIN_ID_PROPERTY then None else dict_lookup filter k.
Proof.
  intros Hordinary.
  unfold withoutChainId. rewrite withoutChainId_fold_lookup by assumption. simpl.
  destruct (String.eqb k CHAIN_ID_PROPERTY); [reflexivity|].
  destruct (existsb (String.eqb k) (Object_keys filter)) eqn:Hin.
  - apply existsb_exists in Hin as (x & Hx & Heq).
    apply String.eqb_eq in Heq. subst x.
    apply dict_lookup_in_keys in Hx. unfold obj_get.
    now destruct (dict_lookup filter k).
  - destruct (dict_lookup filter k) eqn:Hk; [|reflexivity].
    assert (Hx : In k (Object_keys filter))
      by (apply dict_lookup_in_keys; congruence).
    assert (Hex : existsb (String.eqb k) (Object_keys filter) = true).
    { apply existsb_exists. exists k. split; [assumption|apply String.eqb_refl]. }
    congruence.
Qed.



(** On an object (distinct keys) without the key [__proto__] the copy is
    the object without its chain-id entry, the others in their order. *)
Lemma withoutChainId_fold_entries (filter : StringKeyMap) (entries : StringKeyMap) :
  NoDup (Object_keys entries) ->
  ~ In "__proto__" (Object_keys entries) ->
  (forall k v, In (k, v) entries -> obj_get filter k = v) ->
  forall acc : StringKeyMap,
    (forall k, In k (Object_keys entries) -> ~ In k (Object_keys acc)) ->
    fold_left
      (fun newFilter key =>
         if String.eqb key CHAIN_ID_PROPERTY then newFilter
         else assign newFilter key (obj_get filter key))
      (Object_keys entries) acc
    = acc ++ List.filter
               (fun kv => negb (String.eqb (fst kv) CHAIN_ID_PROPERTY)) entries.
Proof.
  induction entries as [|[k v] entries IH];
    intros Hnodup Hproto Hget acc Hfresh; simpl.
  - now rewrite app_nil_r.
  - inversion Hnodup as [|? ? Hnotin Hnodup']; subst.
    assert (Hk_ordinary : k <> "__proto__").
    { intros ->. apply Hproto. now left. }
    assert (Hproto' : ~ In "__proto__" (Object_keys entries)).
    { intros Hin. apply Hproto. now right. }
    rewrite (assign_ordinary _ k _ Hk_ordinary).
    destruct (String.eqb k CHAIN_ID_PROPERTY) eqn:Hk; simpl.
    + apply IH; auto.
      * intros k' v' Hin. apply Hget. now right.
      * intros k' Hin. apply Hfresh. now right.
    + rewrite IH; auto.
      * rewrite dict_set_fresh by (apply Hfresh; now left).
        rewrite (Hget k v) by now left.
        now rewrite <- app_assoc.
      * intros k' v' Hin. apply Hget. now right.
      * intros k' Hin. rewrite dict_set_fresh by (apply Hfresh; now left).
        unfold Object_keys. rewrite map_app, in_app_iff. simpl.
        intros [Hacc|[<-|[]]].
        -- apply (Hfresh k'); [now right|exact Hacc].
        -- exact (Hnotin Hin).
Qed.

Lemma obj_get_of_entry (filter : StringKeyMap) :
  NoDup (Object_keys filter) ->
  forall k v, In (k, v) filter -> obj_get filter k = v.
Proof.
  unfold obj_get.
  induction filter as [|[k0 v0] filter IH]; intros Hnodup k v Hin; simpl in *;
    [contradiction|].
  inversion Hnodup as [|? ? Hnotin Hnodup']; subst.
  destruct Hin as [Heq|Hin].
  - injection Heq as -> ->. now rewrite String.eqb_refl.
  - destruct (String.eqb k0 k) eqn:Hk.
    + apply String.eqb_eq in Hk. subst k0. exfalso. apply Hnotin.
      unfold Object_keys. now apply (in_map fst) in Hin.
    + now apply IH.
Qed.

Lemma withoutChainId_entries (filter : StringKeyMap) :
  NoDup (Object_keys filter) ->
  ~ In "__proto__" (Object_keys filter) ->
  withoutChainId filter
  = List.filter (fun kv => negb (String.eqb (fst kv) CHAIN_ID_PROPERTY)) filter.
Proof.
  intros Hnodup Hproto. unfold withoutChainId.
  rewrite (withoutChainId_fold_entries filter filter Hnodup Hproto);
    [reflexivity| |].
  - now apply obj_get_of_entry.
  - intros k _ [].
Qed.

End Router.

(** ** The chain schema router *)

Lemma chainTable_text (chainSchema : string) (tableName : option string) :
  chainTable chainSchema tableName
  = (chainSchema ++ "."
       ++ match tableName with Some t => t | None => EmptyString end)%string.
Proof. reflexivity. Qed.

Section RouterPaths.

Context `{Constants}.

(** The router on a logical-schema table without [options.chainId]. *)
Lemma detectSpecSchemaQuery_by_filters (table : string)
  (filters : list StringKeyMap) (options : option SelectOptions) :
  nth 0 (split "." table) EmptyString = SPEC_SCHEMA ->
  optionsChainId options = None ->
  detectSpecSchemaQuery table filters options
  = match filters with
    | [] => Raise FiltersRequired
    | first :: others =>
        if negb (truthy (obj_get first CHAIN_ID_PROPERTY))
        then Raise MissingChainIdFilter
        else
          match chainSchemaFor (js_toString (obj_get first CHAIN_ID_PROPERTY)) with
          | None => Ok (emptyResponseTable, emptyResponseFilters)
          | Some chainSchema =>
              if negb (forallb
                         (fun f => strict_eq (obj_get f CHAIN_ID_PROPERTY)
                                     (obj_get first CHAIN_ID_PROPERTY))
                         others)
              then Raise InconsistentChainIdAcrossFilterGroups
              else Ok (chainTable chainSchema (nth_error (split "." table) 1),
                       map withoutChainId filters)
          end
    end.
Proof.
  intros Hschema Hopt. unfold detectSpecSchemaQuery. cbv zeta.
  rewrite Hschema, String.eqb_refl, Hopt. reflexivity.
Qed.

(** The router on a logical-schema table with a truthy [options.chainId]. *)
Lemma detectSpecSchemaQuery_by_option (table : string)
  (filters : list StringKeyMap) (options : option SelectOptions) (c : string) :
  nth 0 (split "." table) EmptyString = SPEC_SCHEMA ->
  optionsChainId options = Some c ->
  detectSpecSchemaQuery table filters options
  = match chainSchemaFor c with
    | None => Ok (emptyResponseTable, emptyResponseFilters)
    | Some chainSchema =>
        Ok (chainTable chainSchema (nth_error (split "." table) 1), filters)
    end.
Proof.
  intros Hschema Hopt. unfold detectSpecSchemaQuery. cbv zeta.
  rewrite Hschema, String.eqb_refl, Hopt. reflexivity.
Qed.

Lemma Forall2_map_r {A B} (P : A -> B -> Prop) (f : A -> B) (l : list A) :
  (forall x, P x (f x)) -> Forall2 P l (map f l).
Proof. intros HP. induction l; simpl; constructor; auto. Qed.

End RouterPaths.

(** When the router takes the chain id from the filter groups of a
    logical-schema select (no [options.chainId]), the chain id resolves to a
    schema and the router returns, the table it returns is
    [<schema>.<tableName>] and the groups it returns are the input groups
    one for one, each without its chain-id property and with every other
    key but [__proto__] bound to the same value (on an object without that
    key, whose keys are distinct: the same entries in the same order). *)
Lemma router_strips_chain_id `{Constants} (table : string)
  (first : StringKeyMap) (others : list StringKeyMap)
  (options : option SelectOptions) (chainSchema : string)
  (table' : string) (newFilters : list StringKeyMap) :
  nth 0 (split "." table) EmptyString = SPEC_SCHEMA ->
  optionsChainId options = None ->
  chainSchemaFor (js_toString (obj_get first CHAIN_ID_PROPERTY)) = Some chainSchema ->
  detectSpecSchemaQuery table (first :: others) options = Ok (table', newFilters) ->
  table' = (chainSchema ++ "."
              ++ match nth_error (split "." table) 1 with
                 | Some tableName => tableName
                 | None => EmptyString
                 end)%string
  /\ Forall2
       (fun filter newFilter =>
          (forall k,
              k <> "__proto__" ->
              dict_lookup newFilter k
              = if String.eqb k CHAIN_ID_PROPERTY then None
                else dict_lookup filter k)
          /\ (NoDup (Object_keys filter) ->
              ~ In "__proto__" (Object_keys filter) ->
              newFilter
              = List.filter
                  (fun kv => negb (String.eqb (fst kv) CHAIN_ID_PROPERTY))
                  filter))
       (first :: others) newFilters.
Proof.
  intros Hschema Hopt Hmap.
  rewrite (detectSpecSchemaQuery_by_filters _ _ _ Hschema Hopt), Hmap.
  destruct (negb (truthy _)); [discriminate|].
  destruct (negb (forallb _ _)); [discriminate|].
  intros Heq. injection Heq as <- <-. split.
  - apply chainTable_text.
  - apply (Forall2_map_r _ withoutChainId (first :: others)).
    intros filter. split.
    + intros k. apply withoutChainId_lookup.
    + apply withoutChainId_entries.
Qed.

Example router_strips_chain_id_run :
  @detectSpecSchemaQuery spec_constants "spec.users"
    [ [("chainId", VStr "137"); ("id", VNum 3)]; [("name", VStr "a"); ("chainId", VStr "137")] ]
    None
  = Ok ("polygon.users", [ [("id", VNum 3)]; [("name", VStr "a")] ]).
Proof. reflexivity. Qed.



(** The failing input run: the group comes back without its [__proto__]
    property. *)
Example router_loses_proto_property_run :
  @detectSpecSchemaQuery spec_constants "spec.users"
    [ [("chainId", VStr "137"); ("__proto__", VNum 5); ("id", VNum 3)] ] None
  = Ok ("polygon.users", [ [("id", VNum 3)] ]).
Proof. reflexivity. Qed.

(** A router failure is the failure of the select. *)
Lemma buildSelectQuery_router_raise `{PgFormat} `{Humps} `{Constants}
  (table : string) (filters : Filters) (options : option SelectOptions)
  (e : JsError) :
  detectSpecSchemaQuery table (truthyGroups filters) options = Raise e ->
  buildSelectQuery table filters options = Raise e.
Proof. intros Hrouter. unfold buildSelectQuery. cbv zeta. now rewrite Hrouter. Qed.


(** The claim C3 as stated fails: the first group's chain id is unknown to
    the chain table, the second group carries another chain id, and the
    select compiles (to the zero-row sentinel query) instead of failing. *)
Lemma unknown_first_chain_id_masks_inconsistency :
  nth 0 (split "." "spec.users") EmptyString = @SPEC_SCHEMA spec_constants
  /\ optionsChainId None = None
  /\ truthyGroups
       (FiltersArray [Some [("chainId", VStr "999")]; Some [("chainId", VStr "1")]])
     = [ [("chainId", VStr "999")]; [("chainId", VStr "1")] ]
  /\ truthy (obj_get [("chainId", VStr "999")] (@CHAIN_ID_PROPERTY spec_constants)) = true
  /\ strict_eq (obj_get [("chainId", VStr "1")] (@CHAIN_ID_PROPERTY spec_constants))
       (obj_get [("chainId", VStr "999")] (@CHAIN_ID_PROPERTY spec_constants)) = false
  /\ (exists p,
        @buildSelectQuery spec_pgFormat spec_humps spec_constants "spec.users"
          (FiltersArray [Some [("chainId", VStr "999")]; Some [("chainId", VStr "1")]])
          None = Ok p
        /\ schemaName p = Some "ethereum" /\ tableName p = Some "blocks"
        /\ bindings p = [VNum (-1)])
  /\ @buildSelectQuery spec_pgFormat spec_humps spec_constants "spec.users"
       (FiltersArray [Some [("chainId", VStr "999")]; Some [("chainId", VStr "1")]])
       None
     <> Raise (@InconsistentChainIdAcrossFilterGroups spec_constants).
Proof.
  repeat split; try reflexivity.
  - eexists. split; [vm_compute; reflexivity|]. repeat split.
  - vm_compute. discriminate.
Qed.

(** C3 (amended): for a select against the logical schema compiled without
    [options.chainId], whose first filter group carries a chain id that the
    chain table maps to a physical schema, the compilation throws
    [InconsistentChainIdAcrossFilterGroups] as soon as another group's
    chain-id property is not strictly equal to it (a different value, or no
    value at all). *)
Theorem inconsistent_chain_ids_rejected `{PgFormat} `{Humps} `{Constants}
  (table : string) (filters : Filters) (options : option SelectOptions)
  (first : StringKeyMap) (others : list StringKeyMap) (chainSchema : string) :
  nth 0 (split "." table) EmptyString = SPEC_SCHEMA ->
  optionsChainId options = None ->
  truthyGroups filters = first :: others ->
  truthy (obj_get first CHAIN_ID_PROPERTY) = true ->
  chainSchemaFor (js_toString (obj_get first CHAIN_ID_PROPERTY)) = Some chainSchema ->
  (exists other,
      In other others
      /\ strict_eq (obj_get other CHAIN_ID_PROPERTY)
           (obj_get first CHAIN_ID_PROPERTY) = false) ->
  buildSelectQuery table filters options
  = Raise InconsistentChainIdAcrossFilterGroups.
Proof.
  intros Hschema Hopt Hgroups Htruthy Hmap (other & Hin & Hdiff).
  apply buildSelectQuery_router_raise.
  rewrite (detectSpecSchemaQuery_by_filters _ _ _ Hschema Hopt), Hgroups,
    Htruthy, Hmap.
  cbn [negb].
  destruct (forallb _ others) eqn:Hall; [|reflexivity].
  rewrite forallb_forall in Hall. specialize (Hall other Hin). congruence.
Qed.

Lemma inconsistent_chain_ids_rejected_witness :
  @buildSelectQuery spec_pgFormat spec_humps spec_constants "spec.users"
    (FiltersArray [Some [("chainId", VStr "5")]; None; Some [("chainId", VStr "1")]])
    None
  = Raise (Thrown "All filters must have equivalent chainId properties").
Proof.
  apply (@inconsistent_chain_ids_rejected spec_pgFormat spec_humps spec_constants
           "spec.users"
           (FiltersArray [Some [("chainId", VStr "5")]; None; Some [("chainId", VStr "1")]])
           None [("chainId", VStr "5")] [ [("chainId", VStr "1")] ] "goerli");
    try reflexivity.
  exists [("chainId", VStr "1")]. split; [now left|reflexivity].
Defined.

(** ** The zero-row sentinel *)

Section Sentinel.

Context `{PgFormat} `{Humps} `{Constants}.

(** The column of the sentinel filter is not renamed to [__proto__]. *)
Hypothesis number_is_ordinary : toSnakeCase "number" <> "__proto__".

Lemma sentinel_and_statement :
  for_each (fun inclusiveFilters => buildAndStatement (Some inclusiveFilters))
    (map formatFilter emptyResponseFilters) {| values := []; bindingIndex := 1 |}
  = Ok ([Some sentinelPredicate], {| values := [VNum (-1)]; bindingIndex := 2 |}).
Proof.
  unfold emptyResponseFilters, formatFilter, buildAndStatement, andEntry,
    operatorAndValue, valuePlaceholder, sentinelPredicate.
  cbn [map Object_keys fst fold_left]. rewrite assign_ordinary by assumption.
  cbn [map Object_keys fst fold_left dict_set for_each List.length Nat.eqb].
  unfold bind, ret, lift, emit.
  change (obj_get [("number", VNum (-1))] "number") with (VNum (-1)).
  unfold obj_get. cbn [dict_lookup]. rewrite String.eqb_refl.
  reflexivity.
Qed.

Lemma sentinelPredicate_has_text :
  (String.length (render sentinelPredicate) =? 0)%nat = false.
Proof.
  unfold sentinelPredicate. rewrite !render_cons, !length_append.
  apply Nat.eqb_neq. simpl. lia.
Qed.

(** Whatever the filters, a router that answers with the sentinel makes the
    select the sentinel query. *)
Lemma buildSelectQuery_sentinel (table : string) (filters : Filters)
  (options : option SelectOptions) :
  detectSpecSchemaQuery table (truthyGroups filters) options
  = Ok (emptyResponseTable, emptyResponseFilters) ->
  buildSelectQuery table filters options
  = Ok {| schemaName := Some "ethereum";
          tableName := Some "blocks";
          sql := addSelectOptionsToQuery
                   (Txt ("select * from " ++ identPath "ethereum.blocks")%string
                    :: Txt " where "
                    :: whereClause (blockRangeGroup (optionsBlockRange options)
                                    ++ [sentinelPredicate]))
                   options;
          bindings := [VNum (-1)] |}.
Proof.
  intros Hrouter. unfold buildSelectQuery. cbv zeta. rewrite Hrouter.
  change (List.length emptyResponseFilters =? 0)%nat with false.
  rewrite !andb_false_r. cbn [orb andb].
  rewrite sentinel_and_statement.
  cbn [kept List.filter]. rewrite sentinelPredicate_has_text.
  cbn [negb List.length Nat.eqb andb orGroup values app].
  reflexivity.
Qed.

End Sentinel.

(** The option path of the router, for a select against the logical schema
    with a (non-empty) [options.chainId]: when [schemaForChainId[chainId]]
    gives a schema, the router answers [<schema>.<tableName>] and the filter
    groups it was given; when it gives nothing, the router does not fail but
    answers the fixed pair [ethereum.blocks] and [[{ number: -1 }]], and the
    select compiles to the query on that table whose only filter predicate
    is [number = $1] bound to [-1]. *)
Lemma explicit_chain_id_routing `{PgFormat} `{Humps} `{Constants}
  (table : string) (options : option SelectOptions) (c : string) :
  nth 0 (split "." table) EmptyString = SPEC_SCHEMA ->
  optionsChainId options = Some c ->
  (forall physicalSchema (groups : list StringKeyMap),
      chainSchemaFor c = Some physicalSchema ->
      detectSpecSchemaQuery table groups options
      = Ok ((physicalSchema ++ "."
               ++ match nth_error (split "." table) 1 with
                  | Some tableName => tableName
                  | None => EmptyString
                  end)%string,
            groups))
  /\ (chainSchemaFor c = None ->
      (forall groups : list StringKeyMap,
          detectSpecSchemaQuery table groups options
          = Ok ("ethereum.blocks", [ [("number", VNum (-1))] ]))
      /\ (forall filters : Filters,
            toSnakeCase "number" <> "__proto__" ->
            buildSelectQuery table filters options
            = Ok {| schemaName := Some "ethereum";
                    tableName := Some "blocks";
                    sql := addSelectOptionsToQuery
                             (Txt ("select * from " ++ identPath "ethereum.blocks")%string
                              :: Txt " where "
                              :: whereClause
                                   (blockRangeGroup (optionsBlockRange options)
                                    ++ [sentinelPredicate]))
                             options;
                    bindings := [VNum (-1)] |})).
Proof.
  intros Hschema Hopt. split.
  - intros physicalSchema groups Hmap.
    now rewrite (detectSpecSchemaQuery_by_option _ _ _ _ Hschema Hopt), Hmap.
  - intros Hmap. split.
    + intros groups.
      now rewrite (detectSpecSchemaQuery_by_option _ _ _ _ Hschema Hopt), Hmap.
    + intros filters Hnumber. apply buildSelectQuery_sentinel; [exact Hnumber|].
      now rewrite (detectSpecSchemaQuery_by_option _ _ _ _ Hschema Hopt), Hmap.
Qed.

Example explicit_chain_id_routing_run :
  @detectSpecSchemaQuery spec_constants "spec.users" [ [("id", VNum 3)] ]
    (Some {| orderBy := None; offset := None; limit := None;
             chainId := Some "137"; blockRange := None |})
  = Ok ("polygon.users", [ [("id", VNum 3)] ])
  /\ @detectSpecSchemaQuery spec_constants "spec.users" [ [("id", VNum 3)] ]
       (Some {| orderBy := None; offset := None; limit := None;
                chainId := Some "999"; blockRange := None |})
     = Ok ("ethereum.blocks", [ [("number", VNum (-1))] ])
  /\ compiled
       (@buildSelectQuery spec_pgFormat spec_humps spec_constants "spec.users"
          (FiltersMap [("id", VNum 3)])
          (Some {| orderBy := None; offset := None; limit := None;
                   chainId := Some "999"; blockRange := None |}))
     = Some (("select * from " ++ quote_ident "ethereum" ++ "."
              ++ quote_ident "blocks" ++ " where " ++ quote_ident "number"
              ++ " = $1")%string,
             [VNum (-1)]).
Proof. repeat split. Qed.

Lemma dict_lookup_In {V} (o : Dict V) (k : string) (v : V) :
  dict_lookup o k = Some v -> In (k, v) o.
Proof.
  induction o as [|[k0 v0] o IH]; cbn [dict_lookup In]; [discriminate|].
  destruct (String.eqb k0 k) eqn:Hk.
  - apply String.eqb_eq in Hk. intros Heq. injection Heq as ->. left.
    now subst.
  - intros Hrest. right. now apply IH.
Qed.

(** C4 fails on a chain id that is the name of a member every object
    inherits from [Object.prototype] ([constructor], [toString],
    [__proto__], ...): the chain table does not map it to a schema, yet
    [schemaForChainId[chainId]] finds the inherited member, which is truthy,
    so the test [if (!chainSchema)] does not send the router to the
    sentinel: the table becomes the text of that member, a dot and the table
    name, and the filter groups are returned as they are. *)
Theorem inherited_member_as_chain_id `{Constants} (table : string)
  (groups : list StringKeyMap) (options : option SelectOptions)
  (c text : string) :
  nth 0 (split "." table) EmptyString = SPEC_SCHEMA ->
  optionsChainId options = Some c ->
  dict_lookup Object_prototype_members c = Some text ->
  dict_lookup schemaForChainId c = None
  /\ detectSpecSchemaQuery table groups options
     = Ok (chainTable text (nth_error (split "." table) 1), groups)
  /\ chainTable text (nth_error (split "." table) 1) <> emptyResponseTable.
Proof.
  intros Hschema Hopt Hmember.
  assert (Hown : dict_lookup schemaForChainId c = None).
  { apply dict_lookup_In in Hmember. cbn [Object_prototype_members In] in Hmember.
    repeat (destruct Hmember as [Heq|Hmember];
            [injection Heq as <- <-; reflexivity|]).
    contradiction. }
  split; [exact Hown|]. split.
  - rewrite (detectSpecSchemaQuery_by_option _ _ _ _ Hschema Hopt).
    unfold chainSchemaFor. now rewrite Hown, Hmember.
  - rewrite chainTable_text.
    apply dict_lookup_In in Hmember. cbn [Object_prototype_members In] in Hmember.
    repeat (destruct Hmember as [Heq|Hmember];
            [injection Heq as <- <-; discriminate|]).
    contradiction.
Qed.

Lemma inherited_member_as_chain_id_witness :
  dict_lookup schemaForChainId "constructor" = None
  /\ @detectSpecSchemaQuery spec_constants "spec.users" [ [("id", VNum 3)] ]
       (Some {| orderBy := None; offset := None; limit := None;
                chainId := Some "constructor"; blockRange := None |})
     = Ok ("function Object() { [native code] }.users", [ [("id", VNum 3)] ])
  /\ "function Object() { [native code] }.users" <> "ethereum.blocks".
Proof.
  exact (@inherited_member_as_chain_id spec_constants "spec.users"
           [ [("id", VNum 3)] ]
           (Some {| orderBy := None; offset := None; limit := None;
                    chainId := Some "constructor"; blockRange := None |})
           "constructor" "function Object() { [native code] }"
           eq_refl eq_refl eq_refl).
Defined.

(** The failing input run: the select is compiled against the text of
    [Object] as schema, with the caller's filter. *)
Example inherited_member_as_chain_id_run :
  compiled
    (@buildSelectQuery spec_pgFormat spec_humps spec_constants "spec.users"
       (FiltersMap [("id", VNum 3)])
       (Some {| orderBy := None; offset := None; limit := None;
                chainId := Some "constructor"; blockRange := None |}))
  = Some (("select * from " ++ quote_ident "function Object() { [native code] }"
           ++ "." ++ quote_ident "users" ++ " where " ++ quote_ident "id"
           ++ " = $1")%string,
          [VNum 3]).
Proof. reflexivity. Qed.

(** ** Selects without a constraint *)

Section Unfiltered.

Context `{PgFormat} `{Humps} `{Constants}.

Lemma andEntry_droppable (filtersMap : StringKeyMap) (colPath : string)
  (st : Bindings) :
  droppable (obj_get filtersMap colPath) = true ->
  andEntry filtersMap colPath st = Ok (None, st).
Proof.
  unfold andEntry, bind, lift, operatorAndValue.
  destruct (obj_get filtersMap colPath) as [| | b | n | s | items | props];
    cbn [droppable Array_isArray typeof_object negb andb filterObjectShape skipEntry];
    try discriminate; try reflexivity.
  - intros Hdrop. now rewrite Hdrop.
  - cbn [entryThrows]. intros Hdrop.
    apply andb_true_iff in Hdrop as [Hthrows Hdrop].
    destruct (truthy (obj_get props "op")) eqn:Hop.
    2:{ cbn [negb orb andb]. now rewrite orb_true_r. }
    cbn [andb] in Hthrows.
    destruct (hasOwnProperty props "hasOwnProperty"); [discriminate|].
    destruct (hasOwnProperty props "value") eqn:Hval.
    2:{ cbn [negb orb andb]. now rewrite orb_true_r. }
    cbn [negb orb] in *. rewrite orb_false_r in *.
    destruct (List.length (Object_keys props) =? 0)%nat; [reflexivity|].
    cbn [orb] in Hdrop.
    destruct (filterOp_of (obj_get props "op")); [discriminate|reflexivity].
Qed.

Lemma for_each_andEntry_droppable (filtersMap : StringKeyMap) (keys : list string)
  (st : Bindings) :
  (forall k, In k keys -> droppable (obj_get filtersMap k) = true) ->
  exists statements,
    for_each (andEntry filtersMap) keys st = Ok (statements, st)
    /\ kept statements = [].
Proof.
  induction keys as [|k keys IH]; intros Hdrop; simpl.
  - exists []. auto.
  - destruct IH as (statements & Hrun & Hkept);
      [intros k' Hin; apply Hdrop; now right|].
    exists (None :: statements). unfold bind.
    rewrite (andEntry_droppable filtersMap k st) by (apply Hdrop; now left).
    now rewrite Hrun.
Qed.

(** A group of droppable values gives [null] or the empty statement, and
    pushes no binding. *)
Lemma buildAndStatement_droppable (filtersMap : StringKeyMap) (st : Bindings) :
  (forall k, In k (Object_keys filtersMap) ->
             droppable (obj_get filtersMap k) = true) ->
  exists r,
    buildAndStatement (Some filtersMap) st = Ok (r, st)
    /\ (r = None \/ r = Some []).
Proof.
  intros Hdrop. unfold buildAndStatement.
  destruct (_ =? 0)%nat; [exists None; auto|].
  destruct (for_each_andEntry_droppable filtersMap (Object_keys filtersMap) st Hdrop)
    as (statements & Hrun & Hkept).
  exists (Some []). unfold bind. rewrite Hrun, Hkept. auto.
Qed.

(** Every value of a renamed group is a value of the group. *)
Lemma formatFilter_values (filter : StringKeyMap) (k : string) (v : JsVal) :
  dict_lookup (formatFilter filter) k = Some v ->
  exists k', In k' (Object_keys filter) /\ v = obj_get filter k'.
Proof.
  unfold formatFilter.
  assert (Hgen : forall keys acc,
             (forall k0, In k0 keys -> In k0 (Object_keys filter)) ->
             (forall k0 v0, dict_lookup acc k0 = Some v0 ->
                exists k', In k' (Object_keys filter) /\ v0 = obj_get filter k') ->
             forall k0 v0,
               dict_lookup
                 (fold_left
                    (fun formatted propertyName =>
                       assign formatted (toSnakeCase propertyName)
                         (obj_get filter propertyName)) keys acc) k0 = Some v0 ->
               exists k', In k' (Object_keys filter) /\ v0 = obj_get filter k').
  { induction keys as [|key keys IH]; intros acc Hsub Hacc k0 v0; simpl.
    - apply Hacc.
    - apply IH.
      + intros k1 Hin. apply Hsub. now right.
      + intros k1 v1. unfold assign.
        destruct (_ && _); [apply Hacc|].
        rewrite dict_lookup_set.
        destruct (String.eqb (toSnakeCase key) k1).
        * intros Heq. injection Heq as <-. exists key. split; [|reflexivity].
          apply Hsub. now left.
        * apply Hacc. }
  apply (Hgen (Object_keys filter) []); [auto|discriminate].
Qed.

Lemma formatFilter_droppable (filter : StringKeyMap) :
  (forall k, In k (Object_keys filter) -> droppable (obj_get filter k) = true) ->
  forall k, In k (Object_keys (formatFilter filter)) ->
            droppable (obj_get (formatFilter filter) k) = true.
Proof.
  intros Hdrop k Hin. apply dict_lookup_in_keys in Hin. unfold obj_get at 1.
  destruct (dict_lookup (formatFilter filter) k) as [v|] eqn:Hk; [|congruence].
  destruct (formatFilter_values filter k v Hk) as (k' & Hin' & ->).
  now apply Hdrop.
Qed.

Lemma groups_droppable_run (groups : list StringKeyMap) (st : Bindings) :
  (forall g, In g groups ->
     forall k, In k (Object_keys g) -> droppable (obj_get g k) = true) ->
  exists andStatements,
    for_each (fun inclusiveFilters => buildAndStatement (Some inclusiveFilters))
      (map formatFilter groups) st = Ok (andStatements, st)
    /\ List.filter (fun s => negb (String.length (render s) =? 0)%nat)
         (kept andStatements) = [].
Proof.
  induction groups as [|g groups IH]; intros Hdrop; cbn [map for_each].
  - exists []. auto.
  - destruct IH as (andStatements & Hrun & Hnone);
      [intros g' Hin; apply Hdrop; now right|].
    destruct (buildAndStatement_droppable (formatFilter g) st) as (r & Hg & Hr).
    { apply formatFilter_droppable. apply Hdrop. now left. }
    exists (r :: andStatements). unfold bind. rewrite Hg, Hrun.
    split; [reflexivity|].
    destruct Hr as [-> | ->]; cbn [kept]; [exact Hnone|].
    cbn [List.filter render map String.concat String.length Nat.eqb negb].
    exact Hnone.
Qed.

(** X26: a select outside the logical schema, without a block range, whose
    groups hold droppable values only (or that has no group at all), under
    keys that are not renamed to [__proto__], compiles to the unfiltered
    query with the paging suffix and no binding. *)
Lemma select_without_constraint (table : string) (filters : Filters)
  (options : option SelectOptions) :
  nth 0 (split "." table) EmptyString <> SPEC_SCHEMA ->
  optionsBlockRange options = [] ->
  (forall g, In g (truthyGroups filters) -> ordinaryColumns g) ->
  (forall g, In g (truthyGroups filters) ->
     forall k, In k (Object_keys g) -> droppable (obj_get g k) = true) ->
  buildSelectQuery table filters options
  = Ok {| schemaName := nth_error (split "." table) 0;
          tableName := nth_error (split "." table) 1;
          sql := addSelectOptionsToQuery
                   [Txt ("select * from " ++ identPath table)%string] options;
          bindings := [] |}.
Proof.
  intros Hschema Hrange _ Hdrop.
  unfold buildSelectQuery, detectSpecSchemaQuery. cbv zeta.
  apply String.eqb_neq in Hschema. rewrite Hschema, Hrange. cbn [negb].
  cbn [List.length Nat.eqb]. rewrite !andb_true_r.
  match goal with |- (if ?c then _ else _) = _ => destruct c end; [reflexivity|].
  destruct (groups_droppable_run (truthyGroups filters)
              {| values := []; bindingIndex := 1 |} Hdrop)
    as (andStatements & Hrun & Hnone).
  rewrite Hrun, Hnone. reflexivity.
Qed.

End Unfiltered.

(** ** Malformed entries *)

(** C8 fails on a [null] filter value: [typeof null] is ['object'], so the
    shape test reads [value.op] of [null] before the loop reaches its own
    [value === null] test, and the select throws a TypeError instead of
    compiling to the unfiltered query. This holds for every table outside
    the logical schema, every key and every options. *)
Theorem null_filter_value_throws `{PgFormat} `{Humps} `{Constants}
  (table key : string) (options : option SelectOptions) :
  nth 0 (split "." table) EmptyString <> SPEC_SCHEMA ->
  buildSelectQuery table (FiltersMap [(key, VNull)]) options = Raise TypeError.
Proof.
  intros Hschema. apply String.eqb_neq in Hschema.
  unfold buildSelectQuery, detectSpecSchemaQuery. cbv zeta.
  rewrite Hschema.
  cbn [negb truthyGroups List.length Nat.eqb andb orb map for_each].
  unfold formatFilter, buildAndStatement.
  cbn [Object_keys map fst fold_left].
  assert (Hnull : obj_get [(key, VNull)] key = VNull).
  { unfold obj_get. cbn [dict_lookup]. now rewrite String.eqb_refl. }
  rewrite Hnull. unfold assign. cbn [typeof_object negb].
  rewrite andb_false_r.
  cbn [Object_keys map fst fold_left dict_set List.length Nat.eqb for_each].
  unfold bind at 1. unfold bind at 1. unfold bind at 1.
  unfold andEntry, bind, lift, obj_get.
  cbn [dict_lookup]. rewrite !String.eqb_refl.
  reflexivity.
Qed.

Lemma null_filter_value_throws_witness :
  @buildSelectQuery spec_pgFormat spec_humps spec_constants "public.users"
    (FiltersMap [("id", VNull)]) None
  = Raise TypeError.
Proof.
  apply (@null_filter_value_throws spec_pgFormat spec_humps spec_constants
           "public.users" "id" None).
  discriminate.
Defined.

(** The spec's own example of a malformed map, every value [undefined],
    does compile to the unfiltered select. *)
Example undefined_filter_values_unfiltered :
  @buildSelectQuery spec_pgFormat spec_humps spec_constants "public.users"
    (FiltersMap [("id", VUndefined); ("name", VUndefined)]) None
  = Ok {| schemaName := Some "public"; tableName := Some "users";
          sql := [Txt ("select * from " ++ quote_ident "public" ++ "."
                       ++ quote_ident "users")%string];
          bindings := [] |}.
Proof. reflexivity. Qed.

(** ** The placeholders read back from the text *)

Lemma lex_run_app (a b : string) :
  forall st,
    lex_run st (a ++ b)
    = (fst (lex_run (fst (lex_run st a)) b),
       snd (lex_run st a) ++ snd (lex_run (fst (lex_run st a)) b)).
Proof.
  induction a as [|c a IH]; intros st; simpl.
  - now destruct (lex_run st b).
  - destruct (lex_step st c) as [st1 out1]. rewrite IH.
    destruct (lex_run st1 a) as [st2 out2]. simpl.
    now rewrite app_assoc.
Qed.

Lemma lex_all_app (a b : string) (st : lexer) :
  lex_all st (a ++ b) = snd (lex_run st a) ++ lex_all (fst (lex_run st a)) b.
Proof.
  unfold lex_all. rewrite lex_run_app.
  destruct (lex_run st a) as [st1 out1]. simpl.
  destruct (lex_run st1 b) as [st2 out2]. simpl.
  now rewrite app_assoc.
Qed.

Lemma neutral_empty : neutral EmptyString.
Proof. reflexivity. Qed.

Lemma neutral_app (a b : string) : neutral a -> neutral b -> neutral (a ++ b).
Proof.
  unfold neutral. intros Ha Hb. rewrite lex_run_app, Ha. simpl. now rewrite Hb.
Qed.

Lemma neutral_join (sep : string) (parts : list string) :
  neutral sep -> Forall neutral parts -> neutral (join sep parts).
Proof.
  intros Hsep Hparts. unfold join.
  induction Hparts as [|p parts Hp _ IH]; [reflexivity|].
  destruct parts as [|p' parts]; simpl; [assumption|].
  apply neutral_app; [assumption|]. apply neutral_app; assumption.
Qed.

Lemma separator_neutral (t : string) : separator t -> neutral t.
Proof.
  destruct t as [|c t]; simpl; [contradiction|].
  intros (_ & Hc & Ht). unfold neutral in *. simpl. now rewrite Hc, Ht.
Qed.

(** After the digits of a placeholder a separator completes it. *)
Lemma separator_after_param (t : string) (digits : string) :
  separator t -> lex_run (InParam digits) t = (Outside, param_number digits).
Proof.
  destruct t as [|c t]; simpl; [contradiction|].
  intros (Hdigit & Hc & Ht). unfold neutral in Ht.
  now rewrite Hdigit, Hc, Ht, app_nil_r.
Qed.

Lemma separator_app (a b : string) : separator a -> neutral b -> separator (a ++ b).
Proof.
  destruct a as [|c a]; simpl; [contradiction|].
  intros (Hdigit & Hc & Ha) Hb. auto using neutral_app.
Qed.

(** Digits extend the placeholder being read. *)
Lemma lex_run_digits (t : string) :
  (forall c, In c (list_ascii_of_string t) -> is_digit c = true) ->
  forall digits,
    lex_run (InParam digits) t = (InParam (digits ++ t), []).
Proof.
  induction t as [|c t IH]; intros Hall digits; simpl.
  - now rewrite append_empty_r.
  - rewrite (Hall c) by now left.
    rewrite IH by (intros c' Hin; apply Hall; now right).
    now rewrite string_append_assoc.
Qed.

Lemma string_of_uint_digits (d : Decimal.uint) :
  forall c, In c (list_ascii_of_string (NilEmpty.string_of_uint d)) ->
            is_digit c = true.
Proof.
  induction d; simpl; intros c Hin; try contradiction;
    destruct Hin as [<-|Hin]; try reflexivity; now apply IHd.
Qed.

Lemma nat_to_string_nonempty (n : nat) : nat_to_string n <> EmptyString.
Proof.
  unfold nat_to_string. intros Hempty.
  pose proof (NilEmpty.usu (Nat.to_uint n)) as Hback.
  rewrite Hempty in Hback. simpl in Hback. injection Hback as Hnil.
  pose proof (DecimalNat.Unsigned.of_to n) as Hn.
  rewrite <- Hnil in Hn. simpl in Hn. subst n. discriminate Hnil.
Qed.

Lemma param_number_of_nat (n : nat) : param_number (nat_to_string n) = [n].
Proof.
  unfold param_number.
  destruct (nat_to_string n) eqn:Hs; [now apply nat_to_string_nonempty in Hs|].
  rewrite <- Hs. unfold nat_to_string.
  now rewrite NilEmpty.usu, DecimalNat.Unsigned.of_to.
Qed.

(** The text of a placeholder leaves the scanner with its digits read. *)
Lemma lex_run_param (n : nat) (v : JsVal) :
  lex_run Outside (render_frag (Param n v)) = (InParam (nat_to_string n), []).
Proof.
  cbn [render_frag String.append lex_run lex_step].
  change (outside_step "$"%char) with (InParam EmptyString).
  rewrite lex_run_digits by apply string_of_uint_digits.
  reflexivity.
Qed.

(** What the scanner reads in the text of a well-separated query is the
    numbers of its placeholders, in order. *)
Lemma lex_all_well_separated (q : Sql) :
  (well_separated false q ->
   lex_all Outside (render q) = map fst (placeholders q))
  /\ (well_separated true q ->
      forall digits,
        lex_all (InParam digits) (render q)
        = param_number digits ++ map fst (placeholders q)).
Proof.
  induction q as [|[t|n v] q [IHout IHparam]].
  - split; intros _; [reflexivity|].
    intros digits. unfold lex_all. simpl. now rewrite app_nil_r.
  - split; intros [Ht Hq]; [|intros digits]; rewrite render_cons, lex_all_app;
      cbn [render_frag placeholders].
    + unfold neutral in Ht. rewrite Ht. simpl. now apply IHout.
    + rewrite (separator_after_param t digits Ht). simpl.
      now rewrite IHout.
  - split; intros [Hafter Hq]; [|discriminate].
    rewrite render_cons, lex_all_app, lex_run_param. simpl.
    now rewrite (IHparam Hq), param_number_of_nat.
Qed.

Lemma text_placeholders_well_separated (q : Sql) :
  well_separated false q ->
  text_placeholders (render q) = map fst (placeholders q).
Proof. apply lex_all_well_separated. Qed.

Lemma well_separated_weaken (q : Sql) :
  well_separated true q -> well_separated false q.
Proof.
  destruct q as [|[t|n v] q]; simpl; auto.
  - intros [Ht Hq]. split; [now apply separator_neutral|assumption].
  - intros [Hfalse _]. discriminate.
Qed.

Lemma well_separated_app (a c : Sql) :
  well_separated true c ->
  forall afterParam, well_separated afterParam a ->
                     well_separated afterParam (a ++ c).
Proof.
  intros Hc. induction a as [|[t|n v] a IH]; intros afterParam Ha; simpl in *.
  - destruct afterParam; [assumption|now apply well_separated_weaken].
  - destruct Ha as [Ht Ha]. split; [assumption|now apply IH].
  - destruct Ha as [Hafter Ha]. split; [assumption|now apply IH].
Qed.

Lemma well_separated_sql_join (sep : string) (parts : list Sql) :
  separator sep ->
  Forall (well_separated false) parts ->
  well_separated false (sql_join sep parts).
Proof.
  intros Hsep Hparts.
  induction Hparts as [|p parts Hp _ IH]; [exact I|].
  destruct parts as [|p' parts]; [exact Hp|].
  change (sql_join sep (p :: p' :: parts))
    with (p ++ Txt sep :: sql_join sep (p' :: parts)).
  apply well_separated_app; [|assumption].
  split; assumption.
Qed.

Lemma well_separated_parens (q : Sql) :
  well_separated false q -> well_separated false (parens q).
Proof.
  intros Hq. unfold parens. split; [reflexivity|].
  apply well_separated_app; [|assumption].
  repeat split.
Qed.

Lemma Forall_map_parens (qs : list Sql) :
  Forall (well_separated false) qs ->
  Forall (well_separated false) (map parens qs).
Proof.
  induction 1; simpl; constructor; auto using well_separated_parens.
Qed.

Lemma for_each_Forall {A B} (f : A -> Emit B) (P : B -> Prop) (l : list A) :
  (forall x st b st', f x st = Ok (b, st') -> P b) ->
  forall st bs st', for_each f l st = Ok (bs, st') -> Forall P bs.
Proof.
  intros Hf. induction l as [|x l IH]; simpl; intros st bs st' Hrun.
  - injection Hrun as <- _. constructor.
  - unfold bind in Hrun.
    destruct (f x st) as [[b st1]|e] eqn:Hx; [|discriminate].
    destruct (for_each f l st1) as [[bs' st2]|e] eqn:Hl; [|discriminate].
    injection Hrun as <- _. constructor; eauto.
Qed.

Lemma Forall_kept {A} (P : A -> Prop) (l : list (option A)) :
  Forall (fun r => match r with Some a => P a | None => True end) l ->
  Forall P (kept l).
Proof.
  induction 1 as [|[a|] l Ha _ IH]; simpl; auto.
Qed.

Lemma filterOp_neutral (op : string) : In op FilterOp_values -> neutral op.
Proof.
  unfold FilterOp_values. simpl.
  intros [<-|[<-|[<-|[<-|[<-|[<-|[<-|[<-|[]]]]]]]]]; reflexivity.
Qed.

Lemma direction_neutral (d : string) :
  string_in d OrderByDirection_values = true -> neutral d.
Proof.
  unfold string_in. intros Hin. apply existsb_exists in Hin as (x & Hx & Heq).
  apply String.eqb_eq in Heq. subst x.
  destruct Hx as [<-|[<-|[]]]; reflexivity.
Qed.

Section TextLevel.

Context `{PgFormat} `{Humps} `{Constants}.

(** The contract of the formatter: an identifier or a literal is a
    self-contained piece of SQL text. *)
Hypothesis ident_neutral : forall name, neutral (ident name).
Hypothesis literal_neutral : forall v, neutral (literal v).

Lemma Forall_map_neutral {A} (f : A -> string) (l : list A) :
  (forall x, neutral (f x)) -> Forall neutral (map f l).
Proof. intros Hf. induction l; simpl; constructor; auto. Qed.

Lemma identPath_neutral (value : string) : neutral (identPath value).
Proof.
  unfold identPath. apply neutral_join; [reflexivity|].
  now apply Forall_map_neutral.
Qed.

Lemma idents_neutral (cols : list string) :
  neutral (join ", " (map ident (map toSnakeCase cols))).
Proof.
  apply neutral_join; [reflexivity|]. rewrite map_map.
  now apply Forall_map_neutral.
Qed.

Lemma colEntry_neutral (colPath : string) (multi : bool) :
  neutral (colEntry colPath multi).
Proof.
  unfold colEntry. destruct multi; [|apply identPath_neutral].
  apply (neutral_app "("); [reflexivity|].
  apply neutral_app; [|reflexivity].
  apply neutral_join; [reflexivity|].
  apply Forall_map_neutral, identPath_neutral.
Qed.

Lemma valuePlaceholder_well_separated (value : JsVal) st rhs st' :
  valuePlaceholder value st = Ok (rhs, st') -> well_separated false rhs.
Proof.
  intros Hrun. apply valuePlaceholder_shape in Hrun.
  destruct value; try (subst rhs; repeat split; fail).
  subst rhs. apply well_separated_parens, well_separated_sql_join.
  - repeat split.
  - induction (combine _ _) as [|[n v] l IH]; simpl; constructor; auto.
    repeat split.
Qed.

Lemma andEntry_well_separated (filtersMap : StringKeyMap) (colPath : string)
  st r st' :
  andEntry filtersMap colPath st = Ok (r, st') ->
  match r with Some stmt => well_separated false stmt | None => True end.
Proof.
  destruct r as [stmt|]; [|trivial]. intros Hrun.
  destruct (andEntry_kept _ _ _ _ _ Hrun) as (op & rhs & _ & Hin & -> & Hrhs).
  repeat split.
  - apply (colEntry_neutral colPath (includes "," colPath)).
  - now apply filterOp_neutral.
  - eapply valuePlaceholder_well_separated; eassumption.
Qed.

Lemma buildAndStatement_well_separated (filtersMap : option StringKeyMap)
  st r st' :
  buildAndStatement filtersMap st = Ok (r, st') ->
  match r with Some s => well_separated false s | None => True end.
Proof.
  unfold buildAndStatement.
  destruct filtersMap as [m|]; [|intros Heq; injection Heq as <- _; exact I].
  destruct (_ =? 0)%nat; [intros Heq; injection Heq as <- _; exact I|].
  unfold bind, ret.
  destruct (for_each (andEntry m) (Object_keys m) st) as [[stmts st1]|e] eqn:Hrun;
    [|discriminate].
  intros Heq. injection Heq as <- _.
  apply well_separated_sql_join; [repeat split|].
  apply Forall_kept.
  revert Hrun. apply for_each_Forall. intros x. apply andEntry_well_separated.
Qed.

Lemma addSelectOptionsToQuery_well_separated (q : Sql)
  (options : option SelectOptions) :
  well_separated false q ->
  well_separated false (addSelectOptionsToQuery q options).
Proof.
  intros Hq. unfold addSelectOptionsToQuery.
  assert (Hstep : forall q' t, well_separated false q' -> separator t ->
                               well_separated false (q' ++ [Txt t])).
  { intros q' t Hq' Ht. apply well_separated_app; [|assumption].
    split; [assumption|exact I]. }
  assert (Horder :
            well_separated false
              match match options with Some o => orderBy o | None => None end with
              | Some ob =>
                  if match column ob with Column c => str_truthy c | Columns _ => true end
                     && string_in (direction ob) OrderByDirection_values
                  then q ++ [Txt (" order by ("
                                  ++ join ", "
                                       (map identPath
                                          (map toSnakeCase
                                             match column ob with
                                             | Column c => [c]
                                             | Columns cs => cs
                                             end))
                                  ++ ") " ++ direction ob)%string]
                  else q
              | None => q
              end).
  { destruct (match options with Some o => orderBy o | None => None end)
      as [ob|]; [|assumption].
    destruct (_ && string_in _ _) eqn:Hcond; [|assumption].
    apply andb_prop in Hcond as [_ Hdir].
    apply Hstep; [assumption|].
    apply (separator_app " order by ("); [repeat split|].
    apply neutral_app.
    - apply neutral_join; [reflexivity|]. rewrite map_map.
      apply Forall_map_neutral. intros x. apply identPath_neutral.
    - apply (neutral_app ") "); [reflexivity|now apply direction_neutral]. }
  destruct options as [[ob [off|] [lim|] cid br]|]; cbv beta iota zeta;
    repeat apply Hstep; try exact Horder;
    apply (separator_app " offset ") || apply (separator_app " limit ");
    try (repeat split; fail); apply literal_neutral.
Qed.

End TextLevel.

Section TextOfQueries.

Context `{PgFormat} `{Humps} `{Constants}.

Hypothesis ident_neutral : forall name, neutral (ident name).
Hypothesis literal_neutral : forall v, neutral (literal v).

Lemma select_text_neutral (table : string) :
  neutral ("select * from " ++ identPath table).
Proof.
  apply (neutral_app "select * from "); [reflexivity|].
  now apply identPath_neutral.
Qed.

Lemma blockRangeGroup_well_separated (blockRange : list JsVal) :
  Forall (well_separated false) (blockRangeGroup blockRange).
Proof.
  unfold blockRangeGroup. destruct (_ =? 0)%nat; constructor; [|constructor].
  destruct blockRange as [|lo [|hi rest]]; simpl; repeat split;
    try (apply (neutral_app "block_number >= "); [reflexivity|apply literal_neutral]);
    apply (neutral_app " and block_number <= "); [reflexivity|apply literal_neutral].
Qed.

Lemma orGroup_well_separated (orStatements : list Sql) :
  Forall (well_separated false) orStatements ->
  Forall (well_separated false) (orGroup orStatements).
Proof.
  intros Hall. destruct orStatements as [|s [|s' rest]]; simpl; auto.
  constructor; [|constructor].
  apply (well_separated_sql_join " or " (map parens (s :: s' :: rest)));
    [repeat split|now apply Forall_map_parens].
Qed.

Lemma whereClause_well_separated (whereGroups : list Sql) :
  Forall (well_separated false) whereGroups ->
  well_separated false (whereClause whereGroups).
Proof.
  intros Hall. destruct whereGroups as [|g [|g' rest]].
  - repeat split.
  - now inversion Hall.
  - apply (well_separated_sql_join " and " (map parens (g :: g' :: rest)));
      [repeat split|now apply Forall_map_parens].
Qed.

Lemma Forall_filter {A} (P : A -> Prop) (f : A -> bool) (l : list A) :
  Forall P l -> Forall P (List.filter f l).
Proof.
  induction 1 as [|x l Hx _ IH]; simpl; [constructor|].
  destruct (f x); auto.
Qed.

Lemma buildSelectQuery_well_separated (table : string) (filters : Filters)
  (options : option SelectOptions) (p : QueryPayload) :
  buildSelectQuery table filters options = Ok p ->
  well_separated false (sql p).
Proof.
  unfold buildSelectQuery. cbv zeta.
  match goal with
  | |- context [detectSpecSchemaQuery ?a ?b ?c] =>
      destruct (detectSpecSchemaQuery a b c) as [[table' filters']|e]
  end; [|discriminate].
  match goal with |- (if ?c then _ else _) = _ -> _ => destruct c end.
  { intros Heq. injection Heq as <-. cbn [sql].
    apply addSelectOptionsToQuery_well_separated; auto.
    split; [apply select_text_neutral|exact I]. }
  match goal with
  | |- context [for_each ?f ?l ?s] =>
      destruct (for_each f l s) as [[andStatements st]|e] eqn:Hrun
  end; [|discriminate].
  match goal with |- (if ?c then _ else _) = _ -> _ => destruct c end.
  { intros Heq. injection Heq as <-. cbn [sql].
    apply addSelectOptionsToQuery_well_separated; auto.
    split; [apply select_text_neutral|exact I]. }
  intros Heq. injection Heq as <-. cbn [sql].
  apply addSelectOptionsToQuery_well_separated; auto.
  cbn [app]. split; [apply select_text_neutral|].
  split; [reflexivity|].
  apply whereClause_well_separated, Forall_app. split.
  - apply blockRangeGroup_well_separated.
  - apply orGroup_well_separated, Forall_filter, Forall_kept.
    revert Hrun. apply for_each_Forall.
    intros x st0 r st1. now apply buildAndStatement_well_separated.
Qed.

(** The text of a compiled select, scanned as SQL, shows the placeholders
    [$1], ..., [$n] in this order, [n] the number of bindings. *)
Lemma select_text_placeholders (table : string) (filters : Filters)
  (options : option SelectOptions) (p : QueryPayload) :
  buildSelectQuery table filters options = Ok p ->
  text_placeholders (render (sql p)) = seq 1 (List.length (bindings p)).
Proof.
  intros Hrun.
  rewrite text_placeholders_well_separated
    by (eapply buildSelectQuery_well_separated; eassumption).
  now apply buildSelectQuery_placeholders in Hrun.
Qed.

Lemma rowPlaceholders_well_separated (cols : list string) (start : nat)
  (row : StringKeyMap) :
  well_separated false (rowPlaceholders cols start row).
Proof.
  unfold rowPlaceholders. apply well_separated_parens, well_separated_sql_join.
  - repeat split.
  - induction (combine _ _) as [|[n v] l IH]; simpl; constructor; auto.
    repeat split.
Qed.

Lemma rowsFrom_well_separated (cols : list string) (rows : list StringKeyMap) :
  forall start, Forall (well_separated false) (rowsFrom cols start rows).
Proof.
  induction rows as [|row rows IH]; intros start; simpl; constructor; auto.
  apply rowPlaceholders_well_separated.
Qed.

Lemma afterConflict_well_separated (guardOp table : string)
  (updateColumns : list string) (primaryTimestampColumn : option string)
  (returning : option Returning) :
  neutral guardOp ->
  well_separated true
    (afterConflict guardOp table updateColumns primaryTimestampColumn returning).
Proof.
  intros Hguard. unfold afterConflict.
  destruct (_ =? 0)%nat; [repeat split|].
  unfold updateClause. cbn [app]. split.
  { apply (separator_app " do update set "); [repeat split|].
    apply neutral_join; [reflexivity|].
    apply Forall_map_neutral. intros c. unfold updateAssignment.
    apply neutral_app; [apply ident_neutral|].
    apply (neutral_app " = excluded."); [reflexivity|apply ident_neutral]. }
  apply well_separated_weaken. apply well_separated_app.
  - unfold returningClause.
    destruct returning as [r|]; [|exact I].
    destruct (match r with ReturningOne s => str_truthy s | ReturningMany _ => true end);
      [|exact I].
    split; [|exact I].
    apply (separator_app " returning "); [repeat split|].
    destruct (match r with ReturningOne s => String.eqb s "*" | ReturningMany _ => false end);
      [reflexivity|].
    now apply idents_neutral.
  - unfold guardClause.
    destruct primaryTimestampColumn as [c|]; [|exact I].
    destruct (str_truthy c); [|exact I].
    split; [|exact I].
    apply (separator_app " where "); [repeat split|].
    apply neutral_app; [now apply identPath_neutral|].
    apply (neutral_app " "); [reflexivity|].
    apply neutral_app; [assumption|].
    apply (neutral_app " excluded."); [reflexivity|apply ident_neutral].
Qed.

Lemma upsertStatement_well_separated (guardOp table : string) (data : UpsertData)
  (conflictColumns updateColumns : list string)
  (primaryTimestampColumn : option string) (returning : option Returning)
  (q : Sql) (bs : list JsVal) :
  neutral guardOp ->
  upsertStatement guardOp table data conflictColumns updateColumns
    primaryTimestampColumn returning = Ok (q, bs) ->
  well_separated false q.
Proof.
  intros Hguard Hrun.
  destruct (upsertStatement_ok_inv _ _ _ _ _ _ _ _ Hrun)
    as (first & rest & Hrows & Hkeys).
  rewrite (upsertStatement_run _ _ _ _ _ _ _ first rest Hrows Hkeys) in Hrun.
  apply Ok_pair_inj in Hrun as [<- _].
  unfold insertClause. cbn [app]. split.
  { apply (neutral_app "insert into "); [reflexivity|].
    apply neutral_app; [now apply identPath_neutral|].
    apply (neutral_app " ("); [reflexivity|].
    apply neutral_app; [now apply idents_neutral|reflexivity]. }
  split; [reflexivity|].
  apply well_separated_app.
  - unfold conflictClause. cbn [app]. split.
    + apply (separator_app " on conflict ("); [repeat split|].
      apply neutral_app; [now apply idents_neutral|reflexivity].
    + apply well_separated_weaken. now apply afterConflict_well_separated.
  - apply well_separated_sql_join; [repeat split|].
    apply rowsFrom_well_separated.
Qed.

(** The same for a compiled upsert, the exported one and the superseded
    duplicate. *)
Lemma upsert_text_placeholders (table : string) (data : UpsertData)
  (conflictColumns updateColumns : list string)
  (primaryTimestampColumn : option string) (returning : option Returning)
  (p : QueryPayload) :
  buildUpsertQuery table data conflictColumns updateColumns
    primaryTimestampColumn returning = Ok p
  \/ buildUpsertQuery_superseded table data conflictColumns updateColumns
       primaryTimestampColumn returning = Ok p ->
  text_placeholders (render (sql p)) = seq 1 (List.length (bindings p)).
Proof.
  unfold buildUpsertQuery, buildUpsertQuery_superseded.
  intros [Hrun|Hrun];
    destruct (upsertStatement _ _ _ _ _ _ _) as [[q bs]|e] eqn:Hstmt;
    try discriminate; injection Hrun as <-; cbn [sql bindings];
    (rewrite text_placeholders_well_separated
      by (eapply upsertStatement_well_separated; [|eassumption]; reflexivity));
    now apply upsertStatement_placeholders in Hstmt.
Qed.

End TextOfQueries.

(** ** The formatter of the specification keeps its contract *)

Lemma escape_quote_inside_identifier (s : string) :
  lex_run InIdentifier (escape_quote (ascii_of_nat 34) s) = (InIdentifier, []).
Proof.
  induction s as [|c s IH]; [reflexivity|].
  cbn [escape_quote]. destruct (Ascii.eqb c (ascii_of_nat 34)) eqn:Hc.
  - cbn [lex_run lex_step]. rewrite Hc. cbn [lex_run lex_step].
    unfold outside_step. rewrite Hc, IH. reflexivity.
  - cbn [lex_run lex_step]. rewrite Hc, IH. reflexivity.
Qed.

Lemma escape_quote_inside_literal (s : string) :
  lex_run InLiteral (escape_quote (ascii_of_nat 39) s) = (InLiteral, []).
Proof.
  induction s as [|c s IH]; [reflexivity|].
  cbn [escape_quote]. destruct (Ascii.eqb c (ascii_of_nat 39)) eqn:Hc.
  - cbn [lex_run lex_step]. rewrite Hc. cbn [lex_run lex_step].
    unfold outside_step. rewrite Hc.
    replace (Ascii.eqb c (ascii_of_nat 34)) with false
      by (apply Ascii.eqb_eq in Hc; now subst c).
    rewrite IH. reflexivity.
  - cbn [lex_run lex_step]. rewrite Hc, IH. reflexivity.
Qed.

Lemma quote_ident_neutral (name : string) : neutral (quote_ident name).
Proof.
  unfold neutral, quote_ident, double_quote.
  cbn [String.append lex_run lex_step].
  change (outside_step (ascii_of_nat 34)) with InIdentifier.
  rewrite lex_run_app, escape_quote_inside_identifier. reflexivity.
Qed.

Lemma quoted_literal_neutral (s : string) :
  neutral (single_quote ++ escape_quote (ascii_of_nat 39) s ++ single_quote).
Proof.
  unfold neutral, single_quote.
  cbn [String.append lex_run lex_step].
  change (outside_step (ascii_of_nat 39)) with InLiteral.
  rewrite lex_run_app, escape_quote_inside_literal. reflexivity.
Qed.

Lemma digit_is_plain (c : ascii) : is_digit c = true -> outside_step c = Outside.
Proof.
  destruct c as [[] [] [] [] [] [] [] []]; vm_compute; congruence.
Qed.

Lemma plain_text_neutral (t : string) :
  (forall c, In c (list_ascii_of_string t) -> outside_step c = Outside) ->
  neutral t.
Proof.
  unfold neutral. induction t as [|c t IH]; intros Hall; [reflexivity|].
  cbn [lex_run lex_step]. rewrite (Hall c) by now left.
  rewrite IH by (intros c' Hin; apply Hall; now right). reflexivity.
Qed.

Lemma Z_to_string_neutral (n : Z) : neutral (Z_to_string n).
Proof.
  unfold Z_to_string. apply plain_text_neutral.
  destruct (Z.to_int n) as [d|d]; cbn [NilEmpty.string_of_int list_ascii_of_string].
  - intros c Hin. now apply digit_is_plain, (string_of_uint_digits d).
  - intros c [<-|Hin]; [reflexivity|].
    now apply digit_is_plain, (string_of_uint_digits d).
Qed.

Lemma quote_literal_neutral (v : JsVal) : neutral (quote_literal v).
Proof.
  destruct v as [| | [|] | n | s | items | props]; cbn [quote_literal];
    try reflexivity; try apply quoted_literal_neutral.
  apply Z_to_string_neutral.
Qed.

(** ** Placeholders and bindings of every compiled query *)

(** C1: for every select and every upsert compilation that returns a payload
    (the exported upsert and its superseded duplicate alike), the sql holds
    as many placeholders as there are bindings, their numbers read in
    emission order are exactly 1, 2, ..., [bindings.length], and the value
    each placeholder was printed for is the binding at the same position.
    With a formatter whose identifiers and literals are self-contained SQL
    tokens, the placeholders found by scanning the sql text itself are
    [$1], ..., [$n] in this order, [n] the number of bindings. *)
Theorem placeholders_match_bindings `{PgFormat} `{Humps} `{Constants}
  (p : QueryPayload) :
  (exists table filters options, buildSelectQuery table filters options = Ok p)
  \/ (exists table data conflictColumns updateColumns primaryTimestampColumn returning,
        buildUpsertQuery table data conflictColumns updateColumns
          primaryTimestampColumn returning = Ok p
        \/ buildUpsertQuery_superseded table data conflictColumns updateColumns
             primaryTimestampColumn returning = Ok p) ->
  (List.length (placeholders (sql p)) = List.length (bindings p)
   /\ map fst (placeholders (sql p)) = seq 1 (List.length (bindings p))
   /\ map snd (placeholders (sql p)) = bindings p)
  /\ ((forall name, neutral (ident name)) ->
      (forall v, neutral (literal v)) ->
      text_placeholders (render (sql p)) = seq 1 (List.length (bindings p))).
Proof.
  intros Hfrom. split.
  - assert (Hboth : map fst (placeholders (sql p)) = seq 1 (List.length (bindings p))
                    /\ map snd (placeholders (sql p)) = bindings p).
    { destruct Hfrom as [(table & filters & options & Hsel)
                        |(table & data & cc & uc & ts & ret & [Hups|Hups])].
      - now apply buildSelectQuery_placeholders in Hsel.
      - unfold buildUpsertQuery in Hups.
        destruct (upsertStatement _ _ _ _ _ _ _) as [[q bs]|e] eqn:Hrun;
          [|discriminate].
        injection Hups as <-. cbn [sql bindings].
        now apply upsertStatement_placeholders in Hrun.
      - unfold buildUpsertQuery_superseded in Hups.
        destruct (upsertStatement _ _ _ _ _ _ _) as [[q bs]|e] eqn:Hrun;
          [|discriminate].
        injection Hups as <-. cbn [sql bindings].
        now apply upsertStatement_placeholders in Hrun. }
    destruct Hboth as [Hfst Hsnd]. repeat split; try assumption.
    rewrite <- Hsnd. now rewrite length_map.
  - intros Hident Hliteral.
    destruct Hfrom as [(table & filters & options & Hsel)
                      |(table & data & cc & uc & ts & ret & Hups)].
    + now apply (select_text_placeholders Hident Hliteral) in Hsel.
    + now apply (upsert_text_placeholders Hident) in Hups.
Qed.

Lemma placeholders_match_bindings_witness :
  exists p,
    buildSelectQuery "public.u$9"
      (FiltersMap [("id", VArr [VNum 1; VNum 2]);
                   ("a$1", VObj [("op", VStr ">="); ("value", VStr "$7")])])
      None = Ok p
    /\ bindings p = [VNum 1; VNum 2; VStr "$7"]
    /\ map fst (placeholders (sql p)) = [1; 2; 3]
    /\ map snd (placeholders (sql p)) = bindings p
    /\ text_placeholders (render (sql p)) = [1; 2; 3].
Proof.
  eexists. split; [vm_compute; reflexivity|].
  split; [reflexivity|].
  match goal with
  | |- map fst (placeholders (sql ?p)) = _ /\ _ =>
      destruct (@placeholders_match_bindings spec_pgFormat spec_humps spec_constants p)
        as [(_ & Hfst & Hsnd) Htext]
  end.
  { left.
    exists "public.u$9",
      (FiltersMap [("id", VArr [VNum 1; VNum 2]);
                   ("a$1", VObj [("op", VStr ">="); ("value", VStr "$7")])]),
      None.
    vm_compute. reflexivity. }
  split; [exact Hfst|]. split; [exact Hsnd|].
  exact (Htext quote_ident_neutral quote_literal_neutral).
Defined.

(** ** The examples of the specification *)

Example select_by_scalar :
  compiled (buildSelectQuery "public.users" (FiltersMap [("id", VNum 5)]) None)
  = Some (("select * from " ++ quote_ident "public" ++ "." ++ quote_ident "users"
             ++ " where " ++ quote_ident "id" ++ " = $1")%string,
          [VNum 5]).
Proof. reflexivity. Qed.

Example select_or_groups :
  compiled
    (buildSelectQuery "public.users"
       (FiltersArray [Some [("status", VStr "active")]; Some [("status", VStr "pending")]])
       None)
  = Some (("select * from " ++ quote_ident "public" ++ "." ++ quote_ident "users"
             ++ " where (" ++ quote_ident "status" ++ " = $1) or ("
             ++ quote_ident "status" ++ " = $2)")%string,
          [VStr "active"; VStr "pending"]).
Proof. reflexivity. Qed.

Example select_explicit_operator :
  compiled
    (buildSelectQuery "public.users"
       (FiltersMap [("age", VObj [("op", VStr ">="); ("value", VNum 21)])]) None)
  = Some (("select * from " ++ quote_ident "public" ++ "." ++ quote_ident "users"
             ++ " where " ++ quote_ident "age" ++ " >= $1")%string,
          [VNum 21]).
Proof. reflexivity. Qed.

Example select_list_defaults_to_in :
  compiled
    (buildSelectQuery "public.users"
       (FiltersMap [("id", VArr [VNum 1; VNum 2; VNum 3])]) None)
  = Some (("select * from " ++ quote_ident "public" ++ "." ++ quote_ident "users"
             ++ " where " ++ quote_ident "id" ++ " in ($1, $2, $3)")%string,
          [VNum 1; VNum 2; VNum 3]).
Proof. reflexivity. Qed.

Example select_block_range_and_paging :
  compiled
    (buildSelectQuery "public.users"
       (FiltersMap [("userID,fullName", VArr [VNum 1; VStr "A"])])
       (Some {| orderBy := Some {| column := Column "createdAt"; direction := "desc" |};
                offset := Some (VNum 5); limit := Some (VNum 10);
                chainId := None; blockRange := Some [VNum 1; VNum 7] |}))
  = Some (("select * from " ++ quote_ident "public" ++ "." ++ quote_ident "users"
             ++ " where (block_number >= 1 and block_number <= 7) and (("
             ++ quote_ident "user_id" ++ ", " ++ quote_ident "full_name"
             ++ ") = ($1, $2)) order by (" ++ quote_ident "created_at"
             ++ ") desc offset 5 limit 10")%string,
          [VNum 1; VStr "A"]).
Proof. reflexivity. Qed.

Example upsert_normalizes_and_sorts :
  compiled
    (buildUpsertQuery "public.users"
       (Rows [ [("id", VNum 1); ("fullName", VStr "A")] ]) ["id"] ["fullName"] None None)
  = Some (("insert into " ++ quote_ident "public" ++ "." ++ quote_ident "users"
             ++ " (" ++ quote_ident "full_name" ++ ", " ++ quote_ident "id"
             ++ ") values ($1, $2) on conflict (" ++ quote_ident "id"
             ++ ") do update set " ++ quote_ident "full_name" ++ " = excluded."
             ++ quote_ident "full_name")%string,
          [VStr "A"; VNum 1]).
Proof. reflexivity. Qed.

Example upsert_without_rows_is_a_type_error :
  buildUpsertQuery "public.users" (Rows []) ["id"] [] None None = Raise TypeError.
Proof. reflexivity. Qed.

Example normalizer_samples :
  map toSnakeCase ["userID"; "fullName"; "HTMLParser"; "ABC"; "x1Y"; "block_number"]
  = ["user_id"; "full_name"; "html_parser"; "abc"; "x1y"; "block_number"].
Proof. reflexivity. Qed.

Example chain_table :
  schemaForChainId
  = [ ("1", "ethereum"); ("5", "goerli"); ("137", "polygon"); ("80001", "mumbai");
      ("8453", "base"); ("10", "optimism"); ("42161", "arbitrum"); ("424", "pgn");
      ("42220", "celo"); ("59144", "linea"); ("11155111", "sepolia") ].
Proof. reflexivity. Qed.

(** * Further properties of the code *)

(** ** The select once the router has answered *)

Lemma for_each_app {A B} (f : A -> Emit B) (l1 l2 : list A) (st : Bindings) :
  for_each f (l1 ++ l2) st
  = match for_each f l1 st with
    | Raise e => Raise e
    | Ok (bs1, st1) =>
        match for_each f l2 st1 with
        | Raise e => Raise e
        | Ok (bs2, st2) => Ok (bs1 ++ bs2, st2)
        end
    end.
Proof.
  revert st. induction l1 as [|x l1 IH]; intros st; cbn [app for_each].
  - unfold ret. cbv iota beta.
    destruct (for_each f l2 st) as [[bs2 st2]|e]; reflexivity.
  - unfold bind, ret. destruct (f x st) as [[b st0]|e]; [|reflexivity].
    rewrite IH. destruct (for_each f l1 st0) as [[bs1 st1]|e]; [|reflexivity].
    destruct (for_each f l2 st1) as [[bs2 st2]|e]; reflexivity.
Qed.

Lemma kept_app {A} (l1 l2 : list (option A)) :
  kept (l1 ++ l2) = kept l1 ++ kept l2.
Proof.
  induction l1 as [|[a|] l1 IH]; cbn [app kept]; [reflexivity| |exact IH].
  now rewrite IH.
Qed.

Section AfterRouting.

Context `{PgFormat} `{Humps} `{Constants}.

(** The early return on empty filters gives what the loop gives on no group:
    the select is the router followed by [selectAfterRouting]. *)
Lemma buildSelectQuery_after_routing (table : string) (filters : Filters)
  (options : option SelectOptions) :
  buildSelectQuery table filters options
  = match detectSpecSchemaQuery table (truthyGroups filters) options with
    | Raise e => Raise e
    | Ok (table', groups) => selectAfterRouting table' groups options
    end.
Proof.
  unfold buildSelectQuery, selectAfterRouting. cbv zeta.
  destruct (detectSpecSchemaQuery _ _ _) as [[table' groups]|e]; [|reflexivity].
  match goal with |- (if ?c then _ else _) = _ => destruct c eqn:Hc end;
    [|reflexivity].
  apply andb_true_iff in Hc as [Hg Hb].
  assert (Hnil : groups = []).
  { destruct groups; [reflexivity|]. cbn [List.length Nat.eqb] in Hg.
    rewrite !andb_false_r in Hg. discriminate. }
  subst groups. cbn [map for_each]. unfold ret.
  cbn [kept List.filter List.length Nat.eqb andb]. now rewrite Hb.
Qed.

(** Outside the logical schema the router gives its arguments back. *)
Lemma detectSpecSchemaQuery_elsewhere (table : string)
  (groups : list StringKeyMap) (options : option SelectOptions) :
  nth 0 (split "." table) EmptyString <> SPEC_SCHEMA ->
  detectSpecSchemaQuery table groups options = Ok (table, groups).
Proof.
  intros Hschema. apply String.eqb_neq in Hschema.
  unfold detectSpecSchemaQuery. cbv zeta. now rewrite Hschema.
Qed.

Lemma buildSelectQuery_elsewhere (table : string) (filters : Filters)
  (options : option SelectOptions) :
  nth 0 (split "." table) EmptyString <> SPEC_SCHEMA ->
  buildSelectQuery table filters options
  = selectAfterRouting table (truthyGroups filters) options.
Proof.
  intros Hschema.
  now rewrite buildSelectQuery_after_routing, detectSpecSchemaQuery_elsewhere.
Qed.

(** When no group gave a statement, no binding was pushed. *)
Lemma no_statement_no_binding (groups : list StringKeyMap)
  (andStatements : list (option Sql)) (st : Bindings) :
  for_each (fun inclusiveFilters => buildAndStatement (Some inclusiveFilters))
    groups {| values := []; bindingIndex := 1 |} = Ok (andStatements, st) ->
  List.filter (fun s => negb (String.length (render s) =? 0)%nat)
    (kept andStatements) = [] ->
  values st = [].
Proof.
  intros Hrun Hnone.
  assert (Hem : emitted {| values := []; bindingIndex := 1 |} st
                  (flat_map placeholders_of andStatements)).
  { revert Hrun. apply for_each_emitted. intros x.
    apply buildAndStatement_emitted. }
  apply emitted_from_start in Hem as [_ Hsnd].
  now rewrite <- Hsnd, <- flat_map_placeholders_kept,
    <- placeholders_nonempty_text, Hnone.
Qed.

(** The paging suffix does not depend on the query it is appended to. *)
Lemma addSelectOptionsToQuery_suffix (q : Sql) (options : option SelectOptions) :
  addSelectOptionsToQuery q options = q ++ addSelectOptionsToQuery [] options.
Proof.
  unfold addSelectOptionsToQuery.
  repeat match goal with
         | |- context [match ?x with _ => _ end] => destruct x
         end;
    cbn [app]; rewrite <- ?app_assoc, ?app_nil_r; reflexivity.
Qed.

End AfterRouting.

(** ** The options of a select *)

Lemma detectSpecSchemaQuery_chainId `{Constants} (table : string)
  (groups : list StringKeyMap) (o o' : option SelectOptions) :
  optionsChainId o = optionsChainId o' ->
  detectSpecSchemaQuery table groups o = detectSpecSchemaQuery table groups o'.
Proof. intros Heq. unfold detectSpecSchemaQuery. now rewrite Heq. Qed.

Lemma addSelectOptionsToQuery_withoutPaging `{PgFormat} `{Humps} (q : Sql)
  (o : SelectOptions) :
  addSelectOptionsToQuery q (Some (withoutPaging o)) = q.
Proof. reflexivity. Qed.

(** X1: [orderBy], [offset] and [limit] take no part in the routing, the
    where clause or the bindings of a select: the payload is the one
    compiled without them, with a suffix appended to its sql that depends on
    the options only and holds no placeholder. The select fails with them
    exactly as it fails without them. *)
Theorem paging_options_only_append `{PgFormat} `{Humps} `{Constants}
  (table : string) (filters : Filters) (o : SelectOptions) :
  buildSelectQuery table filters (Some o)
  = match buildSelectQuery table filters (Some (withoutPaging o)) with
    | Raise e => Raise e
    | Ok p => Ok (withSql p (sql p ++ addSelectOptionsToQuery [] (Some o)))
    end
  /\ placeholders (addSelectOptionsToQuery [] (Some o)) = [].
Proof.
  split; [|apply placeholders_addSelectOptionsToQuery].
  rewrite !buildSelectQuery_after_routing.
  rewrite (detectSpecSchemaQuery_chainId table (truthyGroups filters)
             (Some (withoutPaging o)) (Some o)) by reflexivity.
  destruct (detectSpecSchemaQuery _ _ _) as [[table' groups]|e]; [|reflexivity].
  unfold selectAfterRouting. cbv zeta.
  replace (optionsBlockRange (Some (withoutPaging o)))
    with (optionsBlockRange (Some o)) by now destruct o.
  destruct (for_each _ _ _) as [[andStatements st]|e]; [|reflexivity].
  rewrite !addSelectOptionsToQuery_withoutPaging.
  destruct (_ && _); unfold withSql; cbn [schemaName tableName sql bindings];
    now rewrite <- addSelectOptionsToQuery_suffix.
Qed.

(** X2: the bounds of [blockRange] are printed as literals, never bound:
    with and without [blockRange] a select fails alike or returns the same
    bindings, schema name and table name. *)
Theorem block_range_is_never_bound `{PgFormat} `{Humps} `{Constants}
  (table : string) (filters : Filters) (o : SelectOptions) :
  match buildSelectQuery table filters (Some o),
        buildSelectQuery table filters (Some (withoutBlockRange o)) with
  | Ok p, Ok p' =>
      bindings p = bindings p'
      /\ schemaName p = schemaName p' /\ tableName p = tableName p'
  | Raise e, Raise e' => e = e'
  | _, _ => False
  end.
Proof.
  rewrite !buildSelectQuery_after_routing.
  rewrite (detectSpecSchemaQuery_chainId table (truthyGroups filters)
             (Some (withoutBlockRange o)) (Some o)) by reflexivity.
  destruct (detectSpecSchemaQuery _ _ _) as [[table' groups]|e]; [|reflexivity].
  unfold selectAfterRouting. cbv zeta.
  change (optionsBlockRange (Some (withoutBlockRange o))) with (@nil JsVal).
  destruct (for_each _ _ _) as [[andStatements st]|e] eqn:Hrun; [|reflexivity].
  cbn [List.length Nat.eqb]. rewrite andb_true_r.
  destruct (List.length (List.filter _ _) =? 0)%nat eqn:Hnone; cbn [andb].
  - apply Nat.eqb_eq, length_zero_iff_nil in Hnone.
    destruct (_ =? 0)%nat; cbn [bindings schemaName tableName]; auto.
    rewrite (no_statement_no_binding _ _ _ Hrun Hnone). auto.
  - cbn [bindings schemaName tableName]. auto.
Qed.

(** X3: a select outside the logical schema with a non-empty [blockRange]
    whose groups give no statement (no group, or droppable values only,
    under keys that are not renamed to [__proto__]) has the range as its
    whole where clause, the bounds printed by [literal]; elements of
    [blockRange] after the second are not read, and nothing is bound. *)
Theorem block_range_alone `{PgFormat} `{Humps} `{Constants}
  (table : string) (filters : Filters) (options : option SelectOptions)
  (lo : JsVal) (rest : list JsVal) :
  nth 0 (split "." table) EmptyString <> SPEC_SCHEMA ->
  optionsBlockRange options = lo :: rest ->
  (forall g, In g (truthyGroups filters) -> ordinaryColumns g) ->
  (forall g, In g (truthyGroups filters) ->
     forall k, In k (Object_keys g) -> droppable (obj_get g k) = true) ->
  buildSelectQuery table filters options
  = Ok {| schemaName := nth_error (split "." table) 0;
          tableName := nth_error (split "." table) 1;
          sql := addSelectOptionsToQuery
                   (Txt ("select * from " ++ identPath table)%string
                    :: Txt " where "
                    :: Txt ("block_number >= " ++ literal lo)%string
                    :: match rest with
                       | hi :: _ =>
                           [Txt (" and block_number <= " ++ literal hi)%string]
                       | [] => []
                       end)
                   options;
          bindings := [] |}.
Proof.
  intros Hschema Hrange _ Hdrop.
  rewrite (buildSelectQuery_elsewhere _ _ _ Hschema).
  unfold selectAfterRouting. cbv zeta. rewrite Hrange.
  destruct (groups_droppable_run (truthyGroups filters)
              {| values := []; bindingIndex := 1 |} Hdrop)
    as (andStatements & Hrun & Hnone).
  rewrite Hrun, Hnone. reflexivity.
Qed.

Lemma block_range_alone_witness :
  @buildSelectQuery spec_pgFormat spec_humps spec_constants "public.users"
    (FiltersMap [("id", VUndefined)])
    (Some {| orderBy := None; offset := None; limit := None; chainId := None;
             blockRange := Some [VNum 5; VNum 9; VNum 11] |})
  = Ok {| schemaName := Some "public"; tableName := Some "users";
          sql := [ Txt ("select * from " ++ quote_ident "public" ++ "."
                        ++ quote_ident "users")%string;
                   Txt " where "; Txt "block_number >= 5";
                   Txt " and block_number <= 9" ];
          bindings := [] |}.
Proof.
  apply (@block_range_alone spec_pgFormat spec_humps spec_constants
           "public.users" (FiltersMap [("id", VUndefined)])
           (Some {| orderBy := None; offset := None; limit := None;
                    chainId := None;
                    blockRange := Some [VNum 5; VNum 9; VNum 11] |})
           (VNum 5) [VNum 9; VNum 11]).
  - discriminate.
  - reflexivity.
  - intros g [<-|[]]. ordinary_columns.
  - intros g [<-|[]] k [<-|[]]. reflexivity.
Defined.

(** X4: an [orderBy] whose direction is neither [asc] nor [desc], or whose
    column is the empty string, is dropped without an error: the select is
    the one compiled without [orderBy]. *)
Theorem invalid_order_by_is_ignored `{PgFormat} `{Humps} `{Constants}
  (table : string) (filters : Filters) (o : SelectOptions) (ob : OrderBy) :
  orderBy o = Some ob ->
  string_in (direction ob) OrderByDirection_values = false
  \/ column ob = Column EmptyString ->
  buildSelectQuery table filters (Some o)
  = buildSelectQuery table filters (Some (withoutOrderBy o)).
Proof.
  intros Hob Hbad.
  rewrite !buildSelectQuery_after_routing.
  rewrite (detectSpecSchemaQuery_chainId table (truthyGroups filters)
             (Some (withoutOrderBy o)) (Some o)) by reflexivity.
  destruct (detectSpecSchemaQuery _ _ _) as [[table' groups]|e]; [|reflexivity].
  unfold selectAfterRouting. cbv zeta.
  replace (optionsBlockRange (Some (withoutOrderBy o)))
    with (optionsBlockRange (Some o)) by now destruct o.
  assert (Hsame : forall q, addSelectOptionsToQuery q (Some o)
                            = addSelectOptionsToQuery q (Some (withoutOrderBy o))).
  { intros q. destruct o as [ob' off lim cid br]. cbn [orderBy] in Hob. subst ob'.
    unfold addSelectOptionsToQuery, withoutOrderBy.
    cbn [orderBy offset limit chainId blockRange].
    destruct Hbad as [Hdir | Hcol].
    - rewrite Hdir, andb_false_r. reflexivity.
    - rewrite Hcol. reflexivity. }
  destruct (for_each _ _ _) as [[andStatements st]|e]; [|reflexivity].
  now rewrite !Hsame.
Qed.

Lemma invalid_order_by_is_ignored_witness :
  @buildSelectQuery spec_pgFormat spec_humps spec_constants "public.users"
    (FiltersMap [("id", VNum 1)])
    (Some {| orderBy := Some {| column := Column "createdAt";
                                direction := "sideways" |};
             offset := None; limit := Some (VNum 10); chainId := None;
             blockRange := None |})
  = @buildSelectQuery spec_pgFormat spec_humps spec_constants "public.users"
      (FiltersMap [("id", VNum 1)])
      (Some {| orderBy := None; offset := None; limit := Some (VNum 10);
               chainId := None; blockRange := None |}).
Proof.
  apply (@invalid_order_by_is_ignored spec_pgFormat spec_humps spec_constants
           "public.users" (FiltersMap [("id", VNum 1)])
           {| orderBy := Some {| column := Column "createdAt";
                                 direction := "sideways" |};
              offset := None; limit := Some (VNum 10); chainId := None;
              blockRange := None |}
           {| column := Column "createdAt"; direction := "sideways" |}).
  - reflexivity.
  - left. reflexivity.
Defined.

(** X5: outside the logical schema [options.chainId] is not read: the select
    is the same for every value of it. *)
Theorem chain_id_option_unused_elsewhere `{PgFormat} `{Humps} `{Constants}
  (table : string) (filters : Filters) (o : SelectOptions) (c : option string) :
  nth 0 (split "." table) EmptyString <> SPEC_SCHEMA ->
  buildSelectQuery table filters (Some (withChainId o c))
  = buildSelectQuery table filters (Some o).
Proof.
  intros Hschema.
  rewrite !(buildSelectQuery_elsewhere _ _ _ Hschema).
  now destruct o.
Qed.

Lemma chain_id_option_unused_elsewhere_witness :
  @buildSelectQuery spec_pgFormat spec_humps spec_constants "public.users"
    (FiltersMap [("id", VNum 1)])
    (Some {| orderBy := None; offset := None; limit := None;
             chainId := Some "5"; blockRange := None |})
  = @buildSelectQuery spec_pgFormat spec_humps spec_constants "public.users"
      (FiltersMap [("id", VNum 1)])
      (Some {| orderBy := None; offset := None; limit := None;
               chainId := None; blockRange := None |}).
Proof.
  apply (@chain_id_option_unused_elsewhere spec_pgFormat spec_humps
           spec_constants "public.users" (FiltersMap [("id", VNum 1)])
           {| orderBy := None; offset := None; limit := None;
              chainId := None; blockRange := None |}
           (Some "5")).
  discriminate.
Defined.

(** ** Failures and the sentinel of the router, seen from the select *)

(** X6: a select against the logical schema without a (truthy)
    [options.chainId] throws 'Filters are required ...' when no truthy group
    is left, and 'No <chain id> filter included ...' when the first truthy
    group has no chain id or a falsy one, whatever the other groups hold. *)
Theorem logical_schema_needs_a_chain_id `{PgFormat} `{Humps} `{Constants}
  (table : string) (filters : Filters) (options : option SelectOptions) :
  nth 0 (split "." table) EmptyString = SPEC_SCHEMA ->
  optionsChainId options = None ->
  match truthyGroups filters with
  | [] => buildSelectQuery table filters options = Raise FiltersRequired
  | first :: _ =>
      truthy (obj_get first CHAIN_ID_PROPERTY) = false ->
      buildSelectQuery table filters options = Raise MissingChainIdFilter
  end.
Proof.
  intros Hschema Hopt.
  destruct (truthyGroups filters) as [|first others] eqn:Hgroups.
  - apply buildSelectQuery_router_raise.
    now rewrite Hgroups, (detectSpecSchemaQuery_by_filters _ _ _ Hschema Hopt).
  - intros Hfalsy. apply buildSelectQuery_router_raise.
    now rewrite Hgroups, (detectSpecSchemaQuery_by_filters _ _ _ Hschema Hopt),
      Hfalsy.
Qed.

Lemma logical_schema_needs_a_chain_id_witness :
  @buildSelectQuery spec_pgFormat spec_humps spec_constants "spec.users"
    (FiltersArray [None]) None
  = Raise (Thrown "Filters are required when querying the spec schema")
  /\ @buildSelectQuery spec_pgFormat spec_humps spec_constants "spec.users"
       (FiltersArray [Some [("chainId", VNum 0); ("id", VNum 3)];
                      Some [("chainId", VStr "1")]]) None
     = Raise (Thrown "No chainId filter included with spec schema query").
Proof.
  split.
  - exact (@logical_schema_needs_a_chain_id spec_pgFormat spec_humps
             spec_constants "spec.users" (FiltersArray [None]) None
             eq_refl eq_refl).
  - exact (@logical_schema_needs_a_chain_id spec_pgFormat spec_humps
             spec_constants "spec.users"
             (FiltersArray [Some [("chainId", VNum 0); ("id", VNum 3)];
                            Some [("chainId", VStr "1")]]) None
             eq_refl eq_refl eq_refl).
Defined.



(** ** Groups that give no statement *)

Section GroupsWithoutStatement.

Context `{PgFormat} `{Humps} `{Constants}.

Lemma selectAfterRouting_droppable_group (table : string)
  (before after : list StringKeyMap) (g : StringKeyMap)
  (options : option SelectOptions) :
  (forall k, In k (Object_keys g) -> droppable (obj_get g k) = true) ->
  selectAfterRouting table (before ++ g :: after) options
  = selectAfterRouting table (before ++ after) options.
Proof.
  intros Hdrop. unfold selectAfterRouting. cbv zeta.
  rewrite !map_app, !for_each_app. cbn [map for_each].
  destruct (for_each _ (map formatFilter before) _) as [[bs1 st1]|e];
    [|reflexivity].
  unfold bind.
  destruct (buildAndStatement_droppable (formatFilter g) st1) as (r & Hg & Hr).
  { now apply formatFilter_droppable. }
  rewrite Hg.
  destruct (for_each _ (map formatFilter after) st1) as [[bs2 st2]|e];
    [|reflexivity].
  unfold ret.
  assert (Hkept : List.filter (fun s => negb (String.length (render s) =? 0)%nat)
                    (kept (bs1 ++ r :: bs2))
                  = List.filter (fun s => negb (String.length (render s) =? 0)%nat)
                      (kept (bs1 ++ bs2))).
  { rewrite !kept_app, !filter_app. f_equal.
    destruct Hr as [-> | ->]; reflexivity. }
  now rewrite Hkept.
Qed.

End GroupsWithoutStatement.

(** X8: a select reads its filters through the truthy groups alone: two
    filters values with the same truthy groups compile alike on every table
    and options. So one filter object compiles as the array that holds it,
    [null] and [undefined] as the empty array, and the falsy elements of an
    array are dropped before the router runs. *)
Theorem select_reads_truthy_groups_only `{PgFormat} `{Humps} `{Constants}
  (table : string) (filters filters' : Filters) (options : option SelectOptions) :
  truthyGroups filters = truthyGroups filters' ->
  buildSelectQuery table filters options = buildSelectQuery table filters' options.
Proof.
  intros Hsame. rewrite !buildSelectQuery_after_routing. now rewrite Hsame.
Qed.

Lemma select_reads_truthy_groups_only_witness :
  @buildSelectQuery spec_pgFormat spec_humps spec_constants "public.users"
    (FiltersMap [("id", VNum 3)]) None
  = @buildSelectQuery spec_pgFormat spec_humps spec_constants "public.users"
      (FiltersArray [None; Some [("id", VNum 3)]; None]) None.
Proof.
  apply (@select_reads_truthy_groups_only spec_pgFormat spec_humps
           spec_constants "public.users" (FiltersMap [("id", VNum 3)])
           (FiltersArray [None; Some [("id", VNum 3)]; None]) None).
  reflexivity.
Defined.

(** X9: outside the logical schema a group whose values are all droppable,
    under keys that are not renamed to [__proto__] (among them the empty
    group), adds no [or] branch and no binding: the select is the one
    compiled without that group, wherever it stands in the array. *)
Theorem droppable_group_is_ignored `{PgFormat} `{Humps} `{Constants}
  (table : string) (before after : list (option StringKeyMap))
  (g : StringKeyMap) (options : option SelectOptions) :
  nth 0 (split "." table) EmptyString <> SPEC_SCHEMA ->
  ordinaryColumns g ->
  (forall k, In k (Object_keys g) -> droppable (obj_get g k) = true) ->
  buildSelectQuery table (FiltersArray (before ++ Some g :: after)) options
  = buildSelectQuery table (FiltersArray (before ++ after)) options.
Proof.
  intros Hschema _ Hdrop.
  rewrite !(buildSelectQuery_elsewhere _ _ _ Hschema). cbn [truthyGroups].
  rewrite !kept_app. cbn [kept].
  now apply selectAfterRouting_droppable_group.
Qed.

Lemma droppable_group_is_ignored_witness :
  @buildSelectQuery spec_pgFormat spec_humps spec_constants "public.users"
    (FiltersArray [Some [("id", VNum 3)]; Some [("name", VUndefined)];
                   Some [("age", VNum 4)]]) None
  = @buildSelectQuery spec_pgFormat spec_humps spec_constants "public.users"
      (FiltersArray [Some [("id", VNum 3)]; Some [("age", VNum 4)]]) None.
Proof.
  apply (@droppable_group_is_ignored spec_pgFormat spec_humps spec_constants
           "public.users" [Some [("id", VNum 3)]] [Some [("age", VNum 4)]]
           [("name", VUndefined)] None).
  - discriminate.
  - ordinary_columns.
  - intros k [<-|[]]. reflexivity.
Defined.

(** ** The superseded select *)

Section SupersededSelect.

Context `{PgFormat} `{Humps} `{Constants}.

(** The superseded copy runs the loop on every element of the array; the
    falsy ones give the empty group, which gives [null]. *)
Lemma formatGroup_run (groups : list (option StringKeyMap)) (st : Bindings) :
  match for_each (fun inclusiveFilters => buildAndStatement (Some inclusiveFilters))
          (map formatFilter (kept groups)) st,
        for_each (fun inclusiveFilters => buildAndStatement (Some inclusiveFilters))
          (map formatGroup groups) st with
  | Ok (a, s), Ok (a', s') => s = s' /\ kept a = kept a'
  | Raise e, Raise e' => e = e'
  | _, _ => False
  end.
Proof.
  revert st. induction groups as [|[m|] groups IH]; intros st;
    cbn [kept map for_each formatGroup].
  - unfold ret. auto.
  - unfold bind.
    destruct (buildAndStatement (Some (formatFilter m)) st) as [[r st1]|e];
      [|reflexivity].
    specialize (IH st1).
    destruct (for_each _ (map formatFilter (kept groups)) st1) as [[a s]|e];
      destruct (for_each _ (map formatGroup groups) st1) as [[a' s']|e'];
      try contradiction; [|exact IH].
    unfold ret. destruct IH as [-> Hkept]. split; [reflexivity|].
    destruct r; cbn [kept]; now rewrite Hkept.
  - unfold bind. change (buildAndStatement (Some []) st) with (Ok (@None Sql, st)).
    cbv iota beta. specialize (IH st).
    destruct (for_each _ (map formatFilter (kept groups)) st) as [[a s]|e];
      destruct (for_each _ (map formatGroup groups) st) as [[a' s']|e'];
      try contradiction; [|exact IH].
    unfold ret. destruct IH as [-> Hkept]. split; [reflexivity|exact Hkept].
Qed.

Lemma orClause_whereClause (orStatements : list Sql) :
  orStatements <> [] ->
  whereClause (blockRangeGroup [] ++ orGroup orStatements) = orClause orStatements.
Proof. destruct orStatements as [|s [|s' rest]]; [congruence|reflexivity..]. Qed.

End SupersededSelect.

(** X10: outside the logical schema and without a block range, the
    superseded copy of [buildSelectQuery] kept in the file compiles every
    filters value to the same sql and bindings as the current one, and fails
    where it fails; its payload has no schema name nor table name. *)
Theorem superseded_select_agrees `{PgFormat} `{Humps} `{Constants}
  (table : string) (filters : Filters) (options : option SelectOptions) :
  nth 0 (split "." table) EmptyString <> SPEC_SCHEMA ->
  optionsBlockRange options = [] ->
  buildSelectQuery_superseded table filters options
  = match buildSelectQuery table filters options with
    | Raise e => Raise e
    | Ok p => Ok {| schemaName := None; tableName := None;
                    sql := sql p; bindings := bindings p |}
    end.
Proof.
  intros Hschema Hrange.
  rewrite (buildSelectQuery_elsewhere _ _ _ Hschema).
  unfold selectAfterRouting, buildSelectQuery_superseded. cbv zeta.
  rewrite Hrange. cbn [List.length Nat.eqb].
  assert (Hfinish : forall a a' s,
            kept a = kept a' ->
            (let orStatements :=
               List.filter (fun s => negb (String.length (render s) =? 0)%nat)
                 (kept a') in
             if (List.length orStatements =? 0)%nat
             then Ok {| schemaName := None; tableName := None;
                        sql := addSelectOptionsToQuery
                                 [Txt ("select * from " ++ identPath table)%string]
                                 options;
                        bindings := [] |}
             else Ok {| schemaName := None; tableName := None;
                        sql := addSelectOptionsToQuery
                                 ([Txt ("select * from " ++ identPath table)%string]
                                  ++ Txt " where " :: orClause orStatements)
                                 options;
                        bindings := values s |})
            = match
                (let orStatements :=
                   List.filter (fun s => negb (String.length (render s) =? 0)%nat)
                     (kept a) in
                 if (List.length orStatements =? 0)%nat && true
                 then Ok {| schemaName := nth_error (split "." table) 0;
                            tableName := nth_error (split "." table) 1;
                            sql := addSelectOptionsToQuery
                                     [Txt ("select * from " ++ identPath table)%string]
                                     options;
                            bindings := [] |}
                 else Ok {| schemaName := nth_error (split "." table) 0;
                            tableName := nth_error (split "." table) 1;
                            sql := addSelectOptionsToQuery
                                     ([Txt ("select * from " ++ identPath table)%string]
                                      ++ Txt " where "
                                      :: whereClause (blockRangeGroup []
                                                      ++ orGroup orStatements))
                                     options;
                            bindings := values s |})
              with
              | Raise e => Raise e
              | Ok p => Ok {| schemaName := None; tableName := None;
                              sql := sql p; bindings := bindings p |}
              end).
  { intros a a' s ->. cbv zeta. rewrite andb_true_r.
    destruct (List.filter _ _) as [|q qs] eqn:Hors; [reflexivity|].
    cbn [List.length Nat.eqb sql bindings].
    now rewrite orClause_whereClause. }
  destruct filters as [| |m|groups]; cbn [truthyGroups map for_each kept].
  - reflexivity.
  - reflexivity.
  - unfold bind, ret.
    destruct (List.length (Object_keys m) =? 0)%nat eqn:Hkeys.
    + destruct m; [reflexivity|discriminate].
    + cbn [formatGroup].
      destruct (buildAndStatement (Some (formatFilter m)) _) as [[r st]|e];
        [|reflexivity].
      now apply (Hfinish [r] [r] st).
  - destruct groups as [|g groups]; [reflexivity|].
    cbn [List.length Nat.eqb].
    pose proof (formatGroup_run (g :: groups) {| values := []; bindingIndex := 1 |})
      as Hrun.
    destruct (for_each _ (map formatFilter (kept (g :: groups))) _) as [[a s]|e];
      destruct (for_each _ (map formatGroup (g :: groups)) _) as [[a' s']|e'];
      try contradiction; [|now subst].
    destruct Hrun as [<- Hkept]. now apply Hfinish.
Qed.

Lemma superseded_select_agrees_witness :
  @buildSelectQuery_superseded spec_pgFormat spec_humps "public.users"
    (FiltersArray [None; Some [("userId", VNum 3)]]) None
  = Ok {| schemaName := None; tableName := None;
          sql := [ Txt ("select * from " ++ quote_ident "public" ++ "."
                        ++ quote_ident "users")%string;
                   Txt " where "; Txt (quote_ident "user_id"); Txt " ";
                   Txt "="; Txt " "; Param 1 (VNum 3) ];
          bindings := [VNum 3] |}.
Proof.
  apply (@superseded_select_agrees spec_pgFormat spec_humps spec_constants
           "public.users" (FiltersArray [None; Some [("userId", VNum 3)]]) None).
  - discriminate.
  - reflexivity.
Defined.

(** ** [buildAndStatement] on an accumulator that is already in use *)

(** X11: called on any accumulator, [buildAndStatement] only appends to
    [values]: what was bound before stays in place, the counter advances by
    the number of values pushed, and the placeholders of the statement are
    the consecutive numbers from the counter it was given, each printed for
    the value pushed with it. When it returns [null] the accumulator is
    untouched. *)
Theorem and_statement_extends_accumulator `{PgFormat}
  (filtersMap : option StringKeyMap) (st st' : Bindings) (r : option Sql) :
  buildAndStatement filtersMap st = Ok (r, st') ->
  (exists pushed,
     values st' = values st ++ pushed
     /\ bindingIndex st' = bindingIndex st + List.length pushed
     /\ placeholders_of r
        = combine (seq (bindingIndex st) (List.length pushed)) pushed)
  /\ (r = None -> st' = st).
Proof.
  intros Hrun.
  destruct (buildAndStatement_emitted _ _ _ _ Hrun) as (pushed & Hv & Hi & Hp).
  split; [now exists pushed|].
  intros ->. cbn [placeholders_of] in Hp.
  assert (Hnone : pushed = []).
  { destruct pushed as [|v pushed]; [reflexivity|]. discriminate Hp. }
  subst pushed. rewrite app_nil_r in Hv. cbn [List.length] in Hi.
  rewrite Nat.add_0_r in Hi.
  destruct st, st'. cbn [values bindingIndex] in *. now subst.
Qed.

Lemma and_statement_extends_accumulator_witness :
  exists pushed,
    [VStr "a"; VNum 3; VNum 4] = [VStr "a"] ++ pushed
    /\ 4 = 2 + List.length pushed
    /\ placeholders_of
         (Some [ Txt (quote_ident "id"); Txt " "; Txt "in"; Txt " ";
                 Txt "("; Param 2 (VNum 3); Txt ", "; Param 3 (VNum 4);
                 Txt ")" ])
       = combine (seq 2 (List.length pushed)) pushed.
Proof.
  exact (proj1
           (@and_statement_extends_accumulator spec_pgFormat
              (Some [("id", VArr [VNum 3; VNum 4])])
              {| values := [VStr "a"]; bindingIndex := 2 |}
              {| values := [VStr "a"; VNum 3; VNum 4]; bindingIndex := 4 |}
              (Some [ Txt (quote_ident "id"); Txt " "; Txt "in"; Txt " ";
                      Txt "("; Param 2 (VNum 3); Txt ", "; Param 3 (VNum 4);
                      Txt ")" ])
              eq_refl)).
Defined.

(** ** Failures and variants of the upsert *)

(** X12: [buildUpsertQuery] fails in two cases only, and so does its
    superseded copy: a TypeError on an empty [data] array (the keys of
    [data[0]] are read), and 'No values to upsert' when the first row has no
    key. On every other input it returns a payload. *)
Theorem upsert_failures `{PgFormat} `{Humps}
  (table : string) (data : UpsertData)
  (conflictColumns updateColumns : list string)
  (primaryTimestampColumn : option string) (returning : option Returning) :
  let current :=
    buildUpsertQuery table data conflictColumns updateColumns
      primaryTimestampColumn returning in
  let superseded :=
    buildUpsertQuery_superseded table data conflictColumns updateColumns
      primaryTimestampColumn returning in
  match rowsOf data with
  | [] => current = Raise TypeError /\ superseded = Raise TypeError
  | first :: _ =>
      match Object_keys first with
      | [] => current = Raise (Thrown "No values to upsert")
              /\ superseded = Raise (Thrown "No values to upsert")
      | _ :: _ => (exists p, current = Ok p) /\ (exists p, superseded = Ok p)
      end
  end.
Proof.
  cbv zeta. unfold buildUpsertQuery, buildUpsertQuery_superseded.
  destruct (rowsOf data) as [|first rest] eqn:Hrows.
  - unfold upsertStatement. cbv zeta. rewrite Hrows. auto.
  - destruct (Object_keys first) as [|k ks] eqn:Hkeys.
    + unfold upsertStatement. cbv zeta. rewrite Hrows, Hkeys. auto.
    + assert (Hne : Object_keys first <> []) by (rewrite Hkeys; discriminate).
      rewrite !(upsertStatement_run _ _ _ _ _ _ _ first rest Hrows Hne).
      split; eexists; reflexivity.
Qed.

(** X13: with an empty [updateColumns] the upsert ends in [do nothing] right
    after the conflict target and returns at once: the timestamp column and
    [returning] are not read, so no guard and no [returning] clause is
    printed. *)
Theorem upsert_without_update_columns `{PgFormat} `{Humps}
  (table : string) (data : UpsertData) (conflictColumns : list string)
  (primaryTimestampColumn : option string) (returning : option Returning) :
  buildUpsertQuery table data conflictColumns [] primaryTimestampColumn returning
  = buildUpsertQuery table data conflictColumns [] None None
  /\ forall p,
       buildUpsertQuery table data conflictColumns [] primaryTimestampColumn
         returning = Ok p ->
       exists first rest,
         rowsOf data = first :: rest
         /\ sql p
            = insertClause table (sort (Object_keys first))
              ++ Txt " values "
                 :: sql_join ", "
                      (rowsFrom (sort (Object_keys first)) 1 (first :: rest))
              ++ conflictClause conflictColumns ++ [Txt " do nothing"].
Proof.
  split; [reflexivity|].
  intros p. unfold buildUpsertQuery.
  destruct (upsertStatement _ _ _ _ _ _ _) as [[q bs]|e] eqn:Hrun; [|discriminate].
  intros Heq. injection Heq as <-. cbn [sql].
  destruct (upsertStatement_ok_inv _ _ _ _ _ _ _ _ Hrun)
    as (first & rest & Hrows & Hkeys).
  exists first, rest. split; [exact Hrows|].
  rewrite (upsertStatement_run _ _ _ _ _ _ _ first rest Hrows Hkeys) in Hrun.
  now injection Hrun as <- _.
Qed.

(** X14: the two copies of [buildUpsertQuery] differ in the comparison of the
    timestamp guard and in the names of the payload only: when no guard is
    printed (no timestamp column, an empty one, or no update column) the
    superseded copy returns the sql and bindings of the current one, and
    fails where it fails. *)
Theorem upsert_copies_agree_without_guard `{PgFormat} `{Humps}
  (table : string) (data : UpsertData)
  (conflictColumns updateColumns : list string)
  (primaryTimestampColumn : option string) (returning : option Returning) :
  primaryTimestampColumn = None \/ primaryTimestampColumn = Some EmptyString
  \/ updateColumns = [] ->
  buildUpsertQuery_superseded table data conflictColumns updateColumns
    primaryTimestampColumn returning
  = match buildUpsertQuery table data conflictColumns updateColumns
            primaryTimestampColumn returning with
    | Raise e => Raise e
    | Ok p => Ok {| schemaName := None; tableName := None;
                    sql := sql p; bindings := bindings p |}
    end.
Proof.
  intros Hguard.
  assert (Hsame : upsertStatement ">=" table data conflictColumns updateColumns
                    primaryTimestampColumn returning
                  = upsertStatement "<=" table data conflictColumns updateColumns
                      primaryTimestampColumn returning).
  { unfold upsertStatement.
    destruct Hguard as [-> | [-> | ->]]; reflexivity. }
  unfold buildUpsertQuery, buildUpsertQuery_superseded. rewrite Hsame.
  clear Hsame.
  now destruct (upsertStatement _ _ _ _ _ _ _) as [[q bs]|e].
Qed.

Lemma upsert_copies_agree_without_guard_witness :
  @buildUpsertQuery_superseded spec_pgFormat spec_humps "public.users"
    (Rows [[("id", VNum 1); ("name", VStr "a")]]) ["id"] ["name"]
    (Some EmptyString) (Some (ReturningOne "*"))
  = match @buildUpsertQuery spec_pgFormat spec_humps "public.users"
            (Rows [[("id", VNum 1); ("name", VStr "a")]]) ["id"] ["name"]
            (Some EmptyString) (Some (ReturningOne "*")) with
    | Raise e => Raise e
    | Ok p => Ok {| schemaName := None; tableName := None;
                    sql := sql p; bindings := bindings p |}
    end.
Proof.
  apply (@upsert_copies_agree_without_guard spec_pgFormat spec_humps
           "public.users" (Rows [[("id", VNum 1); ("name", VStr "a")]])
           ["id"] ["name"] (Some EmptyString) (Some (ReturningOne "*"))).
  right. left. reflexivity.
Defined.

(** ** Renaming the keys of a filter group *)

Section FormatFilter.

Context `{Humps}.

Lemma formatFilter_fold_entries (filter : StringKeyMap) (entries : StringKeyMap) :
  NoDup (map toSnakeCase (Object_keys entries)) ->
  ordinaryColumns entries ->
  (forall k v, In (k, v) entries -> obj_get filter k = v) ->
  forall acc : StringKeyMap,
    (forall k, In k (Object_keys entries) ->
       ~ In (toSnakeCase k) (Object_keys acc)) ->
    fold_left
      (fun formatted propertyName =>
         assign formatted (toSnakeCase propertyName)
           (obj_get filter propertyName))
      (Object_keys entries) acc
    = acc ++ map (fun kv => (toSnakeCase (fst kv), snd kv)) entries.
Proof.
  induction entries as [|[k v] entries IH];
    intros Hnodup Hordinary Hget acc Hfresh;
    cbn [Object_keys map fst snd fold_left] in *.
  - now rewrite app_nil_r.
  - inversion Hnodup as [|? ? Hnotin Hnodup']; subst.
    rewrite assign_ordinary by (apply Hordinary; now left).
    rewrite dict_set_fresh by (apply Hfresh; now left).
    rewrite (Hget k v) by now left.
    rewrite IH; auto.
    + now rewrite <- app_assoc.
    + intros k' Hin. apply Hordinary. now right.
    + intros k' v' Hin. apply Hget. now right.
    + intros k' Hin. unfold Object_keys. rewrite map_app, in_app_iff.
      cbn [map fst]. intros [Hacc|[Heq|[]]].
      * apply (Hfresh k'); [now right|exact Hacc].
      * apply Hnotin. rewrite Heq. now apply in_map.
Qed.


End FormatFilter.

Lemma formatFilter_renames_in_place_for `{Humps} (filter : StringKeyMap) :
  NoDup (map toSnakeCase (Object_keys filter)) ->
  ordinaryColumns filter ->
  formatFilter filter
  = map (fun kv => (toSnakeCase (fst kv), snd kv)) filter.
Proof.
  intros Hnodup Hordinary. unfold formatFilter.
  rewrite (formatFilter_fold_entries filter filter Hnodup Hordinary);
    [reflexivity| |].
  - apply obj_get_of_entry. now apply NoDup_map_inv in Hnodup.
  - intros k _ [].
Qed.

(** X15: when no two keys of a filter group normalize to the same column
    name, and none to [__proto__], the renamed group that [buildSelectQuery]
    compiles has one entry per entry of the group, in the same order, with
    the key normalized and the value untouched. *)
Theorem formatFilter_renames_in_place `{Humps} (filter : StringKeyMap) :
  NoDup (map toSnakeCase (Object_keys filter)) ->
  ordinaryColumns filter ->
  formatFilter filter = renamed filter.
Proof.
  intros Hnodup Hordinary. unfold formatFilter, renamed.
  rewrite (formatFilter_fold_entries filter filter Hnodup Hordinary);
    [reflexivity| |].
  - apply obj_get_of_entry. now apply NoDup_map_inv in Hnodup.
  - intros k _ [].
Qed.

Lemma formatFilter_renames_in_place_witness :
  @formatFilter spec_humps [("userId", VNum 1); ("createdAt", VNum 2)]
  = [("user_id", VNum 1); ("created_at", VNum 2)].
Proof.
  apply (@formatFilter_renames_in_place spec_humps
           [("userId", VNum 1); ("createdAt", VNum 2)]).
  - vm_compute. distinct_strings.
  - ordinary_columns.
Defined.



(** A scalar under the key [__proto__] is not copied by the renaming loop:
    the select has no predicate for it. *)
Example proto_scalar_is_not_renamed :
  @formatFilter spec_humps [("__proto__", VNum 5); ("id", VNum 1)]
  = [("id", VNum 1)]
  /\ compiled
       (@buildSelectQuery spec_pgFormat spec_humps spec_constants "public.users"
          (FiltersMap [("__proto__", VNum 5); ("id", VNum 1)]) None)
     = Some (("select * from " ++ quote_ident "public" ++ "."
              ++ quote_ident "users" ++ " where " ++ quote_ident "id"
              ++ " = $1")%string,
             [VNum 1]).
Proof. split; reflexivity. Qed.

(** ** The inverted chain table (src/lib/chains.ts) *)





(** ** The de-acronym pass *)

Lemma not_upper_case_is_fixed (c : ascii) :
  isUpperCase c = false -> char_toLowerCase c = c.
Proof.
  destruct c as [[] [] [] [] [] [] [] []]; vm_compute; congruence.
Qed.

Lemma removeAcronymFromCamel_from_case (s : string) (prevChar : option ascii) :
  toLowerCase (removeAcronymFromCamel_from prevChar s) = toLowerCase s
  /\ String.length (removeAcronymFromCamel_from prevChar s) = String.length s.
Proof.
  revert prevChar. induction s as [|c s IH]; intros prevChar;
    cbn [removeAcronymFromCamel_from toLowerCase String.length]; [auto|].
  destruct (IH (Some c)) as [-> ->]. split; [|reflexivity].
  destruct (_ && _ && _); [|reflexivity].
  now rewrite char_toLowerCase_idem.
Qed.

(** X18: on a name of characters below U+0100, [removeAcronymFromCamel]
    changes the case of characters and nothing else: its result has the
    length of the input, equals it up to case, and starts with the same
    character. (Lowering a character from U+0100 on can give more than one
    character; such names are outside the model.) *)
Theorem removeAcronymFromCamel_changes_case_only (val : string) :
  toLowerCase (removeAcronymFromCamel val) = toLowerCase val
  /\ String.length (removeAcronymFromCamel val) = String.length val
  /\ String.get 0 (removeAcronymFromCamel val) = String.get 0 val.
Proof.
  unfold removeAcronymFromCamel.
  destruct (removeAcronymFromCamel_from_case val None) as [Hcase Hlen].
  repeat split; [exact Hcase|exact Hlen|].
  now destruct val.
Qed.

(** X19: a name in which no two adjacent characters both pass the uppercase
    test (so no acronym, and no uppercase letter next to a digit or a
    separator) is returned unchanged. *)
Theorem removeAcronymFromCamel_fixes_plain_camel (val : string) :
  adjacentUpperCase None val = false ->
  removeAcronymFromCamel val = val.
Proof.
  unfold removeAcronymFromCamel. generalize (@None ascii) as prevChar.
  induction val as [|c val IH]; intros prevChar Hplain;
    cbn [removeAcronymFromCamel_from adjacentUpperCase] in *; [reflexivity|].
  apply orb_false_iff in Hplain as [Hhere Hrest].
  rewrite (IH _ Hrest). f_equal.
  destruct prevChar as [p|]; [|reflexivity].
  now rewrite Hhere.
Qed.

Lemma removeAcronymFromCamel_fixes_plain_camel_witness :
  removeAcronymFromCamel "createdAt" = "createdAt".
Proof.
  apply (removeAcronymFromCamel_fixes_plain_camel "createdAt"). reflexivity.
Defined.

Lemma removeAcronymFromCamel_from_upper (s : string) (p : ascii) :
  isUpperCase p = true ->
  everyUpperCase s = true ->
  removeAcronymFromCamel_from (Some p) s = toLowerCase s.
Proof.
  revert p. induction s as [|c s IH]; intros p Hp Hall;
    cbn [removeAcronymFromCamel_from toLowerCase everyUpperCase] in *;
    [reflexivity|].
  apply andb_true_iff in Hall as [Hc Hs].
  rewrite (IH c Hc Hs), Hp, Hc. f_equal.
  destruct s as [|n s]; [reflexivity|].
  cbn [everyUpperCase] in Hs. apply andb_true_iff in Hs as [Hn _].
  now rewrite Hn.
Qed.

(** X20: a name of characters below U+0100 in which every character equals
    its own uppercase (uppercase letters, digits, signs; no lowercase
    letter of ASCII or Latin-1) keeps its first character and has every
    other one in lowercase: an acronym is folded into one capitalized
    word. *)
Theorem removeAcronymFromCamel_folds_acronym (c : ascii) (rest : string) :
  everyUpperCase (String c rest) = true ->
  removeAcronymFromCamel (String c rest) = String c (toLowerCase rest).
Proof.
  cbn [everyUpperCase]. intros Hall. apply andb_true_iff in Hall as [Hc Hrest].
  unfold removeAcronymFromCamel. cbn [removeAcronymFromCamel_from andb].
  now rewrite (removeAcronymFromCamel_from_upper rest c Hc Hrest).
Qed.

Lemma removeAcronymFromCamel_folds_acronym_witness :
  removeAcronymFromCamel "HTTP2" = "Http2".
Proof.
  apply (removeAcronymFromCamel_folds_acronym "H" "TTP2"). reflexivity.
Defined.

Lemma removeAcronymFromCamel_from_idem (s : string) (prevChar prevChar' : option ascii) :
  match prevChar, prevChar' with
  | None, None => True
  | Some p, Some p' => p' = p \/ p' = char_toLowerCase p
  | _, _ => False
  end ->
  removeAcronymFromCamel_from prevChar' (removeAcronymFromCamel_from prevChar s)
  = removeAcronymFromCamel_from prevChar s.
Proof.
  revert prevChar prevChar'.
  induction s as [|c s IH]; intros prevChar prevChar' Hrel;
    [reflexivity|].
  cbn [removeAcronymFromCamel_from].
  set (prevUp := match prevChar with Some p => isUpperCase p | None => false end).
  set (prevUp' := match prevChar' with Some p => isUpperCase p | None => false end).
  assert (Hprev : prevUp = false -> prevUp' = false).
  { unfold prevUp, prevUp'.
    destruct prevChar as [p|], prevChar' as [p'|]; try contradiction; [|auto].
    intros Hp. destruct Hrel as [-> | ->]; [exact Hp|].
    now rewrite (not_upper_case_is_fixed p Hp). }
  set (nextUp := match s with String n _ => isUpperCase n | EmptyString => false end).
  set (isLast := match s with EmptyString => true | String _ _ => false end).
  assert (IHlow : removeAcronymFromCamel_from (Some (char_toLowerCase c))
                    (removeAcronymFromCamel_from (Some c) s)
                  = removeAcronymFromCamel_from (Some c) s)
    by (apply IH; now right).
  assert (IHsame : removeAcronymFromCamel_from (Some c)
                     (removeAcronymFromCamel_from (Some c) s)
                   = removeAcronymFromCamel_from (Some c) s)
    by (apply IH; now left).
  clear IH.
  set (tail := removeAcronymFromCamel_from (Some c) s) in *.
  assert (Hnext : match tail with String n _ => isUpperCase n | EmptyString => false end
                  = true ->
                  isUpperCase c = true -> nextUp = true).
  { unfold tail, nextUp. destruct s as [|n s']; [discriminate|].
    cbn [removeAcronymFromCamel_from].
    destruct (isUpperCase n) eqn:Hn; [reflexivity|].
    rewrite andb_false_r. cbn [andb]. now rewrite Hn. }
  assert (Hlast : match tail with EmptyString => true | String _ _ => false end
                  = isLast).
  { unfold tail, isLast. now destruct s. }
  rewrite Hlast.
  destruct (prevUp && isUpperCase c && (nextUp || isLast)) eqn:Hcond.
  - (* the character was lowered: lowering it again changes nothing *)
    rewrite char_toLowerCase_idem, IHlow.
    match goal with |- context [if ?b then _ else _] => destruct b end;
      reflexivity.
  - rewrite IHsame.
    f_equal.
    destruct (prevUp' && isUpperCase c && (_ || isLast)) eqn:Hcond';
      [|reflexivity].
    exfalso.
    apply andb_true_iff in Hcond' as [Hpc Hn'].
    apply andb_true_iff in Hpc as [Hp' Hc].
    rewrite Hc, andb_true_r in Hcond.
    destruct prevUp eqn:Hp; [|rewrite (Hprev eq_refl) in Hp'; discriminate].
    cbn [andb] in Hcond. apply orb_false_iff in Hcond as [Hn Hl].
    rewrite Hl, orb_false_r in Hn'.
    rewrite (Hnext Hn' Hc) in Hn. discriminate.
Qed.

(** X21: [removeAcronymFromCamel] is idempotent: a second pass over its
    result changes nothing. *)
Theorem removeAcronymFromCamel_idempotent (val : string) :
  removeAcronymFromCamel (removeAcronymFromCamel val) = removeAcronymFromCamel val.
Proof.
  unfold removeAcronymFromCamel.
  now apply removeAcronymFromCamel_from_idem.
Qed.

(** Names with letters of the Latin-1 supplement: U+00E9 is a lowercase
    letter, so the capital after it starts a word and is kept; U+00C9 is an
    uppercase letter, so the capitals after it are folded. *)
Example removeAcronymFromCamel_latin1 :
  removeAcronymFromCamel (String (ascii_of_nat 233) "A")
  = String (ascii_of_nat 233) "A"
  /\ removeAcronymFromCamel (String (ascii_of_nat 201) "AB")
     = String (ascii_of_nat 201) "ab".
Proof. split; reflexivity. Qed.

(** ** Dotted paths *)

Lemma split_nonempty (sep : ascii) (s : string) : split sep s <> [].
Proof.
  induction s as [|c s IH]; cbn [split]; [discriminate|].
  destruct (Ascii.eqb c sep); [discriminate|].
  now destruct (split sep s).
Qed.

Lemma split_app_sep (sep : ascii) (a b : string) :
  split sep (a ++ String sep b)%string = split sep a ++ split sep b.
Proof.
  induction a as [|c a IH]; cbn [String.append split].
  - now rewrite Ascii.eqb_refl.
  - rewrite IH. destruct (Ascii.eqb c sep); [reflexivity|].
    pose proof (split_nonempty sep a) as Hne.
    now destruct (split sep a).
Qed.

Lemma split_without_sep (sep : ascii) (s : string) :
  includes sep s = false -> split sep s = [s].
Proof.
  induction s as [|c s IH]; cbn [includes split]; [reflexivity|].
  intros Hno. apply orb_false_iff in Hno as [Hc Hs].
  now rewrite Hc, (IH Hs).
Qed.

Lemma concat_app (sep : string) (l1 l2 : list string) :
  l1 <> [] -> l2 <> [] ->
  String.concat sep (l1 ++ l2)
  = (String.concat sep l1 ++ sep ++ String.concat sep l2)%string.
Proof.
  intros Hl1 Hl2. induction l1 as [|x l1 IH]; [congruence|].
  destruct l1 as [|y l1].
  - destruct l2 as [|z l2]; [congruence|]. reflexivity.
  - change (String.concat sep ((x :: y :: l1) ++ l2))
      with (x ++ sep ++ String.concat sep ((y :: l1) ++ l2))%string.
    rewrite IH by discriminate.
    change (String.concat sep (x :: y :: l1))
      with (x ++ sep ++ String.concat sep (y :: l1))%string.
    now rewrite !string_append_assoc.
Qed.

(** X22: [identPath] quotes a dotted path segment by segment: the path
    [a.b] gives the path of [a], a dot, and the path of [b] (the column
    reference of the timestamp guard is the table's path followed by the
    column's), and a name without a dot is passed to [ident] whole. *)
Theorem identPath_by_segment `{PgFormat} :
  (forall a b : string,
     identPath (a ++ "." ++ b) = (identPath a ++ "." ++ identPath b)%string)
  /\ (forall name : string, includes "." name = false -> identPath name = ident name).
Proof.
  split.
  - intros a b. unfold identPath, join.
    change (a ++ "." ++ b)%string with (a ++ String "." b)%string.
    rewrite split_app_sep, map_app.
    apply concat_app.
    + pose proof (split_nonempty "." a). now destruct (split "." a).
    + pose proof (split_nonempty "." b). now destruct (split "." b).
  - intros name Hno. unfold identPath, join.
    now rewrite (split_without_sep _ _ Hno).
Qed.

(** ** When [buildAndStatement] throws *)

Section AndStatementFailures.

Context `{PgFormat}.

Lemma andEntry_throws (filtersMap : StringKeyMap) (colPath : string) (st : Bindings) :
  entryThrows (obj_get filtersMap colPath) = true ->
  andEntry filtersMap colPath st = Raise TypeError.
Proof.
  unfold andEntry, bind, lift.
  destruct (obj_get filtersMap colPath) as [| | b | n | s | items | props];
    cbn [entryThrows Array_isArray typeof_object negb andb filterObjectShape];
    try discriminate; [reflexivity|].
  intros Hthrows. apply andb_true_iff in Hthrows as [-> ->]. reflexivity.
Qed.

Lemma andEntry_returns (filtersMap : StringKeyMap) (colPath : string) (st : Bindings) :
  entryThrows (obj_get filtersMap colPath) = false ->
  exists r st', andEntry filtersMap colPath st = Ok (r, st').
Proof.
  intros Hvalue. unfold andEntry, bind, lift.
  set (value := obj_get filtersMap colPath) in *.
  assert (Hshape : exists b,
             (if negb (Array_isArray value) && typeof_object value
              then filterObjectShape value else Ok false) = Ok b).
  { destruct value as [| | b | n | s | items | props];
      cbn [entryThrows Array_isArray typeof_object negb andb filterObjectShape]
        in *;
      try discriminate; eauto.
    destruct (truthy _); [|eauto]. cbn [andb] in Hvalue. rewrite Hvalue. eauto. }
  destruct Hshape as (b & ->).
  destruct (skipEntry _ _ _ _); [unfold ret; eauto|].
  destruct (operatorAndValue _ _ _ _) as [op value'].
  destruct (filterOp_of op); [|unfold ret; eauto].
  rewrite valuePlaceholder_run. unfold ret. eauto.
Qed.

Lemma for_each_andEntry_throws (filtersMap : StringKeyMap) (keys : list string)
  (st : Bindings) :
  (exists k, In k keys /\ entryThrows (obj_get filtersMap k) = true) ->
  for_each (andEntry filtersMap) keys st = Raise TypeError.
Proof.
  revert st. induction keys as [|k0 keys IH]; intros st (k & Hin & Hthrows);
    [contradiction|].
  cbn [for_each]. unfold bind.
  destruct (entryThrows (obj_get filtersMap k0)) eqn:Hk0.
  - now rewrite (andEntry_throws _ _ _ Hk0).
  - destruct (andEntry_returns _ _ st Hk0) as (r & st' & ->).
    destruct Hin as [-> | Hin]; [congruence|].
    rewrite IH; [reflexivity|]. now exists k.
Qed.

Lemma for_each_andEntry_returns (filtersMap : StringKeyMap) (keys : list string)
  (st : Bindings) :
  (forall k, In k keys -> entryThrows (obj_get filtersMap k) = false) ->
  exists rs st', for_each (andEntry filtersMap) keys st = Ok (rs, st').
Proof.
  revert st. induction keys as [|k0 keys IH]; intros st Hvalues;
    cbn [for_each]; [unfold ret; eauto|].
  unfold bind.
  destruct (andEntry_returns _ _ st (Hvalues k0 (or_introl eq_refl)))
    as (r & st' & ->).
  destruct (IH st') as (rs & st'' & ->);
    [intros k Hin; apply Hvalues; now right|].
  unfold ret. eauto.
Qed.

End AndStatementFailures.

(** X23: on a group that is a plain object, [buildAndStatement] throws
    exactly when some value of the group is [null], or is an object with a
    truthy [op] and a property [hasOwnProperty] of its own: then it throws a
    TypeError, whatever the other entries are ([value.op] of [null] is read,
    and [value.hasOwnProperty] is called, before the test that would skip
    the entry); on every other group it returns. *)
Theorem and_statement_failures `{PgFormat}
  (filtersMap : StringKeyMap) (st : Bindings) :
  ((exists k, In k (Object_keys filtersMap)
              /\ entryThrows (obj_get filtersMap k) = true) ->
   buildAndStatement (Some filtersMap) st = Raise TypeError)
  /\ ((forall k, In k (Object_keys filtersMap) ->
                 entryThrows (obj_get filtersMap k) = false) ->
      exists r st', buildAndStatement (Some filtersMap) st = Ok (r, st')).
Proof.
  unfold buildAndStatement. split.
  - intros Hthrows.
    destruct (Object_keys filtersMap) as [|k0 keys] eqn:Hkeys;
      [now destruct Hthrows as (k & [] & _)|].
    cbn [List.length Nat.eqb]. unfold bind.
    now rewrite (for_each_andEntry_throws _ _ st Hthrows).
  - intros Hvalues.
    destruct (_ =? 0)%nat; [unfold ret; eauto|].
    unfold bind.
    destruct (for_each_andEntry_returns _ _ st Hvalues) as (rs & st' & ->).
    unfold ret. eauto.
Qed.

Lemma and_statement_failures_witness :
  @buildAndStatement spec_pgFormat
    (Some [("id", VNum 3); ("name", VNull); ("age", VNum 4)])
    {| values := []; bindingIndex := 1 |}
  = Raise TypeError
  /\ @buildAndStatement spec_pgFormat
       (Some [("id", VObj [("op", VStr "="); ("value", VNum 3);
                           ("hasOwnProperty", VNum 1)])])
       {| values := []; bindingIndex := 1 |}
     = Raise TypeError.
Proof.
  split.
  - apply (proj1 (@and_statement_failures spec_pgFormat
                    [("id", VNum 3); ("name", VNull); ("age", VNum 4)]
                    {| values := []; bindingIndex := 1 |})).
    exists "name". split; [right; left; reflexivity|reflexivity].
  - apply (proj1 (@and_statement_failures spec_pgFormat
                    [("id", VObj [("op", VStr "="); ("value", VNum 3);
                                  ("hasOwnProperty", VNum 1)])]
                    {| values := []; bindingIndex := 1 |})).
    exists "id". split; [left; reflexivity|reflexivity].
Defined.

(** ** The block range beside the filter groups *)

(** X24: when the groups give a where clause [w], a non-empty [blockRange]
    turns it into [(range) and (w)]: the range statement and the former
    clause, each in parentheses; select, bindings and names stay as they
    are. Stated on options without paging, which only appends a suffix. *)
Theorem block_range_is_anded `{PgFormat} `{Humps} `{Constants}
  (table : string) (filters : Filters) (o : SelectOptions)
  (lo : JsVal) (rest : list JsVal) (p : QueryPayload) (select : frag) (w : Sql) :
  blockRange o = Some (lo :: rest) ->
  buildSelectQuery table filters (Some (withoutPaging (withoutBlockRange o))) = Ok p ->
  sql p = select :: Txt " where " :: w ->
  buildSelectQuery table filters (Some (withoutPaging o))
  = Ok (withSql p
          (select :: Txt " where "
             :: parens (blockRangeStatement (lo :: rest))
             ++ Txt " and " :: parens w)).
Proof.
  intros Hrange. rewrite !buildSelectQuery_after_routing.
  rewrite (detectSpecSchemaQuery_chainId table (truthyGroups filters)
             (Some (withoutPaging (withoutBlockRange o)))
             (Some (withoutPaging o))) by reflexivity.
  destruct (detectSpecSchemaQuery _ _ _) as [[table' groups]|e]; [|discriminate].
  unfold selectAfterRouting. cbv zeta.
  change (optionsBlockRange (Some (withoutPaging (withoutBlockRange o))))
    with (@nil JsVal).
  replace (optionsBlockRange (Some (withoutPaging o))) with (lo :: rest)
    by (destruct o as [ob off lim cid br]; cbn [blockRange] in Hrange; now subst).
  destruct (for_each _ _ _) as [[andStatements st]|e]; [|discriminate].
  rewrite !addSelectOptionsToQuery_withoutPaging.
  cbn [List.length Nat.eqb]. rewrite andb_true_r, andb_false_r.
  destruct (List.filter _ _) as [|s ors]; cbn [List.length Nat.eqb].
  - intros Heq. injection Heq as <-. discriminate.
  - intros Heq. injection Heq as <-. cbn [sql].
    intros Hsql. injection Hsql as <- <-.
    unfold withSql. cbn [schemaName tableName bindings].
    do 2 f_equal.
    destruct ors as [|s' ors]; reflexivity.
Qed.

Lemma block_range_is_anded_witness :
  compiled
    (@buildSelectQuery spec_pgFormat spec_humps spec_constants "public.users"
       (FiltersMap [("id", VNum 3)])
       (Some {| orderBy := None; offset := None; limit := None; chainId := None;
                blockRange := Some [VNum 5] |}))
  = Some (("select * from " ++ quote_ident "public" ++ "." ++ quote_ident "users"
           ++ " where (block_number >= 5) and (" ++ quote_ident "id"
           ++ " = $1)")%string,
          [VNum 3]).
Proof.
  exact (f_equal compiled
    (@block_range_is_anded spec_pgFormat spec_humps spec_constants
             "public.users" (FiltersMap [("id", VNum 3)])
             {| orderBy := None; offset := None; limit := None; chainId := None;
                blockRange := Some [VNum 5] |}
             (VNum 5) []
             {| schemaName := Some "public"; tableName := Some "users";
                sql := [ Txt ("select * from " ++ quote_ident "public" ++ "."
                              ++ quote_ident "users")%string;
                         Txt " where "; Txt (quote_ident "id"); Txt " ";
                         Txt "="; Txt " "; Param 1 (VNum 3) ];
                bindings := [VNum 3] |}
             (Txt ("select * from " ++ quote_ident "public" ++ "."
                   ++ quote_ident "users")%string)
             [ Txt (quote_ident "id"); Txt " "; Txt "="; Txt " ";
               Param 1 (VNum 3) ]
             eq_refl eq_refl eq_refl)).
Defined.

(** ** A group of scalar values *)

Section ScalarGroup.

Context `{PgFormat}.

Lemma andEntry_scalar (filtersMap : StringKeyMap) (colPath : string)
  (v : JsVal) (st : Bindings) :
  obj_get filtersMap colPath = v ->
  scalar v = true ->
  andEntry filtersMap colPath st
  = Ok (Some [ Txt (colEntry colPath (includes "," colPath));
               Txt " "; Txt "="; Txt " "; Param (bindingIndex st) v ],
        {| values := values st ++ [v]; bindingIndex := S (bindingIndex st) |}).
Proof.
  intros Hget Hscalar. unfold andEntry, bind, lift. rewrite Hget.
  destruct v; try discriminate; reflexivity.
Qed.

Lemma for_each_andEntry_scalars (filtersMap : StringKeyMap)
  (entries : StringKeyMap) (st : Bindings) :
  (forall k v, In (k, v) entries ->
     obj_get filtersMap k = v /\ scalar v = true) ->
  for_each (andEntry filtersMap) (Object_keys entries) st
  = Ok (map Some (equalityPredicates (bindingIndex st) entries),
        {| values := values st ++ map snd entries;
           bindingIndex := bindingIndex st + List.length entries |}).
Proof.
  revert st. induction entries as [|[k v] entries IH]; intros st Hentries;
    cbn [Object_keys map fst snd for_each List.length].
  - unfold ret, equalityPredicates. cbn [List.length seq combine map].
    rewrite app_nil_r, Nat.add_0_r. now destruct st.
  - unfold bind.
    destruct (Hentries k v (or_introl eq_refl)) as [Hget Hscalar].
    rewrite (andEntry_scalar _ _ _ st Hget Hscalar).
    fold (Object_keys entries).
    rewrite IH by (intros k' v' Hin; apply Hentries; now right).
    unfold ret, equalityPredicates.
    cbn [values bindingIndex List.length seq combine map fst snd].
    rewrite <- app_assoc, Nat.add_succ_r. reflexivity.
Qed.

Lemma kept_map_Some {A} (l : list A) : kept (map Some l) = l.
Proof. induction l as [|a l IH]; cbn [map kept]; [reflexivity|now rewrite IH]. Qed.

Lemma equalityPredicates_have_text (start : nat) (entries : StringKeyMap) :
  entries <> [] ->
  (String.length (render (sql_join " and " (equalityPredicates start entries)))
   =? 0)%nat = false.
Proof.
  intros Hne. destruct entries as [|[k v] entries]; [congruence|].
  apply Nat.eqb_neq. unfold equalityPredicates.
  cbn [List.length seq combine map fst snd].
  set (more := map _ (combine _ entries)).
  destruct more as [|q more]; cbn [sql_join app];
    rewrite !render_cons, !length_append; cbn [render_frag String.length]; lia.
Qed.

End ScalarGroup.

(** X25: outside the logical schema and without a block range, a filter
    object that holds scalars only (booleans, numbers, strings) under keys
    that normalize to distinct column names, none of them [__proto__],
    compiles to the conjunction of one equality per entry, [<column> = $n],
    in the order of the entries and numbered from 1; the bindings are the
    values in that order. *)
Theorem select_by_scalar_values `{PgFormat} `{Humps} `{Constants}
  (table : string) (m : StringKeyMap) (options : option SelectOptions) :
  nth 0 (split "." table) EmptyString <> SPEC_SCHEMA ->
  optionsBlockRange options = [] ->
  m <> [] ->
  NoDup (map toSnakeCase (Object_keys m)) ->
  ordinaryColumns m ->
  (forall k v, In (k, v) m -> scalar v = true) ->
  buildSelectQuery table (FiltersMap m) options
  = Ok {| schemaName := nth_error (split "." table) 0;
          tableName := nth_error (split "." table) 1;
          sql := addSelectOptionsToQuery
                   (Txt ("select * from " ++ identPath table)%string
                    :: Txt " where "
                    :: sql_join " and " (equalityPredicates 1 (renamed m)))
                   options;
          bindings := map snd m |}.
Proof.
  intros Hschema Hrange Hne Hnodup Hordinary Hscalar.
  rewrite (buildSelectQuery_elsewhere _ _ _ Hschema).
  unfold selectAfterRouting. cbv zeta. rewrite Hrange.
  cbn [truthyGroups map for_each]. unfold bind at 1.
  rewrite (formatFilter_renames_in_place_for m Hnodup Hordinary).
  fold (renamed m).
  assert (Hne' : renamed m <> []).
  { unfold renamed. destruct m; [congruence|discriminate]. }
  assert (Hkeys : NoDup (Object_keys (renamed m))).
  { unfold renamed, Object_keys. rewrite map_map. cbn [fst].
    unfold Object_keys in Hnodup. now rewrite map_map in Hnodup. }
  unfold buildAndStatement.
  assert (Hlen : (List.length (Object_keys (renamed m)) =? 0)%nat = false).
  { apply Nat.eqb_neq. unfold Object_keys. rewrite length_map.
    destruct (renamed m); [congruence|discriminate]. }
  rewrite Hlen. unfold bind at 1.
  rewrite (for_each_andEntry_scalars (renamed m) (renamed m)).
  2:{ intros k v Hin. split; [now apply obj_get_of_entry|].
      unfold renamed in Hin. apply in_map_iff in Hin as ([k0 v0] & Heq & Hin).
      injection Heq as <- <-. exact (Hscalar _ _ Hin). }
  unfold ret, bind. cbn [values bindingIndex app].
  rewrite kept_map_Some. cbn [kept List.filter].
  rewrite (equalityPredicates_have_text 1 _ Hne').
  cbn [negb List.length Nat.eqb andb blockRangeGroup app orGroup whereClause].
  do 2 f_equal. unfold renamed. rewrite map_map. cbn [snd]. reflexivity.
Qed.

Lemma select_by_scalar_values_witness :
  compiled
    (@buildSelectQuery spec_pgFormat spec_humps spec_constants "public.users"
       (FiltersMap [("userId", VNum 3); ("isAdmin", VBool true)]) None)
  = Some (("select * from " ++ quote_ident "public" ++ "." ++ quote_ident "users"
           ++ " where " ++ quote_ident "user_id" ++ " = $1 and "
           ++ quote_ident "is_admin" ++ " = $2")%string,
          [VNum 3; VBool true]).
Proof.
  rewrite (@select_by_scalar_values spec_pgFormat spec_humps spec_constants
             "public.users" [("userId", VNum 3); ("isAdmin", VBool true)] None).
  - reflexivity.
  - discriminate.
  - reflexivity.
  - discriminate.
  - vm_compute. distinct_strings.
  - ordinary_columns.
  - intros k v [Heq|[Heq|[]]]; now injection Heq as <- <-.
Defined.

(** ** Groups of droppable values *)

Lemma select_without_constraint_witness :
  @buildSelectQuery spec_pgFormat spec_humps spec_constants "public.users"
    (FiltersArray [Some [("id", VUndefined); ("tags", VArr [])]; None; Some []])
    None
  = Ok {| schemaName := Some "public"; tableName := Some "users";
          sql := [Txt ("select * from " ++ quote_ident "public" ++ "."
                       ++ quote_ident "users")%string];
          bindings := [] |}.
Proof.
  apply (@select_without_constraint spec_pgFormat spec_humps spec_constants
           "public.users"
           (FiltersArray [Some [("id", VUndefined); ("tags", VArr [])]; None;
                          Some []])
           None).
  - discriminate.
  - reflexivity.
  - intros g [<-|[<-|[]]]; ordinary_columns.
  - intros g [<-|[<-|[]]] k Hin; cbn [Object_keys map fst In] in Hin;
      [destruct Hin as [<-|[<-|[]]]; reflexivity|contradiction].
Defined.
